(** * uro-go: URL de-duplication, verified against its specification

    A shallow embedding of the de-duplication engine of uro-go
    ([uro.go], [internal/processor], [internal/filter], [pkg/urlutil]).

    Go strings are byte sequences: they are modelled by [string], whose
    characters are the 256 [ascii] values.  Go maps are [gmap]s, Go sets
    ([map[string]struct{}]) are [gset]s, slices are lists. *)

From Stdlib Require Import ZArith Ascii String.
From stdpp Require Import gmap strings list fin_maps.

Local Open Scope char_scope.
Local Open Scope stdpp_scope.
#[local] Set Warnings "-clear-no-such-hyp".

(** ** The functions of Go's [strings] package that the program calls *)

Module GoStrings.

(** [strings.Split(s, sep)] for a one-byte separator: the pieces between
    the occurrences of [sep]; [Split "" sep = [""]]. *)
Fixpoint Split (s : string) (sep : ascii) : list string :=
  match s with
  | EmptyString => [EmptyString]
  | String c s' =>
      if decide (c = sep) then EmptyString :: Split s' sep
      else match Split s' sep with
           | h :: t => String c h :: t
           | [] => [String c EmptyString]
           end
  end.

(** [strings.SplitN(s, sep, 2)] for a one-byte separator: the text before
    the first [sep] and the text after it, or [s] alone. *)
Fixpoint SplitN2 (s : string) (sep : ascii) : list string :=
  match s with
  | EmptyString => [EmptyString]
  | String c s' =>
      if decide (c = sep) then [EmptyString; s']
      else match SplitN2 s' sep with
           | h :: t => String c h :: t
           | [] => [String c EmptyString]
           end
  end.

(** [strings.Cut(s, sep)] for a one-byte separator: the text before the
    first [sep], the text after it, and whether [sep] occurs. *)
Fixpoint Cut (s : string) (sep : ascii) : string * string * bool :=
  match s with
  | EmptyString => (EmptyString, EmptyString, false)
  | String c s' =>
      if decide (c = sep) then (EmptyString, s', true)
      else let '(before, after, found) := Cut s' sep in (String c before, after, found)
  end.

(** [strings.Count(s, sep)] for a one-byte [sep]. *)
Fixpoint Count (s : string) (sep : ascii) : nat :=
  match s with
  | EmptyString => 0
  | String c s' => (if decide (c = sep) then 1 else 0) + Count s' sep
  end.

(** [strings.Contains(s, sep)] for a one-byte [sep]. *)
Fixpoint Contains (s : string) (sep : ascii) : bool :=
  match s with
  | EmptyString => false
  | String c s' => bool_decide (c = sep) || Contains s' sep
  end.

(** [strings.HasPrefix(s, prefix)]. *)
Fixpoint HasPrefix (s prefix : string) {struct prefix} : bool :=
  match prefix, s with
  | EmptyString, _ => true
  | String _ _, EmptyString => false
  | String a prefix', String b s' => bool_decide (a = b) && HasPrefix s' prefix'
  end.

(** [s[n:]] and [s[:n]] for [n <= len(s)]. *)
Fixpoint drop_bytes (n : nat) (s : string) : string :=
  match n, s with
  | S n', String _ s' => drop_bytes n' s'
  | _, _ => s
  end.

Fixpoint take_bytes (n : nat) (s : string) : string :=
  match n, s with
  | S n', String c s' => String c (take_bytes n' s')
  | _, _ => EmptyString
  end.

(** [strings.LastIndex(s, sep)] for a one-byte [sep]: the index of the
    last occurrence, [-1] when there is none. *)
Fixpoint LastIndex (s : string) (sep : ascii) : Z :=
  match s with
  | EmptyString => -1
  | String c s' =>
      let i := LastIndex s' sep in
      if (0 <=? i)%Z then (i + 1)%Z
      else if decide (c = sep) then 0%Z else (-1)%Z
  end.

(** [strings.Join(elems, sep)]. *)
Fixpoint Join (elems : list string) (sep : string) : string :=
  match elems with
  | [] => EmptyString
  | [e] => e
  | e :: rest => e +:+ sep +:+ Join rest sep
  end.

(** [strings.TrimSuffix(s, "/")]: [s] without one trailing slash. *)
Fixpoint TrimSuffix_slash (s : string) : string :=
  match s with
  | EmptyString => EmptyString
  | String c EmptyString => if decide (c = "/"%char) then EmptyString else s
  | String c s' => String c (TrimSuffix_slash s')
  end.

(** *** UTF-8 and white space *)

Definition byte_in (lo hi : N) (c : ascii) : bool :=
  (lo <=? N_of_ascii c)%N && (N_of_ascii c <=? hi)%N.

Definition is_byte (b : N) (c : ascii) : bool := (N_of_ascii c =? b)%N.

(** A continuation byte [10xxxxxx]. *)
Definition is_cont (c : ascii) : bool := byte_in 128 191 c.

(** The second byte that [utf8.DecodeRune] accepts after the leading byte
    [c0] of a three- or four-byte sequence (the [acceptRanges] table). *)
Definition second_ok (c0 c1 : ascii) : bool :=
  if is_byte 224 c0 then byte_in 160 191 c1
  else if is_byte 237 c0 then byte_in 128 159 c1
  else if is_byte 240 c0 then byte_in 144 191 c1
  else if is_byte 244 c0 then byte_in 128 143 c1
  else is_cont c1.

(** The width of the rune that [utf8.DecodeRuneInString] finds at the
    start of [s]; [None] where it answers [(RuneError, 1)] for a byte that
    starts no valid encoding. *)
Definition rune_width (s : string) : option nat :=
  match s with
  | EmptyString => None
  | String c0 r =>
      if (N_of_ascii c0 <? 128)%N then Some 1
      else if byte_in 194 223 c0 then
        match r with
        | String c1 _ => if is_cont c1 then Some 2 else None
        | _ => None
        end
      else if byte_in 224 239 c0 then
        match r with
        | String c1 (String c2 _) =>
            if second_ok c0 c1 && is_cont c2 then Some 3 else None
        | _ => None
        end
      else if byte_in 240 244 c0 then
        match r with
        | String c1 (String c2 (String c3 _)) =>
            if second_ok c0 c1 && is_cont c2 && is_cont c3 then Some 4 else None
        | _ => None
        end
      else None
  end.

#[global] Arguments rune_width : simpl never.

(** The loop of [strings.ToValidUTF8(s, "")]: [pending] counts the bytes
    still to copy of the rune being copied; a byte that starts no valid
    encoding is dropped. *)
Fixpoint to_valid (pending : nat) (s : string) : string :=
  match s with
  | EmptyString => EmptyString
  | String c r =>
      match pending with
      | S k => String c (to_valid k r)
      | 0 => match rune_width s with
             | Some w => String c (to_valid (w - 1) r)
             | None => to_valid 0 r
             end
      end
  end.

Definition ToValidUTF8_empty (s : string) : string := to_valid 0 s.

(** [s] is valid UTF-8 ([utf8.ValidString]). *)
Fixpoint valid_from (pending : nat) (s : string) : bool :=
  match s with
  | EmptyString => bool_decide (pending = 0)
  | String c r =>
      match pending with
      | S k => valid_from k r
      | 0 => match rune_width s with
             | Some w => valid_from (w - 1) r
             | None => false
             end
      end
  end.

Definition ValidString (s : string) : bool := valid_from 0 s.

(** The bytes of the white-space rune ([unicode.IsSpace]) that [s] starts
    with: tab, LF, VT, FF, CR, space, U+0085, U+00A0, U+1680,
    U+2000..U+200A, U+2028, U+2029, U+202F, U+205F, U+3000. *)
Definition space_width (s : string) : option nat :=
  match s with
  | EmptyString => None
  | String c0 r =>
      if byte_in 9 13 c0 || is_byte 32 c0 then Some 1
      else match r with
           | String c1 r1 =>
               if is_byte 194 c0 && (is_byte 133 c1 || is_byte 160 c1) then Some 2
               else match r1 with
                    | String c2 _ =>
                        if (is_byte 225 c0 && is_byte 154 c1 && is_byte 128 c2)
                           || (is_byte 226 c0 && is_byte 128 c1 &&
                                 (byte_in 128 138 c2 || is_byte 168 c2
                                  || is_byte 169 c2 || is_byte 175 c2))
                           || (is_byte 226 c0 && is_byte 129 c1 && is_byte 159 c2)
                           || (is_byte 227 c0 && is_byte 128 c1 && is_byte 128 c2)
                        then Some 3 else None
                    | _ => None
                    end
           | _ => None
           end
  end.

(** The same test on a reversed string: the white-space rune that the
    original string ends with. *)
Definition space_width_back (rs : string) : option nat :=
  match rs with
  | EmptyString => None
  | String c0 r =>
      if byte_in 9 13 c0 || is_byte 32 c0 then Some 1
      else match r with
           | String c1 r1 =>
               if is_byte 194 c1 && (is_byte 133 c0 || is_byte 160 c0) then Some 2
               else match r1 with
                    | String c2 _ =>
                        if (is_byte 225 c2 && is_byte 154 c1 && is_byte 128 c0)
                           || (is_byte 226 c2 && is_byte 128 c1 &&
                                 (byte_in 128 138 c0 || is_byte 168 c0
                                  || is_byte 169 c0 || is_byte 175 c0))
                           || (is_byte 226 c2 && is_byte 129 c1 && is_byte 159 c0)
                           || (is_byte 227 c2 && is_byte 128 c1 && is_byte 128 c0)
                        then Some 3 else None
                    | _ => None
                    end
           | _ => None
           end
  end.

#[global] Arguments space_width : simpl never.
#[global] Arguments space_width_back : simpl never.

(** Drop white-space runes from the front, as long as [width] finds one. *)
Fixpoint trim_front (width : string → option nat) (skip : nat) (s : string) : string :=
  match s with
  | EmptyString => EmptyString
  | String c r =>
      match skip with
      | S k => trim_front width k r
      | 0 => match width s with
             | Some w => trim_front width (w - 1) r
             | None => s
             end
      end
  end.

Fixpoint rev_onto (s acc : string) : string :=
  match s with
  | EmptyString => acc
  | String c r => rev_onto r (String c acc)
  end.

Definition reverse_bytes (s : string) : string := rev_onto s EmptyString.

(** [strings.TrimSpace(s)]: leading white space is cut first, then the
    trailing white space of what remains. *)
Definition TrimSpace (s : string) : string :=
  reverse_bytes
    (trim_front space_width_back 0 (reverse_bytes (trim_front space_width 0 s))).

End GoStrings.

Import GoStrings.

(** ** The regular expressions of the program

    Go's [regexp] finds the leftmost match and, among the matches that start
    there, the one a backtracking search finds first.  The two patterns of
    the program use literals, [\d], [\d+], a character class, [$], [?],
    sequence and alternation; [exec] is the backtracking matcher for these. *)

Module GoRegexp.

Inductive regex : Type :=
| Lit (l : string)            (* literal text *)
| Digit                       (* \d *)
| Digits                      (* \d+ *)
| OneOf (cs : string)         (* [...] *)
| EndOfText                   (* $ *)
| Seq (r1 r2 : regex)
| Alt (r1 r2 : regex)         (* r1|r2, r1 preferred *)
| Opt (r : regex).            (* r?, greedy *)

Definition is_digit (c : ascii) : bool := byte_in 48 57 c.

(** [\d+] followed by [k]: the longest run of digits first. *)
Fixpoint exec_digits (s : string) (k : string → option string) : option string :=
  match s with
  | EmptyString => None
  | String c s' =>
      if is_digit c then
        match exec_digits s' k with
        | Some rest => Some rest
        | None => k s'
        end
      else None
  end.

(** [exec r s k]: match [r] at the start of [s], then [k] on what is left;
    the result is the text left after the whole match. *)
Fixpoint exec (r : regex) (s : string) (k : string → option string) : option string :=
  match r with
  | Lit l => if HasPrefix s l then k (drop_bytes (String.length l) s) else None
  | Digit => match s with
             | String c s' => if is_digit c then k s' else None
             | EmptyString => None
             end
  | Digits => exec_digits s k
  | OneOf cs => match s with
                | String c s' => if Contains cs c then k s' else None
                | EmptyString => None
                end
  | EndOfText => match s with EmptyString => k s | _ => None end
  | Seq r1 r2 => exec r1 s (λ s1, exec r2 s1 k)
  | Alt r1 r2 => match exec r1 s k with
                 | Some rest => Some rest
                 | None => exec r2 s k
                 end
  | Opt r1 => match exec r1 s k with
              | Some rest => Some rest
              | None => k s
              end
  end.

(** The length of the match of [r] at the start of [s]. *)
Definition match_here (r : regex) (s : string) : option nat :=
  match exec r s Some with
  | Some rest => Some (String.length s - String.length rest)
  | None => None
  end.

(** [re.FindStringIndex(s)]: start and end of the leftmost match; [pos] is
    the offset of [s] in the text searched. *)
Fixpoint find_from (r : regex) (pos : nat) (s : string) : option (nat * nat) :=
  match match_here r s with
  | Some n => Some (pos, pos + n)
  | None => match s with
            | EmptyString => None
            | String _ s' => find_from r (S pos) s'
            end
  end.

Definition FindStringIndex (r : regex) (s : string) : option (nat * nat) :=
  find_from r 0 s.

Definition MatchString (r : regex) (s : string) : bool :=
  bool_decide (is_Some (FindStringIndex r s)).

(** [regexp.QuoteMeta(s)]: a backslash before each of [\.+*?()|[]{}^$]. *)
Definition is_special (c : ascii) : bool := Contains "\.+*?()|[]{}^$" c.

Fixpoint QuoteMeta (s : string) : string :=
  match s with
  | EmptyString => EmptyString
  | String c s' =>
      if is_special c then String "\" (String c (QuoteMeta s'))
      else String c (QuoteMeta s')
  end.

(** [/\d+([?/]|$)] *)
Definition reInt : regex :=
  Seq (Lit "/") (Seq Digits (Alt (OneOf "?/") EndOfText)).

(** [(post|blog)s?|docs|support/|/(\d{4}|pages?)/\d+/] *)
Definition reContent : regex :=
  Alt (Seq (Alt (Lit "post") (Lit "blog")) (Opt (Lit "s")))
    (Alt (Lit "docs")
       (Alt (Lit "support/")
          (Seq (Lit "/")
             (Seq (Alt (Seq Digit (Seq Digit (Seq Digit Digit)))
                       (Seq (Lit "page") (Opt (Lit "s"))))
                (Seq (Lit "/") (Seq Digits (Lit "/"))))))).

End GoRegexp.

Import GoRegexp.

(** ** [pkg/urlutil]: the query decoder *)

(** [paramsToMap] of uro.go, the same function as [urlutil.ParamsToMap]. *)
Definition paramsToMap (query : string) : gmap string string :=
  if decide (query = "") then ∅
  else
    foldl (λ (result : gmap string string) (pair : string),
             let parts := SplitN2 pair "=" in
             if bool_decide (length parts = 2) && bool_decide (nth 0 parts "" ≠ "")
             then <[nth 0 parts "" := nth 1 parts ""]> result
             else if bool_decide (length parts = 1) && bool_decide (nth 0 parts "" ≠ "")
             then <[nth 0 parts "" := ""]> result
             else result)
          ∅ (Split query "&").

(** [compareParams] ([urlutil.CompareParams]): does [new] have a key that no
    stored parameter set of the path has? *)
Definition compareParams (existing : list (gmap string string))
    (new : gmap string string) : bool :=
  let seen : gset string :=
    foldl (λ (seen : gset string) (params : gmap string string),
             dom params ∪ seen) ∅ existing in
  bool_decide (set_Exists (λ key, key ∉ seen) (dom new)).

(** [hasExtension] ([urlutil.HasExtension]). *)
Definition hasExtension (path : string) : bool :=
  let lastSlash := LastIndex path "/" in
  let lastPart :=
    if (0 <=? lastSlash)%Z then drop_bytes (Z.to_nat (lastSlash + 1)) path
    else path in
  Contains lastPart ".".

(** [isDigit]: non-empty and every byte in ['0'..'9']. *)
Definition isDigit (s : string) : bool :=
  if decide (s = "") then false
  else forallb is_digit (list_ascii_of_string s).

(** [createPattern]: [lastIndex] is the index of the last numeric segment,
    0 when there is none. *)
Definition createPattern (path : string) : string :=
  let parts := Split path "/" in
  let '(newParts, lastIndex) :=
    foldl (λ '(newParts, lastIndex) '(i, part),
             if isDigit part then (newParts ++ ["\d+"], i)
             else (newParts ++ [QuoteMeta part], lastIndex))
          ([], 0) (imap pair parts) in
  Join (take (lastIndex + 1) newParts) "/".

(** The built-in black list of extensions ([defaultBlacklist],
    [config.DefaultBlacklist]). *)
Definition defaultBlacklist : list string :=
  [ "css"; "png"; "jpg"; "jpeg"; "svg"; "ico"; "webp"; "scss";
    "tif"; "tiff"; "ttf"; "otf"; "woff"; "woff2"; "gif";
    "pdf"; "bmp"; "eot"; "mp3"; "mp4"; "avi" ].

(** The parameter names of [vulnParams] ([config.VulnParams]). *)
Definition vulnParams : gset string :=
  list_to_set [
    "file"; "document"; "folder"; "root"; "path"; "pg"; "style"; "pdf";
    "template"; "php_path"; "doc"; "page"; "name"; "cat"; "dir"; "action";
    "board"; "date"; "detail"; "download"; "prefix"; "include"; "inc";
    "locate"; "show"; "site"; "type"; "view"; "content"; "layout"; "mod";
    "conf"; "daemon"; "upload"; "log"; "ip"; "cli"; "cmd"; "exec"; "command";
    "execute"; "ping"; "query"; "jump"; "code"; "reg"; "do"; "func"; "arg";
    "option"; "load"; "process"; "step"; "read"; "function"; "req";
    "feature"; "exe"; "module"; "payload"; "run"; "print"; "callback";
    "checkout"; "checkout_url"; "continue"; "data"; "dest"; "destination";
    "domain"; "feed"; "file_name"; "file_url"; "folder_url"; "forward";
    "from_url"; "go"; "goto"; "host"; "html"; "image_url"; "img_url";
    "load_file"; "load_url"; "login_url"; "logout"; "navigation"; "next";
    "next_page"; "Open"; "out"; "page_url"; "port"; "redir"; "redirect";
    "redirect_to"; "redirect_uri"; "redirect_url"; "reference"; "return";
    "return_path"; "return_to"; "returnTo"; "return_url"; "rt"; "rurl";
    "target"; "to"; "uri"; "url"; "val"; "validate"; "window"; "q"; "s";
    "search"; "lang"; "keyword"; "keywords"; "year"; "email"; "p"; "jsonp";
    "api_key"; "api"; "password"; "emailto"; "token"; "username";
    "csrf_token"; "unsubscribe_token"; "id"; "item"; "page_id"; "month";
    "immagine"; "list_type"; "terms"; "categoryid"; "key"; "l"; "begindate";
    "enddate"; "select"; "report"; "role"; "update"; "user"; "sort"; "where";
    "params"; "row"; "table"; "from"; "sel"; "results"; "sleep"; "fetch";
    "order"; "column"; "field"; "delete"; "string"; "number"; "filter";
    "access"; "admin"; "dbg"; "debug"; "edit"; "grant"; "test"; "alter";
    "clone"; "create"; "disable"; "enable"; "make"; "modify"; "rename";
    "reset"; "shell"; "toggle"; "adm"; "cfg"; "open"; "img"; "filename";
    "preview"; "activity" ].

(** [normalizeFilterName] ([filter.NormalizeFilterName]). *)
Definition normalizeFilterName (name : string) : string :=
  if decide (name = "hasparam") then "hasparams"
  else if decide (name = "noparam") then "noparams"
  else if decide (name = "hasexts") then "hasext"
  else if decide (name = "noexts") then "noext"
  else name.

(** [isValidFilter]. *)
Definition isValidFilter (name : string) : bool :=
  bool_decide (name ∈ ["hasext"; "noext"; "hasparams"; "noparams";
                       "whitelist"; "blacklist"; "removecontent"; "vuln"]).

(** The fields of [url.URL] that the program reads. *)
Record URL : Type := mkURL {
  Scheme : string;
  Host : string;
  Path : string;
  RawQuery : string;
}.

(** [Options] of uro.go. *)
Record Options : Type := mkOptions {
  Whitelist : list string;
  Blacklist : list string;
  Filters : list string;
  KeepSlash : bool;
}.

(** [Processor] of uro.go, without its two compiled regular expressions,
    which are the constants [reInt] and [reContent]. *)
Record Processor : Type := mkProcessor {
  opts : Options;
  urlMap : gmap string (gmap string (list (gmap string string)));
  paramsSeen : gset string;
  patternsSeen : gset string;
  contentPrefixes : list string;
  extList : list string;
  filters : list string;
  strict : bool;
  keepSlash : bool;
}.

Definition set_urlMap (m : gmap string (gmap string (list (gmap string string))))
    (p : Processor) : Processor :=
  mkProcessor (opts p) m (paramsSeen p) (patternsSeen p) (contentPrefixes p)
    (extList p) (filters p) (strict p) (keepSlash p).

Definition set_paramsSeen (ps : gset string) (p : Processor) : Processor :=
  mkProcessor (opts p) (urlMap p) ps (patternsSeen p) (contentPrefixes p)
    (extList p) (filters p) (strict p) (keepSlash p).

Definition set_patternsSeen (ps : gset string) (p : Processor) : Processor :=
  mkProcessor (opts p) (urlMap p) (paramsSeen p) ps (contentPrefixes p)
    (extList p) (filters p) (strict p) (keepSlash p).

Definition set_contentPrefixes (cp : list string) (p : Processor) : Processor :=
  mkProcessor (opts p) (urlMap p) (paramsSeen p) (patternsSeen p) cp
    (extList p) (filters p) (strict p) (keepSlash p).

(** [p.urlMap[host][path]]: reading a missing key of a Go map gives the zero
    value, here the nil map and the nil slice. *)
Definition paths_of (p : Processor) (host : string)
    : gmap string (list (gmap string string)) :=
  default ∅ (urlMap p !! host).

Definition params_of (p : Processor) (host path : string)
    : list (gmap string string) :=
  default [] (paths_of p host !! path).

(** [p.urlMap[host][path] = v]. *)
Definition set_path (host path : string) (v : list (gmap string string))
    (p : Processor) : Processor :=
  set_urlMap (<[host := <[path := v]> (paths_of p host)]> (urlMap p)) p.

(** An [io.Writer]: [Write] gives the writer after the write, [None] when
    the write fails. *)
Class Writer (W : Type) := Write : W → string → option W.

(** [fmt.Fprintln(w, s)]. *)
Definition Fprintln {W} `{Writer W} (w : W) (s : string) : option W :=
  Write w (s +:+ String "010" EmptyString).

(** A writer that keeps what is written and never fails ([bytes.Buffer]). *)
Definition Buffer : Type := string.
#[export] Instance Buffer_Writer : Writer Buffer := λ b s, Some (b +:+ s).

(** A writer with room for a number of writes, failing afterwards. *)
Definition LimitedWriter : Type := (string * nat)%type.
#[export] Instance LimitedWriter_Writer : Writer LimitedWriter :=
  λ w s, match w.2 with
         | 0 => None
         | S n => Some (w.1 +:+ s, n)
         end.

(** ** Enumerating the store: [Results], [WriteResults], [Count]

    The three functions walk the maps with [range], whose order Go leaves
    open and varies from one loop to the next.  A view of the store fixes the
    order of one walk: the hosts, the paths of each host and the entries of
    each parameter set, each in the order in which the loop visits them. *)

Abbreviation ParamsView := (list (string * string)).
Abbreviation PathsView := (list (string * list (list (string * string)))).
Abbreviation StoreView := (list (string * list (string * list (list (string * string))))).

(** [order] is an order in which a [range] over [m] may visit its entries. *)
Definition range_of {A} (m : gmap string A) (order : list (string * A)) : Prop :=
  order ≡ₚ map_to_list m.

Definition paths_view (paths : gmap string (list (gmap string string)))
    (v : PathsView) : Prop :=
  ∃ order, range_of paths order ∧
    Forall2 (λ (e : string * list (gmap string string))
               (ve : string * list ParamsView),
               ve.1 = e.1 ∧ Forall2 range_of e.2 ve.2) order v.

Definition store_view (m : gmap string (gmap string (list (gmap string string))))
    (v : StoreView) : Prop :=
  ∃ order, range_of m order ∧
    Forall2 (λ (e : string * gmap string (list (gmap string string)))
               (ve : string * PathsView),
               ve.1 = e.1 ∧ paths_view e.2 ve.2) order v.

(** The view in which every loop follows [map_to_list]. *)
Definition canonical_view
    (m : gmap string (gmap string (list (gmap string string)))) : StoreView :=
  (λ e : string * gmap string (list (gmap string string)),
     (e.1, (λ e' : string * list (gmap string string),
              (e'.1, map_to_list <$> e'.2)) <$> map_to_list e.2))
    <$> map_to_list m.

(** [mapToQuery] ([urlutil.MapToQuery]) on the entries in visiting order. *)
Definition mapToQuery (params : ParamsView) : string :=
  if bool_decide (length params = 0) then ""
  else "?" +:+ Join ((λ kv, kv.1 +:+ "=" +:+ kv.2) <$> params) "&".

(** [Results] on a view of the store. *)
Definition Results_on (v : StoreView) : list string :=
  foldl (λ (results : list string) '(host, paths),
    foldl (λ (results : list string) '(path, paramsList),
      if bool_decide (0 < length paramsList) then
        foldl (λ (results : list string) (params : ParamsView),
                 results ++ [(host +:+ path) +:+ mapToQuery params])
              results paramsList
      else results ++ [host +:+ path])
    results (paths : PathsView))
  [] v.

(** [Count] on a view of the store. *)
Definition Count_on (v : StoreView) : nat :=
  foldl (λ (count : nat) '(_, paths),
    foldl (λ (count : nat) '(_, paramsList),
      if bool_decide (0 < length paramsList) then count + length paramsList
      else count + 1)
    count (paths : PathsView))
  0 v.

(** What [WriteResults] leaves: the writer, and whether it returned [nil]
    ([Done]) or the error of a write ([Failed]). *)
Inductive written (W : Type) : Type :=
| Done (w : W)
| Failed (w : W).
Arguments Done {W} w.
Arguments Failed {W} w.

Section WriteResults.
Context {W : Type} `{Writer W}.

Fixpoint write_params (host path : string) (paramsList : list ParamsView) (w : W)
    : written W :=
  match paramsList with
  | [] => Done w
  | params :: rest =>
      match Fprintln w ((host +:+ path) +:+ mapToQuery params) with
      | Some w' => write_params host path rest w'
      | None => Failed w
      end
  end.

Fixpoint write_paths (host : string) (paths : PathsView) (w : W) : written W :=
  match paths with
  | [] => Done w
  | (path, paramsList) :: rest =>
      let r :=
        if bool_decide (0 < length paramsList)
        then write_params host path paramsList w
        else match Fprintln w (host +:+ path) with
             | Some w' => Done w'
             | None => Failed w
             end in
      match r with
      | Done w' => write_paths host rest w'
      | Failed w' => Failed w'
      end
  end.

(** [WriteResults] on a view of the store. *)
Fixpoint WriteResults_on (v : StoreView) (w : W) : written W :=
  match v with
  | [] => Done w
  | (host, paths) :: rest =>
      match write_paths host paths w with
      | Done w' => WriteResults_on rest w'
      | Failed w' => Failed w'
      end
  end.

(** Writing some lines one after the other, up to the first write that
    fails. *)
Fixpoint write_lines (lines : list string) (w : W) : written W :=
  match lines with
  | [] => Done w
  | line :: rest =>
      match Fprintln w line with
      | Some w' => write_lines rest w'
      | None => Failed w
      end
  end.

(** [fmt.Fprintln(w, s)] with its result dropped, as [URLProcessor.Output]
    calls it: a write that fails is passed over. *)
Definition print (w : W) (line : string) : W := default w (Fprintln w line).

(** [URLProcessor.Output] on a view of the store. *)
Definition Output_on (v : StoreView) (w : W) : W :=
  foldl (λ (w : W) '(host, paths),
    foldl (λ (w : W) '(path, paramsList),
      if bool_decide (0 < length paramsList) then
        foldl (λ (w : W) (params : ParamsView),
                 print w ((host +:+ path) +:+ mapToQuery params))
              w paramsList
      else print w (host +:+ path))
    w (paths : PathsView))
  w v.
End WriteResults.

(** The three functions on a processor: each walks some view of its store. *)
Definition Results (p : Processor) (results : list string) : Prop :=
  ∃ v, store_view (urlMap p) v ∧ results = Results_on v.

Definition Count (p : Processor) (count : nat) : Prop :=
  ∃ v, store_view (urlMap p) v ∧ count = Count_on v.

Definition WriteResults {W} `{Writer W} (p : Processor) (w : W) (r : written W) : Prop :=
  ∃ v, store_view (urlMap p) v ∧ r = WriteResults_on v w.

(** The retained combinations of a walk, in visiting order: host, path and
    the parameter set, [None] for a path kept without parameters. *)
Definition path_entries {A} (host path : string) (paramsList : list A)
    : list (string * string * option A) :=
  if bool_decide (0 < length paramsList)
  then (λ params, (host, path, Some params)) <$> paramsList
  else [(host, path, None)].

Definition view_entries (v : StoreView)
    : list (string * string * option ParamsView) :=
  e ← v; e' ← e.2; path_entries e.1 e'.1 e'.2.

(** The retained combinations of the store itself. *)
Definition store_entries
    (m : gmap string (gmap string (list (gmap string string))))
    : list (string * string * option (gmap string string)) :=
  e ← map_to_list m; e' ← map_to_list e.2; path_entries e.1 e'.1 e'.2.

(** The string that stands for a combination in the results. *)
Definition render (e : string * string * option ParamsView) : string :=
  match e with
  | (host, path, Some params) => (host +:+ path) +:+ mapToQuery params
  | (host, path, None) => host +:+ path
  end.

(** The parameter set that a visiting order of its entries stands for. *)
Definition entry_params (e : string * string * option ParamsView)
    : string * string * option (gmap string string) :=
  (e.1.1, e.1.2, list_to_map <$> e.2).

(** The text of some lines, each ended by a line feed. *)
Definition unlines (lines : list string) : string :=
  foldr (λ line text, (line +:+ String "010" EmptyString) +:+ text) "" lines.

(** ** The query decoder in the words of the specification

    The raw query is split at [&]; each segment is split at its first [=];
    a segment with a value gives [name -> value], a bare name gives
    [name -> ""], a segment with an empty name gives nothing; of several
    segments with one name the last one counts. *)

(** The text before the first [=], and the text after it when there is one. *)
Fixpoint cut_equals (segment : string) : string * option string :=
  match segment with
  | EmptyString => (EmptyString, None)
  | String c rest =>
      if decide (c = "="%char) then (EmptyString, Some rest)
      else let '(name, value) := cut_equals rest in (String c name, value)
  end.

Definition decode_segment (segment : string) : option (string * string) :=
  let '(name, value) := cut_equals segment in
  if decide (name = "") then None else Some (name, default "" value).

Definition decoded_pairs (query : string) : list (string * string) :=
  omap decode_segment (Split query "&").

(** The value of the last pair named [name]. *)
Definition last_value (name : string) (pairs : list (string * string))
    : option string :=
  snd <$> last (filter (λ nv, nv.1 = name) pairs).

Definition query_decoder_spec (query name : string) : option string :=
  last_value name (decoded_pairs query).

(** ** Instances of the two parameters for the examples

    [strings.ToLower] on text whose letters are ASCII, and [url.Parse] on
    URLs of the plain form [scheme://host/path?query]: a scheme of lower-case
    letters, a host and a path of letters, digits and [-._~], and a query
    that may also contain [=], [&] and [/].  There is no escape, port, user
    or fragment in such a URL, and Go returns these four components for it.
    [plain_Parse] refuses every other text. *)

Definition lower_byte (c : ascii) : ascii :=
  if byte_in 65 90 c then ascii_of_N (N_of_ascii c + 32) else c.

Fixpoint ascii_ToLower (s : string) : string :=
  match s with
  | EmptyString => EmptyString
  | String c s' => String (lower_byte c) (ascii_ToLower s')
  end.

Definition plain_byte (c : ascii) : bool :=
  byte_in 97 122 c || byte_in 65 90 c || is_digit c || Contains "-._~" c.

Definition all_bytes (ok : ascii → bool) (s : string) : bool :=
  forallb ok (list_ascii_of_string s).

Definition plain_Parse (rawURL : string) : option URL :=
  let '(scheme, rest, found) := Cut rawURL ":" in
  if found && HasPrefix rest "//" && bool_decide (scheme ≠ "")
     && all_bytes (byte_in 97 122) scheme
  then
    let '(rest, query, _) := Cut (drop_bytes 2 rest) "?" in
    let '(host, path, slash) := Cut rest "/" in
    if bool_decide (host ≠ "") && all_bytes plain_byte host
       && all_bytes (λ c, plain_byte c || is_byte 47 c) path
       && all_bytes (λ c, plain_byte c || Contains "=&/" c) query
    then Some (mkURL scheme host (if slash then String "/" path else "") query)
    else None
  else None.

(** ** Auxiliary notions for the statements *)

(** [urlutil.SanitizeUTF8] and [urlutil.NormalizePath]. *)
Definition SanitizeUTF8 (s : string) : string := ToValidUTF8_empty s.

Definition NormalizePath (rawURL : string) (keepSlash : bool) : string :=
  let rawURL := TrimSpace rawURL in
  if negb keepSlash then TrimSuffix_slash rawURL else rawURL.

(** [BuildHost] of [pkg/urlutil], which uro.go writes out in [processURL]. *)
Definition BuildHost (u : URL) : string := Scheme u +:+ "://" +:+ Host u.

(** The three names that [setupFilters] handles apart from the filters. *)
Definition special_name (f : string) : bool :=
  bool_decide (f = "keepcontent" ∨ f = "keepslash" ∨ f = "allexts").

(** A name of the user that becomes an active filter. *)
Definition recognized (f : string) : bool :=
  negb (special_name f) && isValidFilter (normalizeFilterName f).

(** A name of the user that neither is special nor names a filter. *)
Definition unrecognized (f : string) : Prop :=
  special_name f = false ∧ isValidFilter (normalizeFilterName f) = false.

(** The segment of the generalized pattern that stands for a segment of the
    path: the digit wild card for a numeric segment, the escaped text
    otherwise. *)
Definition wildcard (part : string) : string :=
  if isDigit part then "\d+" else QuoteMeta part.

(** The index of the last numeric segment of [parts], counting from [i]. *)
Fixpoint last_numeric_from (i : nat) (parts : list string) : option nat :=
  match parts with
  | [] => None
  | part :: rest =>
      match last_numeric_from (S i) rest with
      | Some j => Some j
      | None => if isDigit part then Some i else None
      end
  end.

(** [rest] is [s] without the white-space runes, as [width] finds them, that
    [s] starts with. *)
Inductive strips (width : string → option nat) : string → string → Prop :=
| strips_done s : width s = None → strips width s s
| strips_rune s w rest :
    width s = Some w → strips width (drop_bytes w s) rest → strips width s rest.

(** A text that consists of white-space runes. *)
Inductive white : string → Prop :=
| white_nil : white ""
| white_cons rune rest :
    space_width rune = Some (String.length rune) → white rest →
    white (rune +:+ rest).

(** The names of [params] that are not in [seen]: the list [newParams] of
    [processURL]. *)
Definition newParams (seen : gset string) (params : gmap string string) : list string :=
  filter (λ param, param ∉ seen) (map fst (map_to_list params)).

(** [p'] is [p] with some prefixes appended to its content-prefix cache. *)
Definition grows (p p' : Processor) : Prop :=
  ∃ added, p' = set_contentPrefixes (contentPrefixes p ++ added) p.

(** The store after [host] got its map of paths, if it had none. *)
Definition with_host (host : string)
    (m : gmap string (gmap string (list (gmap string string))))
    : gmap string (gmap string (list (gmap string string))) :=
  match m !! host with
  | Some _ => m
  | None => <[host := ∅]> m
  end.

(** The store after [m[host][path] = v]. *)
Definition with_path (host path : string) (v : list (gmap string string))
    (m : gmap string (gmap string (list (gmap string string))))
    : gmap string (gmap string (list (gmap string string))) :=
  <[host := <[path := v]> (default ∅ (m !! host))]> m.

(** What [processURL] does once the filter chain has let the URL pass,
    field by field: [p] is the processor before, [pa] the processor after the
    filter chain, [p'] the processor at the end. *)
Definition after_filters (p pa : Processor) (u : URL) (keep : bool)
    (p' : Processor) : Prop :=
  let host := BuildHost u in
  let path := Path u in
  let params := paramsToMap (RawQuery u) in
  opts p' = opts pa ∧ extList p' = extList pa ∧ filters p' = filters pa ∧
  strict p' = strict pa ∧ keepSlash p' = keepSlash pa ∧
  contentPrefixes p' = contentPrefixes pa ∧
  paramsSeen p' = paramsSeen p ∪ dom params ∧
  match default ∅ (urlMap p !! host) !! path with
  | None =>
      if MatchString reInt path && bool_decide (createPattern path ∈ patternsSeen p)
      then keep = false ∧ patternsSeen p' = patternsSeen p ∧
           urlMap p' = with_host host (urlMap p)
      else keep = true ∧
           patternsSeen p' =
             (if MatchString reInt path then {[createPattern path]} ∪ patternsSeen p
              else patternsSeen p) ∧
           urlMap p' =
             with_path host path
               (if bool_decide (0 < size params) then [params] else []) (urlMap p)
  | Some stored =>
      patternsSeen p' = patternsSeen p ∧
      if bool_decide (dom params ⊆ paramsSeen p)
         && negb (bool_decide (0 < size params) && compareParams stored params)
      then keep = false ∧ urlMap p' = urlMap p
      else keep = true ∧ urlMap p' = with_path host path (stored ++ [params]) (urlMap p)
  end.

(** The stored parameter sets of a processor that started with an empty
    store: every name of every stored set has been seen, and every stored set
    has a name that none of the sets stored before it for the path has. *)
Definition params_ok (p : Processor) : Prop :=
  ∀ host path stored before params after,
    paths_of p host !! path = Some stored →
    stored = before ++ params :: after →
    dom params ⊆ paramsSeen p ∧ compareParams before params = true.

(** The stored paths with a numeric segment: the pattern of each is among
    the seen patterns, and no two of them, of whatever hosts, have the same
    pattern. *)
Definition patterns_ok (p : Processor) : Prop :=
  (∀ host path, is_Some (paths_of p host !! path) →
     MatchString reInt path = true → createPattern path ∈ patternsSeen p)
  ∧ (∀ host path host' path',
       is_Some (paths_of p host !! path) → is_Some (paths_of p host' !! path') →
       MatchString reInt path = true → MatchString reInt path' = true →
       createPattern path = createPattern path' → host = host' ∧ path = path').

(** One round of the loop of [paramsToMap], in terms of [decode_segment]. *)
Definition decode_step (result : gmap string string) (pair : string)
    : gmap string string :=
  match decode_segment pair with
  | Some (name, value) => <[name := value]> result
  | None => result
  end.

(** ** The processor of uro.go

    Two functions of Go's library depend on tables that are not part of the
    program and are parameters here: [strings.ToLower] (Unicode case
    mapping) and [url.Parse], which gives the components of a URL or fails. *)

Section Engine.

Variable ToLower : string → string.
Variable url_Parse : string → option URL.

(** [getExtension] ([urlutil.GetExtension]). *)
Definition getExtension (path : string) : string :=
  let lastSlash := LastIndex path "/" in
  let lastPart :=
    if (0 <=? lastSlash)%Z then drop_bytes (Z.to_nat (lastSlash + 1)) path
    else path in
  let lastDot := LastIndex lastPart "." in
  if (lastDot <? 0)%Z then ""
  else ToLower (drop_bytes (Z.to_nat (lastDot + 1)) lastPart).

(** The set [result] that [cleanArgs] builds. *)
Definition cleanArgs_set (args : list string) : gset string :=
  foldl (λ (result : gset string) (arg : string),
           let arg := TrimSpace arg in
           if decide (arg = "") then result
           else if Contains arg "," then
             foldl (λ (result : gset string) (part : string),
                      let part := TrimSpace (ToLower part) in
                      if decide (part ≠ "") then {[part]} ∪ result else result)
                   result (Split arg ",")
           else {[ToLower arg]} ∪ result)
        ∅ args.

(** [cleanArgs(args)] may return [output]: nil for no arguments, otherwise
    the elements of the set in the order in which Go happens to visit
    them. *)
Definition cleanArgs (args output : list string) : Prop :=
  match args with
  | [] => output = []
  | _ => output ≡ₚ elements (cleanArgs_set args)
  end.

(** [setupFilters], given the three lists that its calls of [cleanArgs]
    returned. *)
Definition setupFilters (filters whitelist blacklist : list string)
    (p : Processor) : Processor :=
  let keepContent := bool_decide ("keepcontent" ∈ filters) in
  let allExts := bool_decide ("allexts" ∈ filters) in
  let keepSlash :=
    keepSlash p || bool_decide ("keepslash" ∈ filters) || KeepSlash (opts p) in
  let contentFilter := if keepContent then [] else ["removecontent"] in
  let '(extFilter, extList) :=
    if allExts then ([], extList p)
    else if bool_decide (0 < length (Whitelist (opts p))) then
      (["whitelist"], whitelist)
    else if bool_decide (0 < length (Blacklist (opts p))) then
      (["blacklist"], blacklist)
    else (["blacklist"], defaultBlacklist) in
  let userFilters :=
    foldl (λ (activeFilters : list string) (f : string),
             if bool_decide (f = "keepcontent" ∨ f = "keepslash" ∨ f = "allexts")
             then activeFilters
             else
               let normalized := normalizeFilterName f in
               if isValidFilter normalized then activeFilters ++ [normalized]
               else activeFilters)
          (contentFilter ++ extFilter) filters in
  let strict :=
    strict p || bool_decide (Exists (λ f, f = "hasext" ∨ f = "noext") filters) in
  mkProcessor (opts p) (urlMap p) (paramsSeen p) (patternsSeen p)
    (contentPrefixes p) extList userFilters strict keepSlash.

(** [NewProcessor(opts)] may return [p]. *)
Inductive NewProcessor (o : Options) : Processor → Prop :=
| NewProcessor_intro filters whitelist blacklist :
    cleanArgs (Filters o) filters →
    cleanArgs (Whitelist o) whitelist →
    cleanArgs (Blacklist o) blacklist →
    NewProcessor o
      (setupFilters filters whitelist blacklist
         (mkProcessor o ∅ ∅ ∅ [] [] [] false false)).

(** [NewProcessor(nil)]: the options are the zero [Options]. *)
Definition nilOptions : Options := mkOptions [] [] [] false.

Definition NewProcessor_nil : Processor :=
  setupFilters [] [] [] (mkProcessor nilOptions ∅ ∅ ∅ [] [] [] false false).

(** [NewProcessor(&Options{KeepSlash: true})]. *)
Definition NewProcessor_keepSlash : Processor :=
  setupFilters [] [] []
    (mkProcessor (mkOptions [] [] [] true) ∅ ∅ ∅ [] [] [] false false).

(** The processor that [NewProcessor] builds for a list of filter names that
    is already clean. *)
Definition processor_with (fs : list string) : Processor :=
  setupFilters fs [] [] (mkProcessor (mkOptions [] [] fs false) ∅ ∅ ∅ [] [] [] false false).

(** [checkWhitelist]. *)
Definition checkWhitelist (p : Processor) (path : string) : bool :=
  let ext := getExtension path in
  if decide (ext = "") then negb (strict p)
  else bool_decide (ext ∈ extList p).

(** [checkBlacklist]. *)
Definition checkBlacklist (p : Processor) (path : string) : bool :=
  let ext := getExtension path in
  if decide (ext = "") then true
  else negb (bool_decide (ext ∈ extList p)).

(** [checkContent]: the answer and the processor afterwards. *)
Definition checkContent (p : Processor) (path : string) : bool * Processor :=
  if existsb (λ part, bool_decide (3 < GoStrings.Count part "-")) (Split path "/")
  then (false, p)
  else if existsb (λ prefix, HasPrefix path prefix) (contentPrefixes p)
  then (false, p)
  else
    match FindStringIndex reContent path with
    | Some m => (true, set_contentPrefixes
                         (contentPrefixes p ++ [take_bytes m.2 path]) p)
    | None => (true, p)
    end.

(** [checkVuln]. *)
Definition checkVuln (params : gmap string string) : bool :=
  bool_decide (set_Exists (λ param, param ∈ vulnParams) (dom params)).

(** [applyFilter]. *)
Definition applyFilter (p : Processor) (name path : string)
    (params : gmap string string) : bool * Processor :=
  if decide (name = "hasext") then (hasExtension path, p)
  else if decide (name = "noext") then (negb (hasExtension path), p)
  else if decide (name = "hasparams") then (bool_decide (0 < size params), p)
  else if decide (name = "noparams") then (bool_decide (size params = 0), p)
  else if decide (name = "whitelist") then (checkWhitelist p path, p)
  else if decide (name = "blacklist") then (checkBlacklist p path, p)
  else if decide (name = "removecontent") then checkContent p path
  else if decide (name = "vuln") then (checkVuln params, p)
  else (true, p).

(** [applyFilters]: the loop over [p.filters], leaving at the first filter
    that rejects. *)
Fixpoint applyFilters_loop (fs : list string) (p : Processor) (path : string)
    (params : gmap string string) : bool * Processor :=
  match fs with
  | [] => (true, p)
  | f :: fs' =>
      let '(keep, p1) := applyFilter p f path params in
      if keep then applyFilters_loop fs' p1 path params else (false, p1)
  end.

Definition applyFilters (p : Processor) (path : string)
    (params : gmap string string) : bool * Processor :=
  applyFilters_loop (filters p) p path params.

(** [processURL]: whether the URL is kept, and the processor afterwards.
    [newParams] is built by a loop over the map [params]; only its length
    and its elements are used, so the order of that loop does not show. *)
Definition processURL (p : Processor) (u : URL) : bool * Processor :=
  let host := Scheme u +:+ "://" +:+ Host u in
  let path := Path u in
  let params := paramsToMap (RawQuery u) in
  let newParams :=
    filter (λ param, param ∉ paramsSeen p) (map fst (map_to_list params)) in
  let '(keep, p) := applyFilters p path params in
  if negb keep then (false, p)
  else
    let p := set_paramsSeen
               (foldl (λ (seen : gset string) param, {[param]} ∪ seen)
                      (paramsSeen p) newParams) p in
    let p := match urlMap p !! host with
             | Some _ => p
             | None => set_urlMap (<[host := ∅]> (urlMap p)) p
             end in
    match paths_of p host !! path with
    | None =>
        let checked :=
          if MatchString reInt path then
            let pattern := createPattern path in
            if bool_decide (pattern ∈ patternsSeen p) then None
            else Some (set_patternsSeen ({[pattern]} ∪ patternsSeen p) p)
          else Some p in
        match checked with
        | None => (false, p)
        | Some p =>
            let p := set_path host path [] p in
            let p := if bool_decide (0 < size params)
                     then set_path host path (params_of p host path ++ [params]) p
                     else p in
            (true, p)
        end
    | Some _ =>
        if bool_decide (0 < length newParams) then
          (true, set_path host path (params_of p host path ++ [params]) p)
        else if bool_decide (0 < size params)
                && compareParams (params_of p host path) params then
          (true, set_path host path (params_of p host path ++ [params]) p)
        else (false, p)
    end.

(** The first lines of [Process]: the canonical form of a raw line. *)
Definition canonical (keepSlash : bool) (rawURL : string) : string :=
  let rawURL := ToValidUTF8_empty rawURL in
  let rawURL := TrimSpace rawURL in
  if negb keepSlash then TrimSuffix_slash rawURL else rawURL.

(** [Process]. *)
Definition Process (p : Processor) (rawURL : string) : bool * Processor :=
  let rawURL := canonical (keepSlash p) rawURL in
  if decide (rawURL = "") then (false, p)
  else
    match url_Parse rawURL with
    | None => (false, p)
    | Some u => if decide (Host u = "") then (false, p) else processURL p u
    end.

(** [ProcessReader], on the lines that the scanner reads. *)
Fixpoint ProcessReader (p : Processor) (lines : list string) : nat * Processor :=
  match lines with
  | [] => (0, p)
  | line :: rest =>
      let '(kept, p1) := Process p line in
      let '(count, p2) := ProcessReader p1 rest in
      ((if kept then 1 else 0) + count, p2)
  end.

(** [Reset]. *)
Definition Reset (p : Processor) : Processor :=
  mkProcessor (opts p) ∅ ∅ ∅ [] (extList p) (filters p) (strict p) (keepSlash p).

(** The answers of [Process] on some lines, one after the other, and the
    processor at the end. *)
Fixpoint Process_all (p : Processor) (lines : list string) : list bool * Processor :=
  match lines with
  | [] => ([], p)
  | line :: rest =>
      let '(kept, p1) := Process p line in
      let '(answers, p2) := Process_all p1 rest in
      (kept :: answers, p2)
  end.

(** *** The command-line processor: [internal/config], [internal/filter],
    [internal/processor] *)

(** [config.Config]. *)
Record Config : Type := mkConfig {
  cfg_InputFile : string;
  cfg_OutputFile : string;
  cfg_Whitelist : list string;
  cfg_Blacklist : list string;
  cfg_Filters : list string;
  cfg_KeepSlash : bool;
}.

(** [Config.GetExtList]. *)
Definition GetExtList (c : Config) : list string :=
  if bool_decide (0 < length (cfg_Whitelist c)) then cfg_Whitelist c
  else if bool_decide (0 < length (cfg_Blacklist c)) then cfg_Blacklist c
  else defaultBlacklist.

(** [Config.IsWhitelistMode]. *)
Definition IsWhitelistMode (c : Config) : bool :=
  bool_decide (0 < length (cfg_Whitelist c)).

(** [filter.Meta]. *)
Record Meta : Type := mkMeta {
  meta_Strict : bool;
  meta_ExtList : list string;
  meta_VulnParams : gset string;
}.

(** The eight implementations of the interface [filter.Filter].  The only
    one with a state is [RemoveContentFilter]; the registry holds one
    instance of it, whose [contentPrefixes] the processor state carries. *)
Inductive Filter : Type :=
| HasExtFilter | NoExtFilter | HasParamsFilter | NoParamsFilter
| WhitelistFilter | BlacklistFilter | RemoveContentFilter | VulnParamFilter.

(** [Filter.Name]. *)
Definition Filter_Name (f : Filter) : string :=
  match f with
  | HasExtFilter => "hasext"
  | NoExtFilter => "noext"
  | HasParamsFilter => "hasparams"
  | NoParamsFilter => "noparams"
  | WhitelistFilter => "whitelist"
  | BlacklistFilter => "blacklist"
  | RemoveContentFilter => "removecontent"
  | VulnParamFilter => "vuln"
  end.

(** [Registry.Register] and [filter.NewRegistry]. *)
Definition Register (f : Filter) (r : gmap string Filter) : gmap string Filter :=
  <[Filter_Name f := f]> r.

Definition NewRegistry : gmap string Filter :=
  Register VulnParamFilter
    (Register RemoveContentFilter
       (Register BlacklistFilter
          (Register WhitelistFilter
             (Register NoParamsFilter
                (Register HasParamsFilter
                   (Register NoExtFilter
                      (Register HasExtFilter ∅))))))).

(** [Registry.Has]. *)
Definition Registry_Has (r : gmap string Filter) (name : string) : bool :=
  bool_decide (is_Some (r !! name)).

(** [checkExt] of the filter package: [(hasExt, inList)]. *)
Definition checkExt (path : string) (extList : list string) : bool * bool :=
  let ext := getExtension path in
  if decide (ext = "") then (false, false)
  else if bool_decide (ext ∈ extList) then (true, true)
  else (true, false).

(** [WhitelistFilter.Apply]. *)
Definition WhitelistFilter_Apply (path : string) (meta : Meta) : bool :=
  let '(hasExt, inList) := checkExt path (meta_ExtList meta) in
  inList || (negb (meta_Strict meta) && negb hasExt).

(** [BlacklistFilter.Apply]. *)
Definition BlacklistFilter_Apply (path : string) (meta : Meta) : bool :=
  let '(hasExt, inList) := checkExt path (meta_ExtList meta) in
  negb inList || (negb (meta_Strict meta) && negb hasExt).

(** [RemoveContentFilter.Apply]: the answer and the filter's
    [contentPrefixes] afterwards. *)
Definition RemoveContentFilter_Apply (contentPrefixes : list string)
    (path : string) : bool * list string :=
  if existsb (λ part, bool_decide (3 < GoStrings.Count part "-")) (Split path "/")
  then (false, contentPrefixes)
  else if existsb (λ prefix, HasPrefix path prefix) contentPrefixes
  then (false, contentPrefixes)
  else
    match FindStringIndex reContent path with
    | Some m => (true, contentPrefixes ++ [take_bytes m.2 path])
    | None => (true, contentPrefixes)
    end.

(** [VulnParamFilter.Apply]. *)
Definition VulnParamFilter_Apply (params : gmap string string) (meta : Meta) : bool :=
  bool_decide (set_Exists (λ param, param ∈ meta_VulnParams meta) (dom params)).

(** [Filter.Apply], threading the state of [RemoveContentFilter]. *)
Definition Filter_Apply (f : Filter) (contentPrefixes : list string)
    (path : string) (params : gmap string string) (meta : Meta)
    : bool * list string :=
  match f with
  | HasExtFilter => (hasExtension path, contentPrefixes)
  | NoExtFilter => (negb (hasExtension path), contentPrefixes)
  | HasParamsFilter => (bool_decide (0 < size params), contentPrefixes)
  | NoParamsFilter => (bool_decide (size params = 0), contentPrefixes)
  | WhitelistFilter => (WhitelistFilter_Apply path meta, contentPrefixes)
  | BlacklistFilter => (BlacklistFilter_Apply path meta, contentPrefixes)
  | RemoveContentFilter => RemoveContentFilter_Apply contentPrefixes path
  | VulnParamFilter => (VulnParamFilter_Apply params meta, contentPrefixes)
  end.

(** The set that [urlutil.CleanArgs] builds: it also splits at spaces. *)
Definition CleanArgs_set (args : list string) : gset string :=
  let parts (sep : ascii) (arg : string) (result : gset string) : gset string :=
    foldl (λ (result : gset string) (part : string),
             let part := TrimSpace (ToLower part) in
             if decide (part ≠ "") then {[part]} ∪ result else result)
          result (Split arg sep) in
  foldl (λ (result : gset string) (arg : string),
           let arg := TrimSpace arg in
           if decide (arg = "") then result
           else if Contains arg "," then parts ","%char arg result
           else if Contains arg " " then parts " "%char arg result
           else {[ToLower arg]} ∪ result)
        ∅ args.

Definition CleanArgs (args output : list string) : Prop :=
  match args with
  | [] => output = []
  | _ => output ≡ₚ elements (CleanArgs_set args)
  end.

(** [processor.URLProcessor]; [contentPrefixes] is the state of the
    registry's [RemoveContentFilter]. *)
Record URLProcessor : Type := mkURLProcessor {
  up_config : Config;
  up_urlMap : gmap string (gmap string (list (gmap string string)));
  up_paramsSeen : gset string;
  up_patternsSeen : gset string;
  up_activeFilters : list Filter;
  up_filterMeta : option Meta;
  up_registry : gmap string Filter;
  up_contentPrefixes : list string;
}.

(** The loop of [URLProcessor.setupFilters] over the user's filters: the
    names collected, or the first name that is not registered. *)
Fixpoint userFilters (registry : gmap string Filter) (filters : list string)
    (activeNames : list string) : string + list string :=
  match filters with
  | [] => inr activeNames
  | f :: rest =>
      if bool_decide (f = "keepcontent" ∨ f = "keepslash" ∨ f = "allexts")
      then userFilters registry rest activeNames
      else
        let normalized := normalizeFilterName f in
        if Registry_Has registry normalized
        then userFilters registry rest (activeNames ++ [normalized])
        else inl ("invalid filter: " +:+ f)
  end.

(** [URLProcessor.setupFilters], given the list that [CleanArgs] returned:
    the error, or the processor with its filters set up. *)
Definition URLProcessor_setupFilters (filters : list string) (p : URLProcessor)
    : string + URLProcessor :=
  let keepContent := bool_decide ("keepcontent" ∈ filters) in
  let activeNames := if keepContent then [] else ["removecontent"] in
  let allExts := bool_decide ("allexts" ∈ filters) in
  let activeNames :=
    if allExts then activeNames
    else if IsWhitelistMode (up_config p) then activeNames ++ ["whitelist"]
    else activeNames ++ ["blacklist"] in
  match userFilters (up_registry p) filters activeNames with
  | inl err => inl err
  | inr activeNames =>
      let activeFilters :=
        foldl (λ (fs : list Filter) (name : string),
                 match up_registry p !! name with
                 | Some f => fs ++ [f]
                 | None => fs
                 end) (up_activeFilters p) activeNames in
      let strict := bool_decide (Exists (λ f, f = "hasext" ∨ f = "noext") filters) in
      inr (mkURLProcessor (up_config p) (up_urlMap p) (up_paramsSeen p)
             (up_patternsSeen p) activeFilters
             (Some (mkMeta strict (GetExtList (up_config p)) vulnParams))
             (up_registry p) (up_contentPrefixes p))
  end.

(** [processor.New(cfg)], given the list that [CleanArgs] returned. *)
Definition New_from (cfg : Config) (filters : list string) : string + URLProcessor :=
  URLProcessor_setupFilters filters
    (mkURLProcessor cfg ∅ ∅ ∅ [] None NewRegistry []).

(** [processor.New(cfg)] may return [r]: an error or a processor. *)
Inductive New (cfg : Config) : string + URLProcessor → Prop :=
| New_intro filters :
    CleanArgs (cfg_Filters cfg) filters → New cfg (New_from cfg filters).

(** [URLProcessor.applyFilters]: the loop over the active filters. *)
Fixpoint URLProcessor_applyFilters (fs : list Filter) (contentPrefixes : list string)
    (path : string) (params : gmap string string) (meta : Meta)
    : bool * list string :=
  match fs with
  | [] => (true, contentPrefixes)
  | f :: fs' =>
      let '(keep, contentPrefixes) := Filter_Apply f contentPrefixes path params meta in
      if keep then URLProcessor_applyFilters fs' contentPrefixes path params meta
      else (false, contentPrefixes)
  end.

Definition set_up_store (m : gmap string (gmap string (list (gmap string string))))
    (p : URLProcessor) : URLProcessor :=
  mkURLProcessor (up_config p) m (up_paramsSeen p) (up_patternsSeen p)
    (up_activeFilters p) (up_filterMeta p) (up_registry p) (up_contentPrefixes p).

(** [URLProcessor.processURL].  [filterMeta] is a pointer that is nil
    until [setupFilters] has run; [New] returns no processor in which it is
    nil, and the function is left undefined ([None]) for one. *)
Definition URLProcessor_processURL (p : URLProcessor) (u : URL) : option URLProcessor :=
  match up_filterMeta p with
  | None => None
  | Some meta =>
      let host := BuildHost u in
      let path := Path u in
      let params := paramsToMap (RawQuery u) in
      let newParams :=
        filter (λ param, param ∉ up_paramsSeen p) (map fst (map_to_list params)) in
      let '(keep, contentPrefixes) :=
        URLProcessor_applyFilters (up_activeFilters p) (up_contentPrefixes p)
          path params meta in
      let p := mkURLProcessor (up_config p) (up_urlMap p) (up_paramsSeen p)
                 (up_patternsSeen p) (up_activeFilters p) (up_filterMeta p)
                 (up_registry p) contentPrefixes in
      if negb keep then Some p
      else
        let p := mkURLProcessor (up_config p) (up_urlMap p)
                   (foldl (λ (seen : gset string) param, {[param]} ∪ seen)
                          (up_paramsSeen p) newParams)
                   (up_patternsSeen p) (up_activeFilters p) (up_filterMeta p)
                   (up_registry p) (up_contentPrefixes p) in
        let p := match up_urlMap p !! host with
                 | Some _ => p
                 | None => set_up_store (<[host := ∅]> (up_urlMap p)) p
                 end in
        let paths := default ∅ (up_urlMap p !! host) in
        match paths !! path with
        | None =>
            let checked :=
              if MatchString reInt path then
                let pattern := createPattern path in
                if bool_decide (pattern ∈ up_patternsSeen p) then None
                else Some (mkURLProcessor (up_config p) (up_urlMap p)
                             (up_paramsSeen p) ({[pattern]} ∪ up_patternsSeen p)
                             (up_activeFilters p) (up_filterMeta p)
                             (up_registry p) (up_contentPrefixes p))
              else Some p in
            match checked with
            | None => Some p
            | Some p =>
                let p := set_up_store (with_path host path [] (up_urlMap p)) p in
                let p := if bool_decide (0 < size params)
                         then set_up_store
                                (with_path host path
                                   (default [] (default ∅ (up_urlMap p !! host) !! path)
                                    ++ [params])
                                   (up_urlMap p)) p
                         else p in
                Some p
            end
        | Some stored =>
            if bool_decide (0 < length newParams) then
              Some (set_up_store (with_path host path (stored ++ [params]) (up_urlMap p)) p)
            else if bool_decide (0 < size params) && compareParams stored params then
              Some (set_up_store (with_path host path (stored ++ [params]) (up_urlMap p)) p)
            else Some p
        end
  end.

(** The command-line processor [up] and the library processor [p] are in the
    same state: the same store, sets and prefix cache, the same filters in
    the same order, the same extension list, strictness and slash option. *)
Definition corresponds (up : URLProcessor) (p : Processor) : Prop :=
  up_urlMap up = urlMap p ∧ up_paramsSeen up = paramsSeen p
  ∧ up_patternsSeen up = patternsSeen p
  ∧ up_contentPrefixes up = contentPrefixes p
  ∧ Filter_Name <$> up_activeFilters up = filters p
  ∧ up_filterMeta up = Some (mkMeta (strict p) (extList p) vulnParams)
  ∧ cfg_KeepSlash (up_config up) = keepSlash p.

(** [URLProcessor.ProcessLine]. *)
Definition ProcessLine (p : URLProcessor) (line : string) : option URLProcessor :=
  let line := SanitizeUTF8 line in
  let line := NormalizePath line (cfg_KeepSlash (up_config p)) in
  if decide (line = "") then Some p
  else
    match url_Parse line with
    | None => Some p
    | Some u => if decide (Host u = "") then Some p else URLProcessor_processURL p u
    end.

(** [URLProcessor.Output] walks some view of the store. *)
Definition Output {W} `{Writer W} (p : URLProcessor) (w w' : W) : Prop :=
  ∃ v, store_view (up_urlMap p) v ∧ w' = Output_on v w.

(** * Properties *)

(** ** The query decoder *)

Lemma SplitN2_cut_equals (segment : string) :
  SplitN2 segment "=" =
    match cut_equals segment with
    | (name, Some value) => [name; value]
    | (name, None) => [name]
    end.
Proof.
  induction segment as [|c rest IH]; simpl; [done|].
  destruct (decide (c = "="%char)); [done|].
  rewrite IH. by destruct (cut_equals rest) as [name [value|]].
Qed.

Lemma paramsToMap_step (result : gmap string string) (pair : string) :
  (let parts := SplitN2 pair "=" in
   if bool_decide (length parts = 2) && bool_decide (nth 0 parts "" ≠ "")
   then <[nth 0 parts "" := nth 1 parts ""]> result
   else if bool_decide (length parts = 1) && bool_decide (nth 0 parts "" ≠ "")
        then <[nth 0 parts "" := ""]> result
        else result) = decode_step result pair.
Proof.
  unfold decode_step, decode_segment. cbv zeta. rewrite SplitN2_cut_equals.
  destruct (cut_equals pair) as [name [value|]]; simpl;
    destruct (decide (name = "")) as [->|Hne]; simpl; try done;
    rewrite bool_decide_eq_true_2; done.
Qed.

Lemma last_value_app name l1 l2 :
  last_value name (l1 ++ l2) =
    match last_value name l2 with
    | Some v => Some v
    | None => last_value name l1
    end.
Proof.
  unfold last_value. rewrite filter_app, last_app.
  by destruct (last (filter _ l2)).
Qed.

Lemma foldl_decode_lookup (segments : list string) (m : gmap string string) name :
  foldl decode_step m segments !! name =
    match last_value name (omap decode_segment segments) with
    | Some v => Some v
    | None => m !! name
    end.
Proof.
  revert m. induction segments as [|seg segments IH] using rev_ind; intros m; [done|].
  rewrite foldl_app, omap_app, last_value_app. simpl.
  unfold decode_step at 1.
  destruct (decode_segment seg) as [[n v]|] eqn:Hd; simpl.
  - unfold last_value at 1. simpl. rewrite filter_cons, filter_nil. simpl.
    destruct (decide (n = name)) as [->|Hne]; simpl.
    + by rewrite lookup_insert_eq.
    + rewrite lookup_insert_ne by done. apply IH.
  - apply IH.
Qed.

(** The two results of [cut_equals]: the segment has no [=] and is the name,
    or it is the name, which has no [=], then [=], then the value. *)
Lemma cut_equals_spec (segment name : string) (value : option string) :
  cut_equals segment = (name, value) →
  Contains name "=" = false
  ∧ segment = match value with
              | Some v => name +:+ "=" +:+ v
              | None => name
              end.
Proof.
  revert name value. induction segment as [|c rest IH]; intros name value; simpl.
  - by intros [= <- <-].
  - destruct (decide (c = "="%char)) as [->|Hc]; [by intros [= <- <-]|].
    destruct (cut_equals rest) as [n v] eqn:Hcut. intros [= <- <-].
    destruct (IH n v eq_refl) as [Hn Hs]. simpl.
    rewrite (bool_decide_eq_false_2 _ Hc), Hn. split; [done|].
    rewrite Hs at 1. by destruct v.
Qed.

(** C8. The query decoder.  For every raw query and every name, the map
    that [paramsToMap] builds holds for the name what the decoder of the
    specification gives: the query is split at [&], each segment at its
    first [=]; a segment with a value gives the name that value, a bare name
    gives it the empty string, a segment with an empty name gives nothing,
    and of several segments with one name the last one counts. *)
Theorem paramsToMap_decodes (query name : string) :
  paramsToMap query !! name = query_decoder_spec query name.
Proof.
  unfold paramsToMap, query_decoder_spec, decoded_pairs.
  destruct (decide (query = "")) as [->|Hne]; [done|].
  etrans; [|etrans; [apply (foldl_decode_lookup (Split query "&") ∅ name)|]].
  - f_equal. generalize (∅ : gmap string string).
    induction (Split query "&") as [|seg l IH]; intros m; simpl; [done|].
    rewrite <- IH. f_equal. apply paramsToMap_step.
  - by destruct (last_value _ _).
Qed.

(** ** The processor *)

Lemma foldl_union_seen (l : list string) (S : gset string) :
  foldl (λ (seen : gset string) param, {[param]} ∪ seen) S l = list_to_set l ∪ S.
Proof.
  revert S. induction l as [|x l IH]; intros S; simpl.
  - set_solver.
  - rewrite IH. set_solver.
Qed.

Lemma elem_of_newParams S params k :
  k ∈ newParams S params ↔ k ∈ dom params ∧ k ∉ S.
Proof.
  unfold newParams. rewrite list_elem_of_filter, elem_of_dom.
  change (map fst (map_to_list params)) with ((map_to_list params).*1).
  rewrite list_elem_of_fmap. split.
  - intros [? ([k' v] & -> & Hin)]. apply elem_of_map_to_list in Hin. eauto.
  - intros [[v Hv] ?]. split; [done|]. exists (k, v). split; [done|].
    by apply elem_of_map_to_list.
Qed.

Lemma newParams_seen S params :
  list_to_set (newParams S params) ∪ S = S ∪ dom params.
Proof.
  apply set_eq. intros k. rewrite !elem_of_union, elem_of_list_to_set, elem_of_newParams.
  destruct (decide (k ∈ S)); naive_solver.
Qed.

Lemma newParams_length S params :
  0 < length (newParams S params) ↔ ¬ dom params ⊆ S.
Proof.
  split.
  - intros Hlen Hsub. destruct (newParams S params) as [|k l] eqn:Hn; [simpl in *; lia|].
    assert (k ∈ newParams S params) as Hk by (rewrite Hn; left).
    apply elem_of_newParams in Hk. set_solver.
  - intros Hsub. destruct (newParams S params) as [|k l] eqn:Hn; [|simpl; lia].
    exfalso. apply Hsub. intros k Hk. destruct (decide (k ∈ S)); [done|].
    assert (k ∈ newParams S params) as Hk' by (by apply elem_of_newParams).
    rewrite Hn in Hk'. by apply elem_of_nil in Hk'.
Qed.

Lemma foldl_union_dom (existing : list (gmap string string)) (S : gset string) key :
  key ∈ foldl (λ (seen : gset string) (params : gmap string string),
                 dom params ∪ seen) S existing
  ↔ key ∈ S ∨ ∃ params, params ∈ existing ∧ key ∈ dom params.
Proof.
  revert S. induction existing as [|q existing IH]; intros S; simpl.
  - split; [by left|]. intros [?|(? & Hin & _)]; [done|]. by apply elem_of_nil in Hin.
  - rewrite IH, elem_of_union. split.
    + intros [[?|?]|(q' & ? & ?)]; [right; exists q|by left|right; exists q'];
        (split; [|done]); [left|by right].
    + intros [?|(q' & Hin & ?)]; [by left; right|].
      apply elem_of_cons in Hin as [->|?]; [by left; left|right; by exists q'].
Qed.

(** [compareParams] answers whether [new] has a key outside the union of the
    keys of the stored parameter sets. *)
Lemma compareParams_spec (existing : list (gmap string string))
    (new : gmap string string) :
  compareParams existing new = true
  ↔ ∃ key, key ∈ dom new ∧ ∀ params, params ∈ existing → key ∉ dom params.
Proof.
  unfold compareParams. rewrite bool_decide_eq_true. unfold set_Exists.
  split; intros (key & Hkey & Hnot); exists key; (split; [done|]).
  - intros q Hq Hin. apply Hnot. apply foldl_union_dom. right. by exists q.
  - intros [Hin|(q & Hq & Hin)]%foldl_union_dom; [set_solver|]. by eapply Hnot.
Qed.

Lemma compareParams_stored (existing : list (gmap string string))
    (new : gmap string string) :
  new ∈ existing → compareParams existing new = false.
Proof.
  intros Hin. apply not_true_is_false. intros (key & Hkey & Hnot)%compareParams_spec.
  by eapply Hnot.
Qed.

Lemma grows_refl p : grows p p.
Proof. exists []. destruct p. unfold set_contentPrefixes. simpl. by rewrite app_nil_r. Qed.

Lemma grows_trans p1 p2 p3 : grows p1 p2 → grows p2 p3 → grows p1 p3.
Proof.
  intros [a1 ->] [a2 ->]. exists (a1 ++ a2).
  destruct p1. unfold set_contentPrefixes. simpl. by rewrite app_assoc.
Qed.

Lemma checkContent_grows p path keep p' :
  checkContent p path = (keep, p') → grows p p'.
Proof.
  unfold checkContent. intros Hc.
  repeat case_match; simplify_eq; try apply grows_refl.
  by eexists [_].
Qed.

Lemma applyFilter_grows p name path params keep p' :
  applyFilter p name path params = (keep, p') → grows p p'.
Proof.
  unfold applyFilter. intros Ha.
  repeat case_decide; simplify_eq; try apply grows_refl.
  by eapply checkContent_grows.
Qed.

Lemma applyFilters_loop_grows fs p path params keep p' :
  applyFilters_loop fs p path params = (keep, p') → grows p p'.
Proof.
  revert p. induction fs as [|f fs IH]; intros p; simpl.
  - intros [= <- <-]. apply grows_refl.
  - destruct (applyFilter p f path params) as [k p1] eqn:Hf.
    apply applyFilter_grows in Hf. destruct k.
    + intros Hl. eapply grows_trans; [done|by eapply IH].
    + by intros [= <- <-].
Qed.

Lemma applyFilters_grows p path params keep p' :
  applyFilters p path params = (keep, p') → grows p p'.
Proof. apply applyFilters_loop_grows. Qed.

Lemma processURL_cases p u :
  let params := paramsToMap (RawQuery u) in
  ∀ kf pa, applyFilters p (Path u) params = (kf, pa) →
    if kf then after_filters p pa u (processURL p u).1 (processURL p u).2
    else processURL p u = (false, pa).
Proof.
  intros params kf pa Hf. unfold processURL. fold params.
  rewrite Hf. destruct kf; [|done]. simpl negb. cbv iota.
  apply applyFilters_grows in Hf as [added ->].
  fold (newParams (paramsSeen p) params).
  rewrite foldl_union_seen.
  set (host := (Scheme u +:+ "://" +:+ Host u)).
  unfold after_filters. fold params. change (BuildHost u) with host.
  unfold with_path, with_host, paths_of, params_of, paths_of, set_path, paths_of.
  simpl. rewrite newParams_seen.
  destruct (urlMap p !! host) as [paths|] eqn:Hhost; simpl; rewrite ?Hhost; simpl.
  - destruct (paths !! Path u) as [stored|] eqn:Hpath; simpl;
      rewrite ?Hhost; simpl; rewrite ?Hpath; simpl.
    + destruct (decide (dom params ⊆ paramsSeen p)) as [Hsub|Hsub].
      * rewrite (bool_decide_eq_true_2 _ Hsub).
        rewrite (bool_decide_eq_false_2 (0 < length _));
          [|by rewrite newParams_length; tauto].
        simpl. by destruct (_ && _).
      * rewrite (bool_decide_eq_false_2 _ Hsub).
        rewrite (bool_decide_eq_true_2 (0 < length _));
          [|by rewrite newParams_length].
        done.
    + destruct (MatchString reInt (Path u)); simpl;
        [destruct (bool_decide (createPattern (Path u) ∈ patternsSeen p)); simpl|];
        rewrite ?Hhost; simpl; try done;
        destruct (bool_decide (0 < size params)); simpl;
        rewrite ?lookup_insert_eq; simpl; rewrite ?lookup_insert_eq; simpl;
        rewrite ?insert_insert_eq; done.
  - rewrite ?lookup_insert_eq. simpl. rewrite ?lookup_empty.
    destruct (MatchString reInt (Path u)); simpl;
      [destruct (bool_decide (createPattern (Path u) ∈ patternsSeen p)); simpl|];
      rewrite ?Hhost; simpl; try done;
      rewrite ?lookup_insert_eq; simpl;
      destruct (bool_decide (0 < size params)); simpl;
      rewrite ?lookup_insert_eq; simpl; rewrite ?lookup_insert_eq; simpl;
      rewrite ?insert_insert_eq; done.
Qed.

Lemma grows_fields p p' :
  grows p p' →
  opts p' = opts p ∧ urlMap p' = urlMap p ∧ paramsSeen p' = paramsSeen p ∧
  patternsSeen p' = patternsSeen p ∧ extList p' = extList p ∧
  filters p' = filters p ∧ strict p' = strict p ∧ keepSlash p' = keepSlash p ∧
  contentPrefixes p `prefix_of` contentPrefixes p'.
Proof. intros [added ->]. simpl. repeat split. by exists added. Qed.

(** [processURL] leaves the configuration of the processor alone. *)
Lemma processURL_config p u :
  let p' := (processURL p u).2 in
  opts p' = opts p ∧ extList p' = extList p ∧ filters p' = filters p ∧
  strict p' = strict p ∧ keepSlash p' = keepSlash p.
Proof.
  cbv zeta.
  destruct (applyFilters p (Path u) (paramsToMap (RawQuery u))) as [kf pa] eqn:Hf.
  pose proof (processURL_cases p u kf pa Hf) as Hc.
  apply applyFilters_grows, grows_fields in Hf
    as (Ho & _ & _ & _ & He & Hfs & Hs & Hk & _).
  destruct kf.
  - destruct Hc as (-> & -> & -> & -> & -> & _). done.
  - rewrite Hc. done.
Qed.

(** A URL that was just kept is not kept when it is processed again, and
    the store stays as it is. *)
Lemma processURL_twice p u p1 :
  processURL p u = (true, p1) →
  ∃ p2, processURL p1 u = (false, p2) ∧ urlMap p2 = urlMap p1.
Proof.
  intros H1.
  set (params := paramsToMap (RawQuery u)).
  destruct (applyFilters p (Path u) params) as [kf pa] eqn:Hf.
  pose proof (processURL_cases p u kf pa Hf) as Hc. rewrite H1 in Hc.
  destruct kf; [|done]. simpl in Hc.
  destruct Hc as (_ & _ & _ & _ & _ & _ & Hseen & Hc). fold params in Hseen, Hc.
  assert (∃ stored, default ∅ (urlMap p1 !! BuildHost u) !! Path u = Some stored ∧
                    (params ∈ stored ∨ size params = 0)) as (stored & Hst & Hin).
  { destruct (default ∅ (urlMap p !! BuildHost u) !! Path u) as [stored|].
    - destruct Hc as [_ Hc]. destruct (_ && _); destruct Hc as [? ->]; [done|].
      eexists. unfold with_path. rewrite lookup_insert_eq. simpl.
      rewrite lookup_insert_eq. split; [done|]. left. apply elem_of_app. right. left.
    - destruct (_ && _); destruct Hc as (? & _ & ->); [done|].
      eexists. unfold with_path. rewrite lookup_insert_eq. simpl.
      rewrite lookup_insert_eq. split; [done|].
      case_bool_decide; [left; left|right; lia]. }
  destruct (applyFilters p1 (Path u) params) as [kf2 pb] eqn:Hf2.
  pose proof (processURL_cases p1 u kf2 pb Hf2) as Hc2. fold params in Hc2.
  apply applyFilters_grows, grows_fields in Hf2 as (_ & Hu & _).
  destruct kf2; [|by eauto].
  destruct (processURL p1 u) as [k2 p2]. simpl in Hc2. exists p2.
  destruct Hc2 as (_ & _ & _ & _ & _ & _ & _ & Hc2). rewrite Hst in Hc2.
  destruct Hc2 as [_ Hc2].
  rewrite bool_decide_eq_true_2 in Hc2 by (rewrite Hseen; set_solver).
  assert (bool_decide (0 < size params) && compareParams stored params = false) as Hno.
  { destruct Hin as [Hin|Hin].
    - rewrite compareParams_stored by done. apply andb_false_r.
    - rewrite bool_decide_eq_false_2 by lia. done. }
  fold params in Hc2. rewrite Hno in Hc2. simpl in Hc2.
  destruct Hc2 as [-> ->]. done.
Qed.

Lemma Process_parsed p rawURL u :
  canonical (keepSlash p) rawURL ≠ "" →
  url_Parse (canonical (keepSlash p) rawURL) = Some u →
  Host u ≠ "" →
  Process p rawURL = processURL p u.
Proof.
  intros Hne Hu Hh. unfold Process.
  destruct (decide _) as [?|_]; [done|]. rewrite Hu.
  by destruct (decide _).
Qed.

(** What [Process] answers is what [processURL] answers on the parsed
    canonical line, or [false] with the processor untouched. *)
Lemma Process_cases p rawURL :
  (∃ u, url_Parse (canonical (keepSlash p) rawURL) = Some u ∧
        Process p rawURL = processURL p u)
  ∨ Process p rawURL = (false, p).
Proof.
  unfold Process. destruct (decide _); [by right|].
  destruct (url_Parse _) as [u|]; [|by right].
  destruct (decide _); [by right|]. left. by exists u.
Qed.

(** [ProcessReader] counts the lines that [Process] keeps. *)
Lemma ProcessReader_counts (p : Processor) (lines : list string) :
  ProcessReader p lines
  = (length (filter (λ kept, kept = true) (Process_all p lines).1),
     (Process_all p lines).2).
Proof.
  revert p. induction lines as [|line lines IH]; intros p; simpl; [done|].
  destruct (Process p line) as [kept p1]. rewrite IH.
  destruct (Process_all p1 lines) as [answers p2]. simpl.
  rewrite filter_cons. by destruct kept.
Qed.

(** [Reset] empties the store, the two sets and the prefix cache, all four
    at once, and nothing is left to enumerate. *)
Lemma Reset_clears (p : Processor) :
  urlMap (Reset p) = ∅ ∧ paramsSeen (Reset p) = ∅ ∧ patternsSeen (Reset p) = ∅
  ∧ contentPrefixes (Reset p) = [] ∧ filters (Reset p) = filters p
  ∧ store_entries (urlMap (Reset p)) = [].
Proof. done. Qed.

(** C7. Submitting the same URL a second time, right after it was kept,
    does not keep it again and adds nothing to the store: whatever the
    line and the state of the processor, if [Process] keeps the line, then
    [Process] on the same line in the resulting state answers [false] and
    leaves the store of hosts, paths and parameter sets as it is. *)
Theorem resubmission_not_kept (p : Processor) (rawURL : string) (p1 : Processor) :
  Process p rawURL = (true, p1) →
  ∃ p2, Process p1 rawURL = (false, p2) ∧ urlMap p2 = urlMap p1.
Proof.
  intros H1. destruct (Process_cases p rawURL) as [(u & Hu & Hp)|Hp];
    [|by rewrite Hp in H1].
  rewrite Hp in H1.
  assert (keepSlash p1 = keepSlash p) as Hk.
  { pose proof (processURL_config p u) as Hc. rewrite H1 in Hc. apply Hc. }
  apply processURL_twice in H1 as (p2 & H2 & Hm).
  destruct (Process_cases p1 rawURL) as [(u' & Hu' & Hp')|Hp'].
  - rewrite Hk, Hu in Hu'. injection Hu' as <-. exists p2. by rewrite Hp'.
  - exists p1. by rewrite Hp'.
Qed.

(** ** The extension filters *)

Lemma checkExt_cases (path : string) (exts : list string) :
  checkExt path exts =
    (bool_decide (getExtension path ≠ ""),
     bool_decide (getExtension path ≠ "") && bool_decide (getExtension path ∈ exts)).
Proof.
  unfold checkExt. destruct (decide (getExtension path = "")) as [->|Hne]; [done|].
  rewrite (bool_decide_eq_true_2 _ Hne). by case_bool_decide.
Qed.

(** C6 (amended). The blacklist filter keeps a path exactly when its
    last-segment extension is empty or not in the blocked list.  That is the
    value of [not inList or (not strict and not hasExt)], the formula of
    [BlacklistFilter.Apply], in which the strict clause never decides: a path
    without extension is kept by the blacklist filter in strict mode as
    well, and the two implementations agree. *)
Theorem checkBlacklist_keeps (p : Processor) (path : string) :
  checkBlacklist p path
    = negb (checkExt path (extList p)).2
      || (negb (strict p) && negb (checkExt path (extList p)).1)
  ∧ (checkBlacklist p path = true
     ↔ getExtension path = "" ∨ getExtension path ∉ extList p)
  ∧ (getExtension path = "" → checkBlacklist p path = true)
  ∧ BlacklistFilter_Apply path (mkMeta (strict p) (extList p) vulnParams)
    = checkBlacklist p path.
Proof.
  unfold BlacklistFilter_Apply, checkBlacklist. rewrite !checkExt_cases. simpl.
  destruct (decide (getExtension path = "")) as [He|He].
  - rewrite (bool_decide_eq_false_2 (_ ≠ _)) by tauto. simpl. tauto.
  - rewrite (bool_decide_eq_true_2 _ He). simpl. rewrite andb_false_r, orb_false_r.
    rewrite negb_true_iff, bool_decide_eq_false. tauto.
Qed.

(** ** The content filter *)

Lemma existsb_Exists {A} (f : A → bool) (l : list A) :
  existsb f l = true ↔ Exists (λ x, f x = true) l.
Proof.
  rewrite existsb_exists, Exists_exists.
  split; intros (x & Hin & Hx); exists x; (split; [|done]); by apply list_elem_of_In.
Qed.

Lemma HasPrefix_take_bytes (n : nat) (path : string) :
  HasPrefix path (take_bytes n path) = true.
Proof.
  revert n. induction path as [|c path IH]; intros [|n]; simpl; try done.
  by rewrite bool_decide_eq_true_2, IH.
Qed.

(** C2 (amended). The content filter rejects a path exactly when (a) one of
    its segments has more than three hyphens or (b) a cached prefix is a
    prefix of it.  A path that it keeps and that matches the content pattern
    is kept all the same; the text up to the end of the leftmost match is
    then appended to the prefix cache, so that every later path with that
    prefix is rejected by (b).  Nothing else of the processor changes, and
    [RemoveContentFilter.Apply] does the same on its own cache. *)
Theorem checkContent_decides (p : Processor) (path : string) :
  let keep := (checkContent p path).1 in
  let p' := (checkContent p path).2 in
  (keep = false
   ↔ Exists (λ part, 3 < GoStrings.Count part "-") (Split path "/")
     ∨ Exists (λ prefix, HasPrefix path prefix = true) (contentPrefixes p))
  ∧ p' = (if keep then
            match FindStringIndex reContent path with
            | Some m => set_contentPrefixes
                          (contentPrefixes p ++ [take_bytes m.2 path]) p
            | None => p
            end
          else p)
  ∧ (∀ m later, keep = true → FindStringIndex reContent path = Some m →
       HasPrefix later (take_bytes m.2 path) = true →
       (checkContent p' later).1 = false)
  ∧ RemoveContentFilter_Apply (contentPrefixes p) path = (keep, contentPrefixes p').
Proof.
  cbv zeta. unfold RemoveContentFilter_Apply.
  assert (∀ q later, (∃ prefix, prefix ∈ contentPrefixes q ∧ HasPrefix later prefix = true) →
            (checkContent q later).1 = false) as Hlater.
  { intros q later (prefix & Hin & Hpre). unfold checkContent.
    destruct (existsb _ (Split later "/")); [done|].
    rewrite (proj2 (existsb_Exists _ _)); [done|].
    apply Exists_exists. eauto. }
  destruct (checkContent p path) as [keep p'] eqn:Hc. simpl.
  unfold checkContent in Hc.
  destruct (existsb _ (Split path "/")) eqn:Hslug.
  { injection Hc as <- <-. repeat split; try done.
    intros _. left. apply existsb_Exists in Hslug.
    eapply Exists_impl; [done|]. intros part Hp. by apply bool_decide_eq_true in Hp. }
  destruct (existsb _ (contentPrefixes p)) eqn:Hpre.
  { injection Hc as <- <-. repeat split; try done.
    intros _. right. by apply existsb_Exists. }
  assert (¬ (Exists (λ part, 3 < GoStrings.Count part "-") (Split path "/")
             ∨ Exists (λ prefix, HasPrefix path prefix = true) (contentPrefixes p)))
    as Hno.
  { intros [Ha|Hb].
    - apply not_true_iff_false in Hslug. apply Hslug, existsb_Exists.
      eapply Exists_impl; [done|]. intros part Hp. by apply bool_decide_eq_true.
    - apply not_true_iff_false in Hpre. by apply Hpre, existsb_Exists. }
  destruct (FindStringIndex reContent path) as [m|] eqn:Hm;
    injection Hc as <- <-; simpl.
  - repeat split; try done.
    intros m' later _ [= <-] Hl. apply Hlater. eexists. split; [|done].
    simpl. apply elem_of_app. right. left.
  - repeat split; done.
Qed.

(** ** The two processors *)

Lemma RemoveContentFilter_checkContent (p : Processor) (path : string) :
  RemoveContentFilter_Apply (contentPrefixes p) path
  = ((checkContent p path).1, contentPrefixes (checkContent p path).2).
Proof.
  unfold RemoveContentFilter_Apply, checkContent.
  repeat case_match; done.
Qed.

Lemma Filter_Apply_applyFilter (f : Filter) (p : Processor) (path : string)
    (params : gmap string string) :
  Filter_Apply f (contentPrefixes p) path params
    (mkMeta (strict p) (extList p) vulnParams)
  = ((applyFilter p (Filter_Name f) path params).1,
     contentPrefixes (applyFilter p (Filter_Name f) path params).2).
Proof.
  destruct f; cbn; try done.
  - unfold WhitelistFilter_Apply. rewrite checkExt_cases. simpl.
    f_equal. unfold checkWhitelist.
    destruct (decide (getExtension path = "")) as [He|He].
    + rewrite (bool_decide_eq_false_2 (_ ≠ _)) by tauto. simpl.
      by rewrite andb_true_r.
    + rewrite (bool_decide_eq_true_2 _ He). simpl.
      by rewrite andb_false_r, orb_false_r.
  - unfold BlacklistFilter_Apply. rewrite checkExt_cases. simpl.
    f_equal. unfold checkBlacklist.
    destruct (decide (getExtension path = "")) as [He|He].
    + by rewrite (bool_decide_eq_false_2 (_ ≠ _)) by tauto.
    + rewrite (bool_decide_eq_true_2 _ He). simpl.
      by rewrite andb_false_r, orb_false_r.
  - apply RemoveContentFilter_checkContent.
Qed.

Lemma applyFilter_contentPrefixes (p : Processor) (name path : string)
    (params : gmap string string) :
  (applyFilter p name path params).2
  = set_contentPrefixes (contentPrefixes (applyFilter p name path params).2) p.
Proof.
  destruct (applyFilter p name path params) as [k p'] eqn:Ha.
  apply applyFilter_grows in Ha as [added ->]. by destruct p.
Qed.

Lemma URLProcessor_applyFilters_loop (fs : list Filter) (p : Processor)
    (path : string) (params : gmap string string) :
  URLProcessor_applyFilters fs (contentPrefixes p) path params
    (mkMeta (strict p) (extList p) vulnParams)
  = ((applyFilters_loop (Filter_Name <$> fs) p path params).1,
     contentPrefixes (applyFilters_loop (Filter_Name <$> fs) p path params).2).
Proof.
  revert p. induction fs as [|f fs IH]; intros p; [done|].
  rewrite fmap_cons. cbn [URLProcessor_applyFilters applyFilters_loop].
  rewrite Filter_Apply_applyFilter.
  pose proof (applyFilter_contentPrefixes p (Filter_Name f) path params) as Hp.
  destruct (applyFilter p (Filter_Name f) path params) as [k p1]. simpl in *.
  destruct k; [|done].
  rewrite Hp. rewrite <- (IH (set_contentPrefixes (contentPrefixes p1) p)). done.
Qed.

(** The command-line processor does on a URL what the library processor
    does: from corresponding states they reach corresponding states. *)
Lemma URLProcessor_processURL_simulates (up : URLProcessor) (p : Processor) (u : URL) :
  corresponds up p →
  ∃ up', URLProcessor_processURL up u = Some up'
         ∧ corresponds up' (processURL p u).2.
Proof.
  intros (Hm & Hs & Hp & Hc & Hf & Hmeta & Hk).
  unfold URLProcessor_processURL, processURL. rewrite Hmeta, Hc, Hs.
  rewrite URLProcessor_applyFilters_loop, Hf.
  change (applyFilters_loop (filters p) p (Path u) (paramsToMap (RawQuery u)))
    with (applyFilters p (Path u) (paramsToMap (RawQuery u))).
  change (Scheme u +:+ "://" +:+ Host u) with (BuildHost u).
  destruct (applyFilters p (Path u) (paramsToMap (RawQuery u))) as [kf pa] eqn:Hfa.
  apply applyFilters_grows in Hfa as [added ->].
  unfold corresponds, set_up_store, set_path, paths_of, params_of, paths_of, with_path.
  destruct up, p. simpl in *. subst.
  destruct kf; simpl; [|by eauto 10].
  destruct (urlMap0 !! BuildHost u) as [paths|] eqn:Hhost; simpl; rewrite ?Hhost; simpl.
  - destruct (paths !! Path u) as [stored|] eqn:Hpath; simpl.
    + repeat case_match; simpl; rewrite ?Hhost; simpl; rewrite ?Hpath; by eauto 10.
    + repeat case_match; simplify_eq; simpl; rewrite ?Hhost; simpl;
        rewrite ?lookup_insert_eq; simpl; rewrite ?lookup_insert_eq; simpl;
        by eauto 10.
  - rewrite ?lookup_insert_eq. simpl. rewrite ?lookup_empty.
    repeat case_match; simplify_eq; simpl; rewrite ?lookup_insert_eq; simpl;
      rewrite ?lookup_insert_eq; simpl; by eauto 10.
Qed.

(** The same for a line. *)
Lemma ProcessLine_simulates (up : URLProcessor) (p : Processor) (line : string) :
  corresponds up p →
  ∃ up', ProcessLine up line = Some up' ∧ corresponds up' (Process p line).2.
Proof.
  intros Hc. unfold ProcessLine, Process, SanitizeUTF8, NormalizePath, canonical.
  destruct Hc as (Hm & Hs & Hp & Hcp & Hf & Hmeta & Hk). rewrite Hk.
  assert (corresponds up p) as Hc by done.
  destruct (decide _); [by eauto|].
  destruct (url_Parse _) as [u|]; [|by eauto].
  destruct (decide _); [by eauto|].
  by apply URLProcessor_processURL_simulates.
Qed.

(** ** Setting up the filters *)

Lemma NewRegistry_lookup (name : string) :
  Registry_Has NewRegistry name = isValidFilter name.
Proof.
  unfold Registry_Has, isValidFilter, NewRegistry, Register. simpl.
  apply bool_decide_ext. rewrite !elem_of_cons, elem_of_nil.
  repeat (rewrite lookup_insert; case_decide; [subst; split; [tauto|by eauto]|]).
  rewrite lookup_empty. split; [by intros [? ?]|]. naive_solver.
Qed.

Lemma userFilters_error (fs : list string) (names : list string) :
  (∃ err, userFilters NewRegistry fs names = inl err) ↔ Exists unrecognized fs.
Proof.
  revert names. induction fs as [|f fs IH]; intros names; simpl.
  - split; [by intros [? ?]|by intros ?%Exists_nil].
  - rewrite Exists_cons. unfold unrecognized at 1. fold (special_name f).
    destruct (special_name f).
    + rewrite IH. split; [by right|]. by intros [[? _]|?].
    + rewrite NewRegistry_lookup.
      destruct (isValidFilter (normalizeFilterName f)) eqn:Hv.
      * rewrite IH. split; [by right|]. by intros [[_ ?]|?].
      * split; [|by eauto]. intros _. left. done.
Qed.

Lemma userFilters_message (fs : list string) (names : list string) err :
  userFilters NewRegistry fs names = inl err →
  ∃ f, f ∈ fs ∧ unrecognized f ∧ err = "invalid filter: " +:+ f.
Proof.
  revert names. induction fs as [|f fs IH]; intros names; simpl; [done|].
  fold (special_name f). destruct (special_name f) eqn:Hsp.
  - intros (f' & ? & ?)%IH. exists f'. split; [by right|done].
  - rewrite NewRegistry_lookup.
    destruct (isValidFilter (normalizeFilterName f)) eqn:Hv.
    + intros (f' & ? & ?)%IH. exists f'. split; [by right|done].
    + intros [= <-]. exists f. split; [left|done].
Qed.

Lemma setupFilters_user_loop (fs : list string) (active : list string) :
  foldl (λ (activeFilters : list string) (f : string),
           if bool_decide (f = "keepcontent" ∨ f = "keepslash" ∨ f = "allexts")
           then activeFilters
           else
             let normalized := normalizeFilterName f in
             if isValidFilter normalized then activeFilters ++ [normalized]
             else activeFilters) active fs
  = active ++ (normalizeFilterName <$> filter (λ f, recognized f = true) fs).
Proof.
  revert active. induction fs as [|f fs IH]; intros active; simpl.
  - by rewrite app_nil_r.
  - rewrite IH, filter_cons. fold (special_name f).
    destruct (decide (recognized f = true)) as [Hr|Hr]; unfold recognized in Hr;
      destruct (special_name f); simpl in *; try done;
      destruct (isValidFilter (normalizeFilterName f)); simpl in *; try done.
    by rewrite <- app_assoc.
Qed.

Lemma cleanArgs_elem (args fs : list string) (f : string) :
  cleanArgs args fs → (f ∈ fs ↔ f ∈ cleanArgs_set args).
Proof.
  unfold cleanArgs. destruct args as [|a args].
  - intros ->. split; [by intros ?%elem_of_nil|]. unfold cleanArgs_set. simpl.
    by intros ?%elem_of_empty.
  - intros ->. apply elem_of_elements.
Qed.

Lemma CleanArgs_elem (args fs : list string) (f : string) :
  CleanArgs args fs → (f ∈ fs ↔ f ∈ CleanArgs_set args).
Proof.
  unfold CleanArgs. destruct args as [|a args].
  - intros ->. split; [by intros ?%elem_of_nil|]. unfold CleanArgs_set. simpl.
    by intros ?%elem_of_empty.
  - intros ->. apply elem_of_elements.
Qed.

(** C5 (amended). The command-line constructor [processor.New] fails exactly
    when the cleaned filter list has a name that is not recognised, with the
    error [invalid filter: <name>] for such a name, and then no processor
    exists to take a line.  The library constructor [NewProcessor] has no
    error to return: it always yields a processor, whose active filters are
    default ones and the recognised names of the user; a name that is not
    recognised is left out. *)
Theorem unrecognized_filter_names (cfg : Config) (o : Options) :
  (∀ r, New cfg r →
     ((∃ err, r = inl err)
      ↔ ∃ f, f ∈ CleanArgs_set (cfg_Filters cfg) ∧ unrecognized f))
  ∧ (∀ err, New cfg (inl err) →
       ∃ f, f ∈ CleanArgs_set (cfg_Filters cfg) ∧ unrecognized f
            ∧ err = "invalid filter: " +:+ f)
  ∧ (∃ r, New cfg r)
  ∧ (∃ p, NewProcessor o p)
  ∧ (∀ p, NewProcessor o p →
       ∃ defaults, defaults ⊆ ["removecontent"; "whitelist"; "blacklist"]
         ∧ ∀ name, name ∈ filters p
             ↔ name ∈ defaults
               ∨ ∃ f, f ∈ cleanArgs_set (Filters o) ∧ recognized f = true
                      ∧ name = normalizeFilterName f).
Proof.
  assert (∀ fs, (∃ err, New_from cfg fs = inl err) ↔ Exists unrecognized fs) as Herr.
  { intros fs. unfold New_from, URLProcessor_setupFilters. simpl.
    rewrite <- (userFilters_error fs
      ((if bool_decide ("allexts" ∈ fs)
        then if bool_decide ("keepcontent" ∈ fs) then [] else ["removecontent"]
        else if IsWhitelistMode cfg
             then (if bool_decide ("keepcontent" ∈ fs) then [] else ["removecontent"])
                    ++ ["whitelist"]
             else (if bool_decide ("keepcontent" ∈ fs) then [] else ["removecontent"])
                    ++ ["blacklist"]))).
    destruct (userFilters _ _ _); split; intros [err Herr]; by eauto. }
  assert (∀ fs err, New_from cfg fs = inl err →
            ∃ f, f ∈ fs ∧ unrecognized f ∧ err = "invalid filter: " +:+ f) as Hmsg.
  { intros fs err. unfold New_from, URLProcessor_setupFilters. simpl.
    destruct (userFilters _ _ _) as [err'|] eqn:Hu; [|done].
    intros [= <-]. by eapply userFilters_message. }
  split_and!.
  - intros r Hr. destruct Hr as [fs Hfs]. rewrite Herr, Exists_exists.
    split; intros (f & Hf & Hun); exists f; (split; [|done]);
      by apply (CleanArgs_elem _ _ f Hfs).
  - intros err Hr. inversion Hr as [fs Hfs Hnew].
    destruct (Hmsg fs err Hnew) as (f & Hf & Hun & ->).
    exists f. split_and!; try done. by apply (CleanArgs_elem _ _ f Hfs).
  - assert (∃ fs, CleanArgs (cfg_Filters cfg) fs) as [fs Hfs].
    { destruct (cfg_Filters cfg) as [|a args]; [by exists []|].
      eexists. simpl. reflexivity. }
    eexists. by apply (New_intro cfg fs).
  - assert (∀ args, ∃ out, cleanArgs args out) as Hclean.
    { intros [|a args]; [by exists []|]. eexists. simpl. reflexivity. }
    destruct (Hclean (Filters o)) as [f Hf], (Hclean (Whitelist o)) as [w Hw],
      (Hclean (Blacklist o)) as [b Hb].
    eexists. by apply (NewProcessor_intro o f w b).
  - intros p Hp. destruct Hp as [fs wl bl Hfs _ _].
    exists ((if bool_decide ("keepcontent" ∈ fs) then [] else ["removecontent"])
            ++ (if bool_decide ("allexts" ∈ fs) then []
                else if bool_decide (0 < length (Whitelist o)) then ["whitelist"]
                     else ["blacklist"])).
    split.
    { destruct (bool_decide ("allexts" ∈ fs)), (bool_decide ("keepcontent" ∈ fs)),
        (bool_decide (0 < length (Whitelist o))); simpl; set_solver. }
    intros name.
    assert (filters (setupFilters fs wl bl (mkProcessor o ∅ ∅ ∅ [] [] [] false false))
            = ((if bool_decide ("keepcontent" ∈ fs) then [] else ["removecontent"])
               ++ (if bool_decide ("allexts" ∈ fs) then []
                   else if bool_decide (0 < length (Whitelist o)) then ["whitelist"]
                        else ["blacklist"]))
              ++ (normalizeFilterName <$> filter (λ f, recognized f = true) fs)) as ->.
    { unfold setupFilters. simpl.
      destruct (bool_decide ("allexts" ∈ fs));
        [|destruct (bool_decide (0 < length (Whitelist o)));
          [|destruct (bool_decide (0 < length (Blacklist o)))]]; simpl;
        apply setupFilters_user_loop. }
    rewrite elem_of_app, list_elem_of_fmap.
    split; (intros [?|(f & Hn & Hin)]; [by left|right; exists f]).
    + apply list_elem_of_filter in Hin as [Hrec Hin].
      split_and!; try done. by apply (cleanArgs_elem _ _ f Hfs).
    + destruct Hin as [Hrec ->]. split; [done|].
      apply list_elem_of_filter. split; [done|]. by apply (cleanArgs_elem _ _ _ Hfs).
Qed.

(** ** The numeric pattern *)

Lemma createPattern_loop (l : list string) (n : nat) (acc : list string) (li : nat) :
  foldl (λ '(newParts, lastIndex) '(i, part),
           if isDigit part then (newParts ++ ["\d+"], i)
           else (newParts ++ [QuoteMeta part], lastIndex))
        (acc, li) (imap (λ i part, (n + i, part)) l)
  = (acc ++ (wildcard <$> l), default li (last_numeric_from n l)).
Proof.
  revert n acc li. induction l as [|part l IH]; intros n acc li.
  - simpl. by rewrite app_nil_r.
  - rewrite fmap_cons. cbn [last_numeric_from imap foldl].
    rewrite (imap_ext _ (λ i part, (S n + i, part))) by (intros; simpl; f_equal; lia).
    unfold wildcard at 1. rewrite Nat.add_0_r.
    destruct (isDigit part); rewrite IH, <- app_assoc; simpl;
      by destruct (last_numeric_from (S n) l).
Qed.

Lemma last_numeric_from_none (l : list string) (n : nat) :
  (∀ k part, l !! k = Some part → isDigit part = false) →
  last_numeric_from n l = None.
Proof.
  revert n. induction l as [|x l IH]; intros n Hall; simpl; [done|].
  rewrite IH by (intros k part Hk; by apply (Hall (S k))).
  by rewrite (Hall 0 x).
Qed.

Lemma last_numeric_from_last (l : list string) (n last : nat) (part : string) :
  l !! last = Some part → isDigit part = true →
  (∀ k kpart, last < k → l !! k = Some kpart → isDigit kpart = false) →
  last_numeric_from n l = Some (n + last).
Proof.
  revert n last. induction l as [|x l IH]; intros n last Hl Hd Hafter; [done|].
  simpl. destruct last as [|last]; simpl in Hl.
  - injection Hl as ->. rewrite last_numeric_from_none, Hd, Nat.add_0_r; [done|].
    intros k kpart Hk. apply (Hafter (S k)); [lia|done].
  - rewrite (IH (S n) last); [f_equal; lia|done..|].
    intros k kpart ? Hk. apply (Hafter (S k)); [lia|done].
Qed.

(** [createPattern] joins the wild-carded segments up to the last numeric
    one. *)
Lemma createPattern_generalizes (path : string) (last : nat) (part : string) :
  Split path "/" !! last = Some part → isDigit part = true →
  (∀ k kpart, last < k → Split path "/" !! k = Some kpart → isDigit kpart = false) →
  createPattern path = Join (take (S last) (wildcard <$> Split path "/")) "/".
Proof.
  intros Hl Hd Hafter. unfold createPattern.
  change (imap pair (Split path "/"))
    with (imap (λ i part, (0 + i, part)) (Split path "/")).
  rewrite createPattern_loop, (last_numeric_from_last _ 0 last part) by done.
  simpl. by rewrite Nat.add_1_r.
Qed.

Lemma Split_nonempty (s : string) (sep : ascii) : Split s sep ≠ [].
Proof.
  destruct s as [|c s]; simpl; [done|].
  destruct (decide (c = sep)); [done|]. by destruct (Split s sep).
Qed.

Lemma Split_empty_head (s : string) (t : list string) :
  Split s "/" = EmptyString :: t → s = "" ∨ ∃ r, s = String "/" r.
Proof.
  destruct s as [|c s]; [by left|]. simpl.
  destruct (decide (c = "/"%char)) as [->|_]; [by eauto|].
  by destruct (Split s "/").
Qed.

Lemma isDigit_cons (c : ascii) (s : string) :
  isDigit (String c s) = true → is_digit c = true ∧ (s = "" ∨ isDigit s = true).
Proof.
  unfold isDigit. simpl. intros [Hc Hs]%andb_true_iff. split; [done|].
  destruct s; [by left|by right].
Qed.

(** After the digits of a numeric first segment the rest of [reInt] finds
    the slash or the end of the text. *)
Lemma exec_digits_segment (s part : string) (t : list string)
    (k : string → option string) :
  Split s "/" = part :: t → isDigit part = true →
  is_Some (k "") → (∀ r, is_Some (k (String "/" r))) →
  is_Some (exec_digits s k).
Proof.
  intros Hs Hd Hend Hslash. revert part t Hs Hd.
  induction s as [|c s IH]; intros part t Hs Hd; simpl in Hs.
  - by injection Hs as <- <-.
  - destruct (decide (c = "/"%char)) as [->|Hc]; [by injection Hs as <- <-|].
    destruct (Split s "/") as [|h t'] eqn:Hsplit; injection Hs as <- <-.
    + by apply Split_nonempty in Hsplit.
    + apply isDigit_cons in Hd as [Hc' Hh]. simpl. rewrite Hc'.
      destruct (exec_digits s k) eqn:He; [by eauto|].
      destruct Hh as [->|Hh].
      * apply Split_empty_head in Hsplit as [->|[r ->]]; [done|apply Hslash].
      * destruct (IH h t' eq_refl Hh) as [? ?]. congruence.
Qed.

Lemma reInt_here (s part : string) (t : list string) :
  Split s "/" = part :: t → isDigit part = true →
  is_Some (match_here reInt (String "/" s)).
Proof.
  intros Hs Hd. unfold match_here.
  assert (is_Some (exec reInt (String "/" s) Some)) as [rest ->]; [|by eauto].
  simpl. eapply exec_digits_segment; [done..| |]; simpl; by eauto.
Qed.

Lemma find_from_later (r : regex) (pos : nat) (c : ascii) (s : string) :
  is_Some (find_from r (S pos) s) → is_Some (find_from r pos (String c s)).
Proof. intros Hs. simpl. by destruct (match_here r (String c s)). Qed.

(** A numeric segment right after a slash makes [reInt] match. *)
Lemma numeric_segment_matches (path : string) (i : nat) (part : string) :
  Split path "/" !! S i = Some part → isDigit part = true →
  MatchString reInt path = true.
Proof.
  intros Hl Hd. apply bool_decide_eq_true. unfold FindStringIndex.
  generalize 0 as pos. revert i Hl.
  induction path as [|c path IH]; intros i Hl pos; [done|].
  simpl in Hl. destruct (decide (c = "/"%char)) as [->|Hc].
  - destruct i as [|i]; simpl in Hl.
    + destruct (Split path "/") as [|h t] eqn:Hs; [done|]. injection Hl as ->.
      destruct (reInt_here path part t Hs Hd) as [n Hn].
      unfold find_from. destruct path; rewrite Hn; by eauto.
    + apply find_from_later. by eapply IH.
  - apply find_from_later. apply (IH i).
    by destruct (Split path "/") as [|h t].
Qed.

(** ** Inserting into the store *)

(** One step of an example: [Process] on a line whose parse is known. *)
Ltac process_line Hparse :=
  cbn [Process_all];
  lazymatch goal with
  | |- context [Process ?p ?line] =>
      rewrite (Process_parsed p line _
                 ltac:(vm_compute; discriminate) Hparse ltac:(vm_compute; discriminate));
      let k := fresh "kept" in
      let q := fresh "p" in
      let E := fresh "E" in
      destruct (processURL p _) as [k q] eqn:E;
      vm_compute in E; injection E as <- <-
  end.

Lemma after_filters_paths (p pa : Processor) (u : URL) (keep : bool) (p' : Processor) :
  after_filters p pa u keep p' →
  ∀ host path, (host, path) ≠ (BuildHost u, Path u) →
    paths_of p' host !! path = paths_of p host !! path.
Proof.
  intros (_ & _ & _ & _ & _ & _ & _ & Hc) host path Hne. unfold paths_of.
  assert (∀ v, default ∅ (with_path (BuildHost u) (Path u) v (urlMap p) !! host) !! path
               = default ∅ (urlMap p !! host) !! path) as Hwith.
  { intros v. unfold with_path. destruct (decide (BuildHost u = host)) as [<-|Hh].
    - rewrite lookup_insert_eq. simpl. rewrite lookup_insert_ne; [done|congruence].
    - by rewrite lookup_insert_ne. }
  assert (default ∅ (with_host (BuildHost u) (urlMap p) !! host) !! path
          = default ∅ (urlMap p !! host) !! path) as Hhost.
  { unfold with_host. destruct (urlMap p !! BuildHost u) eqn:Hu; [done|].
    destruct (decide (BuildHost u = host)) as [<-|Hh].
    - by rewrite lookup_insert_eq, Hu.
    - by rewrite lookup_insert_ne. }
  destruct (default ∅ (urlMap p !! BuildHost u) !! Path u).
  - destruct Hc as [_ Hc]. destruct (_ && _); destruct Hc as [_ ->]; [done|apply Hwith].
  - destruct (_ && _); destruct Hc as (_ & _ & ->); [apply Hhost|apply Hwith].
Qed.

(** C3. The policy for a URL that has passed the filter chain and whose
    path is already stored for its host, with the parameter sets [stored]:
    with a parameter name that was never seen before, the parameter set is
    appended whatever is stored, and all its names are seen afterwards;
    otherwise it is appended when it is not empty and has a key that no
    stored parameter set of the path has; otherwise the URL is dropped and
    the store stays as it is.  On a fresh processor [http://h/p?a=1] is
    kept, [http://h/p?a=2] is then dropped and [http://h/p?a=1&b=2] is then
    kept. *)
Theorem existing_path_policy :
  (∀ (p : Processor) (u : URL) (stored : list (gmap string string)),
     let host := BuildHost u in
     let path := Path u in
     let params := paramsToMap (RawQuery u) in
     let keep := (processURL p u).1 in
     let p' := (processURL p u).2 in
     (applyFilters p path params).1 = true →
     paths_of p host !! path = Some stored →
     (¬ dom params ⊆ paramsSeen p →
        keep = true ∧ paths_of p' host !! path = Some (stored ++ [params])
        ∧ dom params ⊆ paramsSeen p')
     ∧ (dom params ⊆ paramsSeen p → params ≠ ∅ →
        (∃ key, key ∈ dom params ∧ ∀ q, q ∈ stored → key ∉ dom q) →
        keep = true ∧ paths_of p' host !! path = Some (stored ++ [params]))
     ∧ (dom params ⊆ paramsSeen p →
        (params = ∅ ∨ ∀ key, key ∈ dom params → ∃ q, q ∈ stored ∧ key ∈ dom q) →
        keep = false ∧ urlMap p' = urlMap p))
  ∧ (url_Parse "http://h/p?a=1" = Some (mkURL "http" "h" "/p" "a=1") →
     url_Parse "http://h/p?a=2" = Some (mkURL "http" "h" "/p" "a=2") →
     url_Parse "http://h/p?a=1&b=2" = Some (mkURL "http" "h" "/p" "a=1&b=2") →
     (Process_all NewProcessor_nil
        ["http://h/p?a=1"; "http://h/p?a=2"; "http://h/p?a=1&b=2"]).1
     = [true; false; true]).
Proof.
  split.
  - intros p u stored host path params keep p' Hf Hst.
    destruct (applyFilters p path params) as [kf pa] eqn:Hfa. simpl in Hf. subst kf.
    pose proof (processURL_cases p u true pa Hfa) as Hc.
    fold keep p' in Hc. destruct Hc as (_ & _ & _ & _ & _ & _ & Hseen & Hc).
    fold host path params in Hseen, Hc. unfold paths_of in *.
    rewrite Hst in Hc. destruct Hc as [_ Hc].
    assert (default ∅ (with_path host path (stored ++ [params]) (urlMap p) !! host)
              !! path = Some (stored ++ [params])) as Hwith.
    { unfold with_path. rewrite lookup_insert_eq. simpl. by rewrite lookup_insert_eq. }
    split_and!.
    + intros Hnew. rewrite (bool_decide_eq_false_2 _ Hnew) in Hc. simpl in Hc.
      destruct Hc as [-> ->]. rewrite Hseen. split_and!; [done..|set_solver].
    + intros Hsub Hne Hkey. rewrite (bool_decide_eq_true_2 _ Hsub) in Hc.
      rewrite (proj2 (compareParams_spec stored params) Hkey) in Hc.
      rewrite bool_decide_eq_true_2 in Hc.
      * simpl in Hc. by destruct Hc as [-> ->].
      * destruct (decide (size params = 0)) as [H0|?]; [|lia].
        by apply map_size_empty_iff in H0.
    + intros Hsub Hcov. rewrite (bool_decide_eq_true_2 _ Hsub) in Hc.
      assert (bool_decide (0 < size params) && compareParams stored params = false)
        as Hno; [|by rewrite Hno in Hc].
      destruct Hcov as [Hempty|Hcov]; [by rewrite Hempty|].
      apply andb_false_intro2, not_true_is_false.
      intros (key & Hkey & Hnot)%compareParams_spec.
      destruct (Hcov key Hkey) as (q & Hq & Hin). by apply (Hnot q).
  - intros H1 H2 H3.
    process_line H1. process_line H2. process_line H3. reflexivity.
Qed.

Lemma with_host_paths (host h : string)
    (m : gmap string (gmap string (list (gmap string string)))) :
  default ∅ (with_host host m !! h) = default ∅ (m !! h).
Proof.
  unfold with_host. destruct (m !! host) eqn:Hm; [done|].
  destruct (decide (host = h)) as [<-|Hne].
  - by rewrite lookup_insert_eq, Hm.
  - by rewrite lookup_insert_ne.
Qed.

(** C4. The policy for a URL that has passed the filter chain, whose path
    is new to its host and has a numeric segment after a slash.  The pattern
    of the path is the join, with slashes, of the segments of the path up to
    the last numeric one, each numeric segment replaced by the digit wild
    card and every other one escaped.  If the pattern is in the set of seen
    patterns, which is one set for all hosts, the URL is rejected and no
    path is added; otherwise the pattern is recorded and the path is stored
    with the parameter set of the URL.  On a fresh processor [http://h/a/1]
    is kept and [http://h/a/2] is then dropped, [http://h/a/1/2] is kept and
    [http://h/a/1/3] is then dropped; after [http://h/a/1] the URL
    [http://g/a/2] of another host is dropped as well. *)
Theorem numeric_pattern_policy :
  (∀ (p : Processor) (u : URL) (i : nat) (part : string),
     let host := BuildHost u in
     let path := Path u in
     let params := paramsToMap (RawQuery u) in
     let keep := (processURL p u).1 in
     let p' := (processURL p u).2 in
     (applyFilters p path params).1 = true →
     paths_of p host !! path = None →
     Split path "/" !! S i = Some part → isDigit part = true →
     (∀ last lpart,
        Split path "/" !! last = Some lpart → isDigit lpart = true →
        (∀ k kpart, last < k → Split path "/" !! k = Some kpart →
                    isDigit kpart = false) →
        createPattern path = Join (take (S last) (wildcard <$> Split path "/")) "/")
     ∧ (createPattern path ∈ patternsSeen p →
        keep = false ∧ patternsSeen p' = patternsSeen p
        ∧ ∀ h, paths_of p' h = paths_of p h)
     ∧ (createPattern path ∉ patternsSeen p →
        keep = true ∧ patternsSeen p' = {[createPattern path]} ∪ patternsSeen p
        ∧ paths_of p' host !! path
          = Some (if bool_decide (0 < size params) then [params] else [])
        ∧ ∀ h q, (h, q) ≠ (host, path) → paths_of p' h !! q = paths_of p h !! q))
  ∧ (url_Parse "http://h/a/1" = Some (mkURL "http" "h" "/a/1" "") →
     url_Parse "http://h/a/2" = Some (mkURL "http" "h" "/a/2" "") →
     url_Parse "http://h/a/1/2" = Some (mkURL "http" "h" "/a/1/2" "") →
     url_Parse "http://h/a/1/3" = Some (mkURL "http" "h" "/a/1/3" "") →
     url_Parse "http://g/a/2" = Some (mkURL "http" "g" "/a/2" "") →
     (Process_all NewProcessor_nil
        ["http://h/a/1"; "http://h/a/2"; "http://h/a/1/2"; "http://h/a/1/3"]).1
     = [true; false; true; false]
     ∧ (Process_all NewProcessor_nil ["http://h/a/1"; "http://g/a/2"]).1
       = [true; false]).
Proof.
  split.
  - intros p u i part host path params keep p' Hf Hnew Hseg Hd.
    destruct (applyFilters p path params) as [kf pa] eqn:Hfa. simpl in Hf. subst kf.
    pose proof (processURL_cases p u true pa Hfa) as Hc. fold keep p' in Hc.
    pose proof (after_filters_paths p pa u keep p' Hc) as Hother.
    destruct Hc as (_ & _ & _ & _ & _ & _ & _ & Hc).
    fold host path params in Hc, Hother. unfold paths_of in *. rewrite Hnew in Hc.
    rewrite (numeric_segment_matches path i part Hseg Hd) in Hc. simpl in Hc.
    split_and!.
    + intros last lpart. apply createPattern_generalizes.
    + intros Hin. rewrite (bool_decide_eq_true_2 _ Hin) in Hc.
      destruct Hc as (-> & -> & ->). split_and!; [done..|].
      intros h. apply with_host_paths.
    + intros Hin. rewrite (bool_decide_eq_false_2 _ Hin) in Hc.
      destruct Hc as (-> & -> & Hm). split_and!; [done..| |done].
      rewrite Hm. unfold with_path. rewrite lookup_insert_eq. simpl.
      by rewrite lookup_insert_eq.
  - intros H1 H2 H3 H4 H5. split.
    + process_line H1. process_line H2. process_line H3. process_line H4.
      reflexivity.
    + process_line H1. process_line H5. reflexivity.
Qed.

(** ** What a line leaves behind *)

(** C1 (amended). A line is kept, with the update of the store that belongs
    to it, or skipped; a skipped line never changes a stored path or
    parameter set, nor the seen patterns.  It may still leave a trace: the
    prefix cache can grow on every line that reaches the content filter; a
    line that the filter chain rejects, or that is dropped as a redundant
    parameter set, leaves the store, the seen parameter names and the seen
    patterns exactly as they were; a line that passes the filter chain and is
    then rejected by the numeric pattern has by then added its parameter
    names to the seen names and given its host an empty map of paths.  The
    seen parameter names are the names of the URLs that passed the filter
    chain. *)
Theorem skipped_line_effects :
  (∀ (p : Processor) (rawURL : string),
     let keep := (Process p rawURL).1 in
     let p' := (Process p rawURL).2 in
     contentPrefixes p `prefix_of` contentPrefixes p'
     ∧ paramsSeen p ⊆ paramsSeen p'
     ∧ (keep = false →
        patternsSeen p' = patternsSeen p ∧ ∀ host, paths_of p' host = paths_of p host))
  ∧ (∀ (p : Processor) (u : URL),
     let host := BuildHost u in
     let path := Path u in
     let params := paramsToMap (RawQuery u) in
     let keep := (processURL p u).1 in
     let p' := (processURL p u).2 in
     ((applyFilters p path params).1 = false →
        keep = false ∧ urlMap p' = urlMap p ∧ paramsSeen p' = paramsSeen p
        ∧ patternsSeen p' = patternsSeen p)
     ∧ ((applyFilters p path params).1 = true →
        paramsSeen p' = paramsSeen p ∪ dom params)
     ∧ ((applyFilters p path params).1 = true →
        is_Some (paths_of p host !! path) → keep = false →
        urlMap p' = urlMap p ∧ paramsSeen p' = paramsSeen p
        ∧ patternsSeen p' = patternsSeen p)
     ∧ ((applyFilters p path params).1 = true →
        paths_of p host !! path = None → keep = false →
        urlMap p' = with_host host (urlMap p) ∧ patternsSeen p' = patternsSeen p
        ∧ createPattern path ∈ patternsSeen p)
     ∧ (keep = true →
        (∃ stored, paths_of p' host !! path = Some stored
                   ∧ (params = ∅ ∨ last stored = Some params))
        ∧ ∀ h q, (h, q) ≠ (host, path) → paths_of p' h !! q = paths_of p h !! q)).
Proof.
  assert (∀ (p : Processor) (u : URL),
     let host := BuildHost u in
     let path := Path u in
     let params := paramsToMap (RawQuery u) in
     let keep := (processURL p u).1 in
     let p' := (processURL p u).2 in
     ((applyFilters p path params).1 = false →
        keep = false ∧ urlMap p' = urlMap p ∧ paramsSeen p' = paramsSeen p
        ∧ patternsSeen p' = patternsSeen p)
     ∧ ((applyFilters p path params).1 = true →
        paramsSeen p' = paramsSeen p ∪ dom params)
     ∧ ((applyFilters p path params).1 = true →
        is_Some (paths_of p host !! path) → keep = false →
        urlMap p' = urlMap p ∧ paramsSeen p' = paramsSeen p
        ∧ patternsSeen p' = patternsSeen p)
     ∧ ((applyFilters p path params).1 = true →
        paths_of p host !! path = None → keep = false →
        urlMap p' = with_host host (urlMap p) ∧ patternsSeen p' = patternsSeen p
        ∧ createPattern path ∈ patternsSeen p)
     ∧ (keep = true →
        (∃ stored, paths_of p' host !! path = Some stored
                   ∧ (params = ∅ ∨ last stored = Some params))
        ∧ ∀ h q, (h, q) ≠ (host, path) → paths_of p' h !! q = paths_of p h !! q))
    as Hurl.
  { intros p u host path params keep p'.
    destruct (applyFilters p path params) as [kf pa] eqn:Hfa.
    pose proof (processURL_cases p u kf pa Hfa) as Hc. fold keep p' in Hc.
    pose proof (applyFilters_grows _ _ _ _ _ Hfa) as Hg.
    apply grows_fields in Hg as (_ & Hgu & Hgs & Hgp & _).
    destruct kf; simpl.
    - pose proof (after_filters_paths p pa u keep p' Hc) as Hother.
      destruct Hc as (_ & _ & _ & _ & _ & _ & Hseen & Hc).
      fold host path params in Hseen, Hc, Hother. unfold paths_of in *.
      split_and!; [done|done| | |].
      + intros _ [stored Hst] Hk. rewrite Hst in Hc. destruct Hc as [Hp Hc].
        destruct (bool_decide (dom params ⊆ paramsSeen p)) eqn:Hsub;
          [|destruct Hc; congruence].
        apply bool_decide_eq_true in Hsub.
        destruct (_ && _); destruct Hc as [? Hm]; [|congruence].
        split_and!; [done| |done]. rewrite Hseen. set_solver.
      + intros _ Hnone Hk. rewrite Hnone in Hc.
        destruct (MatchString reInt path); simpl in Hc;
          [|destruct Hc; congruence].
        case_bool_decide; destruct Hc as (? & ? & ?); [done|congruence].
      + intros Hk. split; [|done].
        assert (∀ v, default ∅ (with_path host path v (urlMap p) !! host) !! path
                     = Some v) as Hwith.
        { intros v. unfold with_path. rewrite lookup_insert_eq. simpl.
          by rewrite lookup_insert_eq. }
        destruct (default ∅ (urlMap p !! host) !! path) as [stored|].
        * destruct Hc as [_ Hc]. destruct (_ && _); destruct Hc as [? ->];
            [congruence|]. eexists. split; [apply Hwith|]. right. apply last_snoc.
        * destruct (_ && _); destruct Hc as (? & ? & Hm); [congruence|].
          rewrite Hm. eexists. split; [apply Hwith|].
          case_bool_decide as Hsz; [by right|]. left.
          apply map_size_empty_iff. lia.
    - subst keep p'. rewrite Hc. simpl. split_and!; done. }
  split; [|exact Hurl].
  intros p rawURL keep p'.
  destruct (Process_cases p rawURL) as [(u & _ & Hp)|Hp]; subst keep p'; rewrite Hp.
  - specialize (Hurl p u). cbv zeta in Hurl.
    destruct Hurl as (Hrej & Hseen & Hred & Hpat & _).
    destruct (applyFilters p (Path u) (paramsToMap (RawQuery u))) as [kf pa] eqn:Hfa.
    pose proof (processURL_cases p u kf pa Hfa) as Hc.
    pose proof (applyFilters_grows _ _ _ _ _ Hfa) as Hg.
    apply grows_fields in Hg as (_ & Hgu & Hgs & Hgp & _ & _ & _ & _ & Hpre).
    simpl in *. destruct kf.
    + destruct Hc as (_ & _ & _ & _ & _ & Hcp & _). rewrite Hcp.
      split_and!; [done|rewrite Hseen by done; set_solver|].
      intros Hk. destruct (paths_of p (BuildHost u) !! Path u) eqn:Hst.
      * destruct Hred as (Hm & _ & ?); [done|by eauto|done|].
        split; [done|]. intros host. unfold paths_of. by rewrite Hm.
      * destruct Hpat as (Hm & ? & _); [done..|]. split; [done|].
        intros host. unfold paths_of. rewrite Hm. apply with_host_paths.
    + rewrite Hc. simpl. destruct Hrej as (_ & Hm & Hs & Hpt); [done|].
      rewrite Hc in Hm, Hs, Hpt. simpl in *.
      split_and!; [done|by rewrite Hs|].
      intros _. split; [done|]. intros host. unfold paths_of. by rewrite Hm.
  - simpl. split_and!; done.
Qed.

(** ** Enumerating the store *)

Lemma Results_params_loop (host path : string) (paramsList : list ParamsView)
    (results : list string) :
  foldl (λ (results : list string) (params : ParamsView),
           results ++ [(host +:+ path) +:+ mapToQuery params]) results paramsList
  = results ++ (render <$> ((λ params, (host, path, Some params)) <$> paramsList)).
Proof.
  revert results. induction paramsList as [|params l IH]; intros results; simpl.
  - by rewrite app_nil_r.
  - by rewrite IH, <- app_assoc.
Qed.

Lemma Results_paths_loop (host : string) (paths : PathsView) (results : list string) :
  foldl (λ (results : list string) '(path, paramsList),
           if bool_decide (0 < length paramsList) then
             foldl (λ (results : list string) (params : ParamsView),
                      results ++ [(host +:+ path) +:+ mapToQuery params])
                   results paramsList
           else results ++ [host +:+ path]) results paths
  = results ++ (render <$> (e' ← paths; path_entries host e'.1 e'.2)).
Proof.
  revert results. induction paths as [|[path pl] paths IH]; intros results; simpl.
  - by rewrite app_nil_r.
  - rewrite IH, fmap_app, app_assoc. f_equal. unfold path_entries. simpl.
    case_bool_decide; [apply Results_params_loop|done].
Qed.

Lemma Results_hosts_loop (v : StoreView) (results : list string) :
  foldl (λ (results : list string) '(host, paths),
    foldl (λ (results : list string) '(path, paramsList),
      if bool_decide (0 < length paramsList) then
        foldl (λ (results : list string) (params : ParamsView),
                 results ++ [(host +:+ path) +:+ mapToQuery params])
              results paramsList
      else results ++ [host +:+ path])
    results (paths : PathsView))
  results v
  = results ++ (render <$> view_entries v).
Proof.
  unfold view_entries. revert results.
  induction v as [|[host paths] v IH]; intros results; simpl.
  - by rewrite app_nil_r.
  - by rewrite IH, Results_paths_loop, fmap_app, app_assoc.
Qed.

Lemma Results_on_entries (v : StoreView) :
  Results_on v = render <$> view_entries v.
Proof. apply (Results_hosts_loop v []). Qed.

Lemma Count_paths_loop (paths : PathsView) (host : string) (count : nat) :
  foldl (λ (count : nat) '(_, paramsList),
           if bool_decide (0 < length paramsList) then count + length paramsList
           else count + 1) count paths
  = count + length (e' ← paths; path_entries host e'.1 e'.2).
Proof.
  assert (∀ path (pl : list ParamsView),
            length (path_entries host path pl)
            = if bool_decide (0 < length pl) then length pl else 1) as Hlen.
  { intros path pl. unfold path_entries. case_bool_decide; simpl; by rewrite ?length_fmap. }
  revert count. induction paths as [|[path pl] paths IH]; intros count.
  - simpl. lia.
  - cbn [foldl]. rewrite IH. rewrite bind_cons, length_app, Hlen. simpl.
    case_bool_decide; lia.
Qed.

Lemma Count_hosts_loop (v : StoreView) (count : nat) :
  foldl (λ (count : nat) '(_, paths),
    foldl (λ (count : nat) '(_, paramsList),
      if bool_decide (0 < length paramsList) then count + length paramsList
      else count + 1)
    count (paths : PathsView))
  count v
  = count + length (view_entries v).
Proof.
  unfold view_entries. revert count.
  induction v as [|[host paths] v IH]; intros count.
  - simpl. lia.
  - cbn [foldl]. rewrite IH, (Count_paths_loop paths host), bind_cons, length_app.
    simpl. lia.
Qed.

Lemma Count_on_entries (v : StoreView) :
  Count_on v = length (view_entries v).
Proof. apply (Count_hosts_loop v 0). Qed.

Section WriteFacts.
Context {W : Type} `{Writer W}.

Lemma write_lines_app (l1 l2 : list string) (w : W) :
  write_lines (l1 ++ l2) w =
    match write_lines l1 w with
    | Done w' => write_lines l2 w'
    | Failed w' => Failed w'
    end.
Proof.
  revert w. induction l1 as [|line l1 IH]; intros w; simpl; [done|].
  destruct (Fprintln w line); [apply IH|done].
Qed.

Lemma write_params_lines (host path : string) (paramsList : list ParamsView) (w : W) :
  write_params host path paramsList w
  = write_lines (render <$> ((λ params, (host, path, Some params)) <$> paramsList)) w.
Proof.
  revert w. induction paramsList as [|params l IH]; intros w; simpl; [done|].
  destruct (Fprintln w _); [apply IH|done].
Qed.

Lemma write_paths_lines (host : string) (paths : PathsView) (w : W) :
  write_paths host paths w
  = write_lines (render <$> (e' ← paths; path_entries host e'.1 e'.2)) w.
Proof.
  revert w. induction paths as [|[path pl] paths IH]; intros w; simpl; [done|].
  rewrite fmap_app, write_lines_app. unfold path_entries. simpl.
  case_bool_decide.
  - rewrite write_params_lines. destruct (write_lines _ w); [apply IH|done].
  - simpl. destruct (Fprintln w _); [apply IH|done].
Qed.

(** [WriteResults] writes the strings of [Results] on the same walk, in
    order, and stops at the first write that fails. *)
Lemma WriteResults_on_lines (v : StoreView) (w : W) :
  WriteResults_on v w = write_lines (Results_on v) w.
Proof.
  rewrite Results_on_entries. unfold view_entries.
  revert w. induction v as [|[host paths] v IH]; intros w; simpl; [done|].
  rewrite fmap_app, write_lines_app, write_paths_lines.
  destruct (write_lines _ w); [apply IH|done].
Qed.
End WriteFacts.

Lemma append_assoc (a b c : string) : (a +:+ b) +:+ c = a +:+ (b +:+ c).
Proof.
  induction a as [|x a IH]; [done|].
  change (String x ((a +:+ b) +:+ c) = String x (a +:+ b +:+ c)). by rewrite IH.
Qed.

Lemma write_lines_Buffer (lines : list string) (b : Buffer) :
  write_lines lines b = Done (b +:+ unlines lines).
Proof.
  revert b. induction lines as [|line lines IH]; intros b; simpl.
  - f_equal. induction b as [|x b IHb]; [done|].
    change (String x b = String x (b +:+ "")). by rewrite <- IHb.
  - unfold Fprintln, Write, Buffer_Writer. rewrite IH. by rewrite append_assoc.
Qed.

Lemma range_of_params (params : gmap string string) (v : ParamsView) :
  range_of params v → list_to_map v = params.
Proof.
  unfold range_of. intros Hv.
  rewrite <- (list_to_map_to_list params) at 1.
  symmetry. apply list_to_map_proper; [apply NoDup_fst_map_to_list|done].
Qed.

Lemma path_entries_view (host path : string) (pl : list (gmap string string))
    (plv : list ParamsView) :
  Forall2 range_of pl plv →
  entry_params <$> path_entries host path plv = path_entries host path pl.
Proof.
  intros Hf. unfold path_entries. rewrite <- (Forall2_length _ _ _ Hf).
  case_bool_decide; [|done].
  clear -Hf. induction Hf as [|q qv pl plv Hq _ IH]; [done|].
  rewrite !fmap_cons, IH. unfold entry_params at 1. simpl.
  by rewrite (range_of_params q qv).
Qed.

Lemma fmap_bind_list {A B C} (f : B → C) (g : A → list B) (l : list A) :
  f <$> (l ≫= g) = l ≫= (λ x, f <$> g x).
Proof.
  induction l as [|x l IH]; [done|]. by rewrite !bind_cons, fmap_app, IH.
Qed.

Lemma bind_Forall2_Permutation {A B C} (f : A → list C) (g : B → list C)
    (l : list A) (k : list B) :
  Forall2 (λ a b, g b ≡ₚ f a) l k → k ≫= g ≡ₚ l ≫= f.
Proof.
  induction 1 as [|a b l k Hab _ IH]; simpl; [done|]. by rewrite Hab, IH.
Qed.

Lemma paths_view_entries (host : string)
    (paths : gmap string (list (gmap string string))) (pv : PathsView) :
  paths_view paths pv →
  entry_params <$> (e' ← pv; path_entries host e'.1 e'.2)
  ≡ₚ (e' ← map_to_list paths; path_entries host e'.1 e'.2).
Proof.
  intros (order & Horder & Hf). unfold range_of in Horder. rewrite <- Horder.
  rewrite fmap_bind_list.
  apply bind_Forall2_Permutation.
  eapply Forall2_impl; [exact Hf|]. intros [path pl] [path' plv] [Hp Hpl].
  simpl in *. subst path'. by rewrite (path_entries_view host path pl plv).
Qed.

(** Every walk of the store visits the retained combinations of the store,
    each once. *)
Lemma store_view_entries
    (m : gmap string (gmap string (list (gmap string string)))) (v : StoreView) :
  store_view m v → entry_params <$> view_entries v ≡ₚ store_entries m.
Proof.
  intros (order & Horder & Hf). unfold range_of in Horder.
  unfold store_entries, view_entries. rewrite <- Horder, fmap_bind_list.
  apply bind_Forall2_Permutation.
  eapply Forall2_impl; [exact Hf|]. intros [host paths] [host' pv] [Hh Hpv].
  simpl in *. subst host'. by apply paths_view_entries.
Qed.

(** The store has a walk: the one that follows [map_to_list]. *)
Lemma canonical_view_ok
    (m : gmap string (gmap string (list (gmap string string)))) :
  store_view m (canonical_view m).
Proof.
  exists (map_to_list m). split; [by unfold range_of|]. unfold canonical_view.
  apply Forall2_fmap_r, Forall_Forall2_diag, Forall_forall.
  intros [host paths] _. split; [done|].
  exists (map_to_list paths). split; [by unfold range_of|].
  apply Forall2_fmap_r, Forall_Forall2_diag, Forall_forall.
  intros [path pl] _. split; [done|]. simpl.
  apply Forall2_fmap_r, Forall_Forall2_diag, Forall_forall.
  intros q _. by unfold range_of, compose.
Qed.

(** C10. In every state of the processor the three enumerations agree.
    [Count], [Results] and [WriteResults] each walk the store in an order of
    their own; whatever the three orders, the count is the number of strings
    of [Results], it is the number of retained combinations of the store,
    [Results] and [WriteResults] render the same combinations of host, path
    and parameter set up to the order of the walk, and [WriteResults] puts
    into a buffer the strings that [Results] gives on its walk, one per
    line.  Each of the three has a result in every state. *)
Theorem enumerations_agree (p : Processor) (count : nat) (results : list string)
    (b : Buffer) (r : written Buffer) :
  Count p count → Results p results → WriteResults p b r →
  count = length results
  ∧ count = length (store_entries (urlMap p))
  ∧ (∃ es, results = render <$> es ∧ entry_params <$> es ≡ₚ store_entries (urlMap p))
  ∧ (∃ lines es, r = Done (b +:+ unlines lines) ∧ Results p lines
               ∧ lines = render <$> es
               ∧ entry_params <$> es ≡ₚ store_entries (urlMap p))
  ∧ (∃ count' results' r', Count p count' ∧ Results p results'
                           ∧ WriteResults p b r').
Proof.
  intros (v1 & Hv1 & ->) (v2 & Hv2 & ->) (v3 & Hv3 & ->).
  pose proof (store_view_entries _ _ Hv1) as H1.
  pose proof (store_view_entries _ _ Hv2) as H2.
  pose proof (store_view_entries _ _ Hv3) as H3.
  rewrite Count_on_entries, !Results_on_entries.
  split_and!.
  - rewrite length_fmap. rewrite <- (length_fmap entry_params (view_entries v1)).
    rewrite <- (length_fmap entry_params (view_entries v2)). by rewrite H1, H2.
  - rewrite <- (length_fmap entry_params (view_entries v1)). by rewrite H1.
  - by exists (view_entries v2).
  - exists (Results_on v3), (view_entries v3).
    rewrite WriteResults_on_lines, write_lines_Buffer, Results_on_entries.
    split_and!; try done. exists v3. by rewrite Results_on_entries.
  - pose proof (canonical_view_ok (urlMap p)) as Hc.
    exists (Count_on (canonical_view (urlMap p))),
      (Results_on (canonical_view (urlMap p))),
      (WriteResults_on (canonical_view (urlMap p)) b).
    split_and!; by eexists.
Qed.

(** ** Canonical lines *)

Lemma rune_width_bound (s : string) (w : nat) :
  rune_width s = Some w → 1 ≤ w ∧ w ≤ String.length s.
Proof.
  unfold rune_width. intros Hw.
  repeat case_match; simplify_eq; simpl; lia.
Qed.

(** [rune_width] looks at the bytes of the rune only. *)
Lemma rune_width_agree (c : ascii) (r r' : string) (w : nat) :
  rune_width (String c r) = Some w →
  take_bytes (w - 1) r' = take_bytes (w - 1) r → w - 1 ≤ String.length r' →
  rune_width (String c r') = Some w.
Proof.
  unfold rune_width. intros Hw Ht Hl.
  repeat case_match; simplify_eq; simpl in *; simplify_eq; try done; try lia.
  all: congruence.
Qed.

Lemma to_valid_agree (k : nat) (s : string) :
  k ≤ String.length s →
  take_bytes k (to_valid k s) = take_bytes k s ∧ k ≤ String.length (to_valid k s).
Proof.
  revert k. induction s as [|c s IH]; intros k Hk; simpl in *.
  - by destruct k.
  - destruct k as [|k]; [split; [done|lia]|].
    simpl. destruct (IH k) as [-> ?]; [lia|]. split; [done|lia].
Qed.

Lemma to_valid_valid (k : nat) (s : string) :
  k ≤ String.length s → valid_from k (to_valid k s) = true.
Proof.
  revert k. induction s as [|c s IH]; intros k Hk; simpl in *.
  - destruct k; [done|lia].
  - destruct k as [|k]; simpl; [|apply IH; lia].
    destruct (rune_width (String c s)) as [w|] eqn:Hw; [|by apply IH; lia].
    pose proof (rune_width_bound _ _ Hw) as [? Hb]. simpl in Hb.
    destruct (to_valid_agree (w - 1) s) as [Ht Hl]; [lia|].
    change (valid_from 0 (String c (to_valid (w - 1) s)) = true).
    unfold valid_from; fold valid_from.
    rewrite (rune_width_agree c s _ w Hw Ht Hl). apply IH. lia.
Qed.

Lemma valid_to_valid (k : nat) (s : string) :
  valid_from k s = true → to_valid k s = s.
Proof.
  revert k. induction s as [|c s IH]; intros k Hv; simpl in *; [done|].
  destruct k as [|k]; [|by rewrite IH].
  destruct (rune_width (String c s)); [by rewrite IH|done].
Qed.

Lemma to_valid_sublist (k : nat) (s : string) :
  sublist (list_ascii_of_string (to_valid k s)) (list_ascii_of_string s).
Proof.
  revert k. induction s as [|c s IH]; intros k; simpl; [done|].
  destruct k as [|k]; [|by apply sublist_skip].
  destruct (rune_width (String c s)); [by apply sublist_skip|by apply sublist_cons].
Qed.

Lemma space_width_bound (s : string) (w : nat) :
  space_width s = Some w → 1 ≤ w ∧ w ≤ String.length s.
Proof.
  unfold space_width. intros Hw.
  repeat case_match; simplify_eq; simpl; lia.
Qed.

Lemma space_width_back_bound (s : string) (w : nat) :
  space_width_back s = Some w → 1 ≤ w ∧ w ≤ String.length s.
Proof.
  unfold space_width_back. intros Hw.
  repeat case_match; simplify_eq; simpl; lia.
Qed.

Lemma drop_bytes_length (n : nat) (s : string) :
  String.length (drop_bytes n s) = String.length s - n.
Proof.
  revert n. induction s as [|c s IH]; intros [|n]; simpl; auto.
Qed.

Lemma trim_front_skip (width : string → option nat) (k : nat) (s : string) :
  k ≤ String.length s →
  trim_front width k s = trim_front width 0 (drop_bytes k s).
Proof.
  revert k. induction s as [|c s IH]; intros [|k] Hk; simpl in *; try done; try lia.
  apply IH. lia.
Qed.

Lemma trim_front_strips (width : string → option nat) (s : string) :
  (∀ s w, width s = Some w → 1 ≤ w ∧ w ≤ String.length s) →
  strips width s (trim_front width 0 s).
Proof.
  intros Hb. remember (String.length s) as n eqn:Hn. revert s Hn.
  induction n as [n IH] using lt_wf_ind. intros s ->.
  destruct s as [|c s].
  - apply strips_done. destruct (width "") as [w|] eqn:Hw; [|done].
    apply Hb in Hw. simpl in Hw. lia.
  - cbn [trim_front]. destruct (width (String c s)) as [w|] eqn:Hw.
    + pose proof (Hb _ _ Hw) as [H1 H2]. simpl in H2.
      rewrite trim_front_skip by lia.
      eapply strips_rune; [done|].
      replace (drop_bytes w (String c s)) with (drop_bytes (w - 1) s)
        by (destruct w; [lia|]; simpl; f_equal; lia).
      eapply IH; [|done]. rewrite drop_bytes_length. simpl. lia.
    + by apply strips_done.
Qed.

Lemma rev_onto_app (s acc : string) :
  rev_onto s acc = reverse_bytes s +:+ acc.
Proof.
  unfold reverse_bytes. revert acc. induction s as [|c s IH]; intros acc; simpl; [done|].
  rewrite IH, (IH (String c "")). by rewrite append_assoc.
Qed.

Lemma reverse_bytes_involutive (s : string) :
  reverse_bytes (reverse_bytes s) = s.
Proof.
  assert (∀ s acc, reverse_bytes (rev_onto s acc) = rev_onto acc s) as H.
  { clear. intros s. induction s as [|c s IH]; intros acc; simpl; [done|].
    by rewrite IH. }
  unfold reverse_bytes at 2. by rewrite H.
Qed.

(** The white-space rune that [space_width_back] finds at the end of a text
    is one that [space_width] finds, and the other way round. *)
Ltac bytes_contra :=
  exfalso; unfold is_byte, byte_in in *;
  repeat match goal with
  | H : _ && _ = true |- _ => apply andb_true_iff in H
  | H : _ || _ = true |- _ => apply orb_true_iff in H
  | H : _ && _ = false |- _ => apply andb_false_iff in H
  | H : _ || _ = false |- _ => apply orb_false_iff in H
  | H : _ ∧ _ |- _ => destruct H
  | H : _ ∨ _ |- _ => destruct H
  | H : (_ =? _)%N = true |- _ => apply N.eqb_eq in H
  | H : (_ =? _)%N = false |- _ => apply N.eqb_neq in H
  | H : (_ <=? _)%N = true |- _ => apply N.leb_le in H
  | H : (_ <=? _)%N = false |- _ => apply N.leb_gt in H
  end; lia.

Lemma space_width_back_mirror (rs : string) (w : nat) :
  space_width_back rs = Some w →
  space_width (reverse_bytes (take_bytes w rs)) = Some w.
Proof.
  unfold space_width_back, space_width. intros Hw.
  repeat case_match; simplify_eq; try done.
  all: try (cbn in *; simplify_eq; repeat case_match; simplify_eq; try done; try congruence).
  all: bytes_contra.
Qed.

Lemma space_width_mirror (s t : string) (w : nat) :
  space_width s = Some w → String.length s = w →
  space_width_back (reverse_bytes s +:+ t) = Some w.
Proof.
  intros Hw Hl. subst w.
  destruct s as [|c0 [|c1 [|c2 [|c3 s]]]]; unfold space_width in Hw;
    repeat case_match; simplify_eq; cbn in *; simplify_eq.
  all: repeat change (String ?a ?b +:+ t) with (String a (b +:+ t)).
  all: change ("" +:+ t) with t.
  all: unfold space_width_back; repeat case_match; simplify_eq; try done.
  all: bytes_contra.
Qed.

Lemma take_drop_bytes (n : nat) (s : string) :
  take_bytes n s +:+ drop_bytes n s = s.
Proof.
  revert n. induction s as [|c s IH]; intros [|n]; try done.
  change (String c (take_bytes n s +:+ drop_bytes n s) = String c s). by rewrite IH.
Qed.

Lemma append_empty_r (s : string) : s +:+ "" = s.
Proof.
  induction s as [|c s IH]; [done|]. change (String c (s +:+ "") = String c s).
  by rewrite IH.
Qed.

Lemma append_length (a b : string) :
  String.length (a +:+ b) = String.length a + String.length b.
Proof.
  induction a as [|c a IH]; [done|].
  change (S (String.length (a +:+ b)) = S (String.length a + String.length b)).
  by rewrite IH.
Qed.

Lemma reverse_bytes_app (a b : string) :
  reverse_bytes (a +:+ b) = reverse_bytes b +:+ reverse_bytes a.
Proof.
  induction a as [|c a IH].
  - change ("" +:+ b) with b. by rewrite append_empty_r.
  - change (String c a +:+ b) with (String c (a +:+ b)).
    unfold reverse_bytes at 1 3. simpl. rewrite !rev_onto_app, IH.
    by rewrite append_assoc.
Qed.

Lemma reverse_bytes_length (s : string) :
  String.length (reverse_bytes s) = String.length s.
Proof.
  induction s as [|c s IH]; [done|]. unfold reverse_bytes. simpl.
  rewrite rev_onto_app, append_length, IH. simpl. lia.
Qed.

Lemma take_bytes_length (n : nat) (s : string) :
  n ≤ String.length s → String.length (take_bytes n s) = n.
Proof.
  revert n. induction s as [|c s IH]; intros [|n] Hn; simpl in *; try done; try lia.
  rewrite IH; lia.
Qed.

Lemma space_width_take (s : string) (w : nat) :
  space_width s = Some w →
  space_width (take_bytes w s) = Some w ∧ String.length (take_bytes w s) = w.
Proof.
  unfold space_width. intros Hw.
  repeat case_match; simplify_eq; cbn in *; simplify_eq; try done.
  all: repeat case_match; simplify_eq; try done; try congruence.
Qed.

Lemma space_width_extend (s t : string) (w : nat) :
  space_width s = Some w → space_width (s +:+ t) = Some w.
Proof.
  intros Hw. destruct s as [|c0 [|c1 [|c2 s]]]; unfold space_width in *;
    repeat change (String ?a ?b +:+ t) with (String a (b +:+ t));
    repeat case_match; simplify_eq; try done; try congruence.
Qed.

Lemma white_app (a b : string) : white a → white b → white (a +:+ b).
Proof.
  induction 1 as [|rune rest Hr _ IH]; intros Hb; [done|].
  rewrite append_assoc. apply white_cons; [done|by apply IH].
Qed.

Lemma strips_end (width : string → option nat) (s rest : string) :
  strips width s rest → width rest = None.
Proof. by induction 1. Qed.

Lemma strips_front (s rest : string) :
  strips space_width s rest → ∃ front, s = front +:+ rest ∧ white front.
Proof.
  induction 1 as [s _|s w rest Hw _ (front & Hf & Hwhite)].
  - exists "". split; [done|constructor].
  - exists (take_bytes w s +:+ front). rewrite append_assoc, <- Hf, take_drop_bytes.
    split; [done|]. apply space_width_take in Hw as [Hw Hl].
    apply white_cons; [by rewrite Hl|done].
Qed.

Lemma strips_back (rs rest : string) :
  strips space_width_back rs rest →
  ∃ back, rs = back +:+ rest ∧ white (reverse_bytes back).
Proof.
  induction 1 as [s _|s w rest Hw _ (back & Hb & Hwhite)].
  - exists "". split; [done|constructor].
  - exists (take_bytes w s +:+ back). rewrite append_assoc, <- Hb, take_drop_bytes.
    split; [done|]. rewrite reverse_bytes_app. apply white_app; [done|].
    pose proof (space_width_back_bound _ _ Hw) as [_ Hl].
    apply space_width_back_mirror in Hw.
    rewrite <- (append_empty_r (reverse_bytes _)).
    apply white_cons; [|constructor]. rewrite Hw. f_equal.
    by rewrite reverse_bytes_length, take_bytes_length.
Qed.

(** [strings.TrimSpace]: the text is some white space, the result, and some
    white space, and the result neither starts nor ends with white space. *)
Lemma TrimSpace_spec (s : string) :
  ∃ front back,
    s = front +:+ TrimSpace s +:+ back ∧ white front ∧ white back
    ∧ space_width (TrimSpace s) = None
    ∧ space_width_back (reverse_bytes (TrimSpace s)) = None.
Proof.
  pose proof (trim_front_strips space_width s space_width_bound) as Hfront.
  set (mid := trim_front space_width 0 s) in *.
  pose proof (trim_front_strips space_width_back (reverse_bytes mid)
                space_width_back_bound) as Hback.
  assert (reverse_bytes (TrimSpace s)
          = trim_front space_width_back 0 (reverse_bytes mid)) as Hrev
    by apply reverse_bytes_involutive.
  rewrite <- Hrev in Hback.
  destruct (strips_front _ _ Hfront) as (front & Hs & Hwf).
  destruct (strips_back _ _ Hback) as (back & Hm & Hwb).
  assert (mid = TrimSpace s +:+ reverse_bytes back) as Hmid.
  { rewrite <- (reverse_bytes_involutive mid), Hm, reverse_bytes_app.
    by rewrite reverse_bytes_involutive. }
  exists front, (reverse_bytes back). split_and!; try done.
  - by rewrite <- Hmid.
  - destruct (space_width (TrimSpace s)) as [w|] eqn:Hw; [|done].
    apply (space_width_extend _ (reverse_bytes back)) in Hw.
    rewrite <- Hmid in Hw. apply strips_end in Hfront. congruence.
  - by apply strips_end in Hback.
Qed.

Lemma TrimSuffix_slash_spec (s : string) :
  TrimSuffix_slash (s +:+ "/") = s
  ∧ ((∀ s', s ≠ s' +:+ "/") → TrimSuffix_slash s = s).
Proof.
  split.
  - induction s as [|c s IH]; [done|].
    change (String c s +:+ "/") with (String c (s +:+ "/")).
    simpl. rewrite IH. by destruct s.
  - induction s as [|c s IH]; intros Hno; [done|]. simpl.
    destruct s as [|c' s].
    + destruct (decide (c = "/"%char)) as [->|]; [|done]. by destruct (Hno "").
    + rewrite IH; [done|]. intros s' Hs'. apply (Hno (String c s')).
      by rewrite Hs'.
Qed.

(** C9. The canonical form of a line is the line without the bytes that
    start no valid UTF-8 sequence (they are dropped, nothing stands in for
    them, and valid text is left as it is), without the white space around
    it, and, unless the trailing slash is to be kept, without one trailing
    slash.  A processor that does not keep the slash treats [http://h/a/] as
    it treats [http://h/a]; the one that keeps it stores the paths [/a/] and
    [/a] of the two lines side by side. *)
Theorem canonical_line :
  (∀ keepSlash rawURL,
     canonical keepSlash rawURL
     = let trimmed := TrimSpace (ToValidUTF8_empty rawURL) in
       if keepSlash then trimmed else TrimSuffix_slash trimmed)
  ∧ (∀ s, ValidString (ToValidUTF8_empty s) = true
          ∧ sublist (list_ascii_of_string (ToValidUTF8_empty s))
                    (list_ascii_of_string s)
          ∧ (ValidString s = true → ToValidUTF8_empty s = s))
  ∧ (∀ s, ∃ front back,
          s = front +:+ TrimSpace s +:+ back ∧ white front ∧ white back
          ∧ space_width (TrimSpace s) = None
          ∧ space_width_back (reverse_bytes (TrimSpace s)) = None)
  ∧ (∀ s, TrimSuffix_slash (s +:+ "/") = s
          ∧ ((∀ s', s ≠ s' +:+ "/") → TrimSuffix_slash s = s))
  ∧ (∀ p, keepSlash p = false → Process p "http://h/a/" = Process p "http://h/a")
  ∧ (url_Parse "http://h/a/" = Some (mkURL "http" "h" "/a/" "") →
     url_Parse "http://h/a" = Some (mkURL "http" "h" "/a" "") →
     let r := Process_all NewProcessor_keepSlash ["http://h/a/"; "http://h/a"] in
     r.1 = [true; true]
     ∧ paths_of r.2 "http://h" !! "/a/" = Some []
     ∧ paths_of r.2 "http://h" !! "/a" = Some []).
Proof.
  split_and!.
  - by intros [] rawURL.
  - intros s. split_and!.
    + apply (to_valid_valid 0). lia.
    + apply to_valid_sublist.
    + apply valid_to_valid.
  - apply TrimSpace_spec.
  - apply TrimSuffix_slash_spec.
  - intros p Hk. unfold Process. rewrite Hk.
    by replace (canonical false "http://h/a/") with (canonical false "http://h/a")
      by by vm_compute.
  - intros H1 H2. cbv zeta.
    process_line H1. process_line H2. by vm_compute.
Qed.

(** * Further properties of the code *)

(** ** What processing keeps *)

Lemma processURL_keeps (p : Processor) (u : URL) :
  let p' := (processURL p u).2 in
  contentPrefixes p `prefix_of` contentPrefixes p'
  ∧ paramsSeen p ⊆ paramsSeen p' ∧ patternsSeen p ⊆ patternsSeen p'
  ∧ ∀ host path stored, paths_of p host !! path = Some stored →
      ∃ more, paths_of p' host !! path = Some (stored ++ more) ∧ length more ≤ 1.
Proof.
  cbv zeta.
  destruct (applyFilters p (Path u) (paramsToMap (RawQuery u))) as [kf pa] eqn:Hfa.
  pose proof (processURL_cases p u kf pa Hfa) as Hc.
  apply applyFilters_grows, grows_fields in Hfa
    as (_ & Hgu & Hgs & Hgp & _ & _ & _ & _ & Hpre).
  destruct kf.
  - pose proof (after_filters_paths _ _ _ _ _ Hc) as Hother.
    destruct Hc as (_ & _ & _ & _ & _ & Hcp & Hseen & Hc). rewrite Hcp, Hseen.
    split_and!; [done|set_solver| |].
    + destruct (default ∅ (urlMap p !! BuildHost u) !! Path u).
      * destruct Hc as [-> _]. done.
      * destruct (_ && _); destruct Hc as (_ & -> & _); [done|].
        case_match; set_solver.
    + intros host path stored Hst.
      destruct (decide ((host, path) = (BuildHost u, Path u))) as [[= -> ->]|Hne];
        [|exists []; rewrite app_nil_r, (Hother _ _ Hne); split; [done|simpl; lia]].
      unfold paths_of in *. rewrite Hst in Hc. destruct Hc as [_ Hc].
      destruct (_ && _); destruct Hc as [_ ->].
      * exists []. rewrite app_nil_r. split; [done|simpl; lia].
      * exists [paramsToMap (RawQuery u)]. split; [|done].
        unfold with_path. rewrite lookup_insert_eq. simpl. by rewrite lookup_insert_eq.
  - rewrite Hc. simpl. split_and!; [done|set_solver|set_solver|].
    intros host path stored Hst. exists []. unfold paths_of in *.
    rewrite app_nil_r, Hgu. split; [done|simpl; lia].
Qed.

Lemma Process_keeps (p : Processor) (line : string) :
  let p' := (Process p line).2 in
  (opts p' = opts p ∧ extList p' = extList p ∧ filters p' = filters p
   ∧ strict p' = strict p ∧ keepSlash p' = keepSlash p)
  ∧ contentPrefixes p `prefix_of` contentPrefixes p'
  ∧ paramsSeen p ⊆ paramsSeen p' ∧ patternsSeen p ⊆ patternsSeen p'
  ∧ ∀ host path stored, paths_of p host !! path = Some stored →
      ∃ more, paths_of p' host !! path = Some (stored ++ more) ∧ length more ≤ 1.
Proof.
  cbv zeta. destruct (Process_cases p line) as [(u & _ & ->) | ->].
  - split; [apply processURL_config|apply processURL_keeps].
  - simpl. split_and!; try done. intros host path stored Hst. exists [].
    rewrite app_nil_r. split; [done|simpl; lia].
Qed.

Lemma Process_all_keeps (p : Processor) (lines : list string) :
  let p' := (Process_all p lines).2 in
  (opts p' = opts p ∧ extList p' = extList p ∧ filters p' = filters p
   ∧ strict p' = strict p ∧ keepSlash p' = keepSlash p)
  ∧ contentPrefixes p `prefix_of` contentPrefixes p'
  ∧ paramsSeen p ⊆ paramsSeen p' ∧ patternsSeen p ⊆ patternsSeen p'
  ∧ ∀ host path stored, paths_of p host !! path = Some stored →
      ∃ more, paths_of p' host !! path = Some (stored ++ more)
              ∧ length more ≤ length lines.
Proof.
  cbv zeta. revert p. induction lines as [|line lines IH]; intros p; simpl.
  - split_and!; try done. intros host path stored Hst. exists [].
    rewrite app_nil_r. split; [done|simpl; lia].
  - pose proof (Process_keeps p line) as Hstep.
    destruct (Process p line) as [kept p1]. specialize (IH p1).
    destruct (Process_all p1 lines) as [answers p2]. simpl in *.
    destruct Hstep as ((Ho & He & Hf & Hs & Hk) & Hcp & Hps & Hpt & Hst).
    destruct IH as ((Ho' & He' & Hf' & Hs' & Hk') & Hcp' & Hps' & Hpt' & Hst').
    split_and!; try congruence; try (by etrans).
    intros host path stored Hl.
    destruct (Hst _ _ _ Hl) as (more & Hl1 & Hlen).
    destruct (Hst' _ _ _ Hl1) as (more' & Hl2 & Hlen').
    exists (more ++ more'). rewrite app_assoc, length_app. split; [done|lia].
Qed.

(** X1. Processing never removes or changes what is stored.  Whatever lines
    a processor takes, its options and filters stay as they are, the prefix
    cache is only appended to, the two sets only grow, and the list of
    parameter sets of every stored host and path is only appended to, by at
    most one parameter set a line. *)
Theorem processing_only_adds (p : Processor) (lines : list string)
    (host path : string) (stored : list (gmap string string)) :
  paths_of p host !! path = Some stored →
  let p' := (Process_all p lines).2 in
  (∃ more, paths_of p' host !! path = Some (stored ++ more)
           ∧ length more ≤ length lines)
  ∧ contentPrefixes p `prefix_of` contentPrefixes p'
  ∧ paramsSeen p ⊆ paramsSeen p' ∧ patternsSeen p ⊆ patternsSeen p'
  ∧ opts p' = opts p ∧ extList p' = extList p ∧ filters p' = filters p
  ∧ strict p' = strict p ∧ keepSlash p' = keepSlash p.
Proof.
  intros Hst p'.
  destruct (Process_all_keeps p lines) as ((? & ? & ? & ? & ?) & ? & ? & ? & Hall).
  split_and!; try done. by apply Hall.
Qed.

(** ** Extensions *)

Lemma LastIndex_range (s : string) (sep : ascii) :
  (-1 ≤ LastIndex s sep < Z.of_nat (String.length s))%Z.
Proof.
  induction s as [|c s IH]; simpl; [lia|].
  destruct (0 <=? LastIndex s sep)%Z; [lia|]. case_decide; lia.
Qed.

Lemma Contains_LastIndex (s : string) (sep : ascii) :
  Contains s sep = (0 <=? LastIndex s sep)%Z.
Proof.
  induction s as [|c s IH]; simpl; [done|]. rewrite IH.
  pose proof (LastIndex_range s sep).
  destruct (0 <=? LastIndex s sep)%Z eqn:Hi.
  - rewrite orb_true_r. symmetry. apply Z.leb_le. apply Z.leb_le in Hi. lia.
  - rewrite orb_false_r.
    case_decide; [by rewrite bool_decide_eq_true_2|by rewrite bool_decide_eq_false_2].
Qed.

Lemma getExtension_none (path : string) :
  hasExtension path = false → getExtension path = "".
Proof.
  unfold hasExtension, getExtension. cbv zeta. rewrite Contains_LastIndex.
  intros Hno. apply Z.leb_gt in Hno. by rewrite (proj2 (Z.ltb_lt _ _) Hno).
Qed.

(** ** The filter chain *)

Lemma applyFilter_stateless (p : Processor) (name path : string)
    (params : gmap string string) :
  name ≠ "removecontent" →
  (applyFilter p name path params).2 = p
  ∧ ∀ cp, (applyFilter (set_contentPrefixes cp p) name path params).1
          = (applyFilter p name path params).1.
Proof. intros Hn. unfold applyFilter. by repeat case_decide. Qed.

Lemma chain_rejects (fs : list string) (p : Processor) (name path : string)
    (params : gmap string string) :
  name ∈ fs → name ≠ "removecontent" →
  (applyFilter p name path params).1 = false →
  (applyFilters_loop fs p path params).1 = false.
Proof.
  intros Hin Hn. revert p. induction fs as [|f fs IH]; intros p Hrej.
  - by apply elem_of_nil in Hin.
  - simpl. destruct (applyFilter p f path params) as [k p1] eqn:Hf.
    destruct k; [|done].
    apply elem_of_cons in Hin as [->|Hin]; [by rewrite Hf in Hrej|].
    apply IH; [done|].
    apply applyFilter_grows in Hf as [added ->].
    by rewrite (proj2 (applyFilter_stateless p name path params Hn)).
Qed.

Lemma chain_prefix_rejects (fs : list string) (p : Processor) (path prefix : string)
    (params : gmap string string) :
  "removecontent" ∈ fs → prefix ∈ contentPrefixes p →
  HasPrefix path prefix = true →
  (applyFilters_loop fs p path params).1 = false.
Proof.
  intros Hin. revert p. induction fs as [|f fs IH]; intros p Hpre Hhas.
  - by apply elem_of_nil in Hin.
  - simpl. destruct (applyFilter p f path params) as [k p1] eqn:Hf.
    destruct k; [|done].
    apply elem_of_cons in Hin as [<-|Hin].
    + exfalso. unfold applyFilter in Hf. simpl in Hf. unfold checkContent in Hf.
      destruct (existsb _ (Split path "/")); [done|].
      rewrite (proj2 (existsb_Exists _ _)) in Hf; [done|].
      apply Exists_exists. eauto.
    + apply IH; [done| |done].
      apply applyFilter_grows in Hf as [added ->]. simpl.
      apply elem_of_app. by left.
Qed.

(** X2. The filter chain is a conjunction with a short cut.  Once a filter
    of the chain has rejected, the filters after it are not run and change
    nothing; and a chain without the content filter answers the conjunction
    of its filters and leaves the processor as it is. *)
Theorem filter_chain_conjunction (fs more : list string) (p : Processor)
    (path : string) (params : gmap string string) :
  ((applyFilters_loop fs p path params).1 = false →
     applyFilters_loop (fs ++ more) p path params
     = applyFilters_loop fs p path params)
  ∧ ("removecontent" ∉ fs →
     applyFilters_loop fs p path params
     = (forallb (λ name, (applyFilter p name path params).1) fs, p)).
Proof.
  split.
  - revert p. induction fs as [|f fs IH]; intros p; simpl; [done|].
    destruct (applyFilter p f path params) as [k p1]. destruct k; [apply IH|done].
  - induction fs as [|f fs IH]; intros Hno; simpl; [done|].
    apply not_elem_of_cons in Hno as [Hf Hno].
    pose proof (applyFilter_stateless p f path params (not_eq_sym Hf)) as [Hp _].
    destruct (applyFilter p f path params) as [k p1]. simpl in *. subst p1.
    destruct k; [by apply IH|done].
Qed.

(** X3. A URL that one of the active filters other than the content filter
    rejects is not kept, whatever the other filters and the state of the
    prefix cache, and the store stays as it is. *)
Theorem rejected_by_one_filter (p : Processor) (u : URL) (name : string) :
  name ∈ filters p → name ≠ "removecontent" →
  (applyFilter p name (Path u) (paramsToMap (RawQuery u))).1 = false →
  (processURL p u).1 = false
  ∧ urlMap (processURL p u).2 = urlMap p
  ∧ paramsSeen (processURL p u).2 = paramsSeen p
  ∧ patternsSeen (processURL p u).2 = patternsSeen p.
Proof.
  intros Hin Hn Hrej.
  pose proof (chain_rejects (filters p) p name _ _ Hin Hn Hrej) as Hchain.
  fold (applyFilters p (Path u) (paramsToMap (RawQuery u))) in Hchain.
  destruct (applyFilters p (Path u) (paramsToMap (RawQuery u))) as [kf pa] eqn:Hfa.
  simpl in Hchain. subst kf.
  rewrite (processURL_cases p u false pa Hfa). simpl.
  by apply applyFilters_grows, grows_fields in Hfa as (_ & -> & -> & -> & _).
Qed.

(** X4. Filters that exclude each other drop every URL: [hasparams] with
    [noparams], [hasext] with [noext], and, in strict mode, the white list
    with [noext]. *)
Theorem contradictory_filters (p : Processor) (u : URL) :
  ("hasparams" ∈ filters p ∧ "noparams" ∈ filters p)
  ∨ ("hasext" ∈ filters p ∧ "noext" ∈ filters p)
  ∨ ("whitelist" ∈ filters p ∧ "noext" ∈ filters p ∧ strict p = true) →
  (processURL p u).1 = false.
Proof.
  set (path := Path u). set (params := paramsToMap (RawQuery u)).
  assert (∀ name, name ∈ filters p → name ≠ "removecontent" →
            (applyFilter p name path params).1 = false →
            (processURL p u).1 = false) as Hone.
  { intros name Hin Hn Hrej.
    pose proof (chain_rejects (filters p) p name _ _ Hin Hn Hrej) as Hchain.
    fold (applyFilters p path params) in Hchain.
    destruct (applyFilters p path params) as [kf pa] eqn:Hfa.
    simpl in Hchain. subst kf. by rewrite (processURL_cases p u false pa Hfa). }
  intros [[H1 H2]|[[H1 H2]|(H1 & H2 & Hs)]].
  - destruct (decide (size params = 0)) as [H0|H0].
    + apply (Hone "hasparams"); [done..|].
      change (bool_decide (0 < size params) = false).
      apply bool_decide_eq_false. lia.
    + apply (Hone "noparams"); [done..|].
      change (bool_decide (size params = 0) = false).
      by apply bool_decide_eq_false.
  - destruct (hasExtension path) eqn:He.
    + apply (Hone "noext"); [done..|].
      change (negb (hasExtension path) = false). by rewrite He.
    + by apply (Hone "hasext").
  - destruct (hasExtension path) eqn:He.
    + apply (Hone "noext"); [done..|].
      change (negb (hasExtension path) = false). by rewrite He.
    + apply (Hone "whitelist"); [done..|].
      change (checkWhitelist p path = false). unfold checkWhitelist.
      by rewrite (getExtension_none _ He), Hs.
Qed.

(** X5. A cached content prefix locks its paths out.  With the content
    filter active, a URL whose path starts with a cached prefix is not kept,
    and it is not kept after any further lines either: the cache is only
    appended to. *)
Theorem cached_prefix_locks (p : Processor) (u : URL) (prefix : string)
    (lines : list string) :
  "removecontent" ∈ filters p → prefix ∈ contentPrefixes p →
  HasPrefix (Path u) prefix = true →
  (processURL (Process_all p lines).2 u).1 = false.
Proof.
  intros Hin Hpre Hhas.
  destruct (Process_all_keeps p lines)
    as ((_ & _ & Hf & _ & _) & [added Hcp] & _).
  set (p' := (Process_all p lines).2) in *.
  assert ((applyFilters p' (Path u) (paramsToMap (RawQuery u))).1 = false) as Hchain.
  { apply (chain_prefix_rejects _ _ _ prefix); [by rewrite Hf| |done].
    rewrite Hcp. apply elem_of_app. by left. }
  destruct (applyFilters p' (Path u) (paramsToMap (RawQuery u))) as [kf pa] eqn:Hfa.
  simpl in Hchain. subst kf. by rewrite (processURL_cases p' u false pa Hfa).
Qed.

(** ** The stores that processing reaches *)

Lemma with_path_lookup (host path : string) (v : list (gmap string string))
    (m : gmap string (gmap string (list (gmap string string)))) (h pa : string) :
  default ∅ (with_path host path v m !! h) !! pa
  = if decide ((h, pa) = (host, path)) then Some v else default ∅ (m !! h) !! pa.
Proof.
  unfold with_path. case_decide as Heq.
  - injection Heq as -> ->. rewrite lookup_insert_eq. simpl. by rewrite lookup_insert_eq.
  - destruct (decide (host = h)) as [<-|Hh].
    + rewrite lookup_insert_eq. simpl. rewrite lookup_insert_ne; [done|congruence].
    + by rewrite lookup_insert_ne.
Qed.

Lemma with_host_lookup (host : string)
    (m : gmap string (gmap string (list (gmap string string)))) (h pa : string) :
  default ∅ (with_host host m !! h) !! pa = default ∅ (m !! h) !! pa.
Proof.
  unfold with_host. destruct (m !! host) eqn:Hm; [done|].
  destruct (decide (host = h)) as [<-|Hh].
  - by rewrite lookup_insert_eq, Hm.
  - by rewrite lookup_insert_ne.
Qed.

(** What one URL does to the store, path by path. *)
Lemma processURL_step (p : Processor) (u : URL) :
  let host := BuildHost u in
  let path := Path u in
  let params := paramsToMap (RawQuery u) in
  let keep := (processURL p u).1 in
  let p' := (processURL p u).2 in
  paramsSeen p ⊆ paramsSeen p' ∧ patternsSeen p ⊆ patternsSeen p'
  ∧ (∀ h pa, (h, pa) ≠ (host, path) → paths_of p' h !! pa = paths_of p h !! pa)
  ∧ (keep = false → paths_of p' host !! path = paths_of p host !! path)
  ∧ (keep = true →
     dom params ⊆ paramsSeen p' ∧
     match paths_of p host !! path with
     | None =>
         paths_of p' host !! path
         = Some (if bool_decide (0 < size params) then [params] else [])
         ∧ (MatchString reInt path = true →
            (createPattern path ∉ patternsSeen p) ∧ createPattern path ∈ patternsSeen p')
     | Some stored =>
         paths_of p' host !! path = Some (stored ++ [params])
         ∧ patternsSeen p' = patternsSeen p
         ∧ (¬ (dom params ⊆ paramsSeen p)
            ∨ (0 < size params ∧ compareParams stored params = true))
     end).
Proof.
  cbv zeta.
  destruct (applyFilters p (Path u) (paramsToMap (RawQuery u))) as [kf pa] eqn:Hfa.
  pose proof (processURL_cases p u kf pa Hfa) as Hc.
  apply applyFilters_grows, grows_fields in Hfa
    as (_ & Hgu & Hgs & Hgp & _ & _ & _ & _ & _).
  destruct (processURL p u) as [keep p'] eqn:Hr. cbn [fst snd] in Hc |- *.
  destruct kf.
  - pose proof (after_filters_paths _ _ _ _ _ Hc) as Hother.
    destruct Hc as (_ & _ & _ & _ & _ & _ & Hseen & Hc).
    unfold paths_of in Hother |- *. rewrite Hseen.
    destruct (default ∅ (urlMap p !! BuildHost u) !! Path u) as [stored|] eqn:Hst.
    + destruct Hc as [Hpat Hc]. rewrite Hpat.
      destruct (bool_decide (dom (paramsToMap (RawQuery u)) ⊆ paramsSeen p) && _)
        eqn:Hcond; destruct Hc as [-> Hu].
      * split_and!; [apply union_subseteq_l|done|exact Hother|by rewrite Hu, Hst|done].
      * split_and!; [apply union_subseteq_l|done|exact Hother|done|].
        intros _. split; [apply union_subseteq_r|]. rewrite Hu, with_path_lookup.
        rewrite decide_True by done. split_and!; [done..|].
        apply andb_false_iff in Hcond as [Hc1|Hc2].
        -- left. by apply bool_decide_eq_false in Hc1.
        -- right. apply negb_false_iff, andb_true_iff in Hc2 as [Hc2 Hc3].
           split; [by apply bool_decide_eq_true in Hc2|done].
    + destruct (MatchString reInt (Path u)) eqn:Hm; cbn [andb] in Hc.
      * case_bool_decide as Hpattern; destruct Hc as (-> & Hpat & Hu); rewrite Hpat.
        -- split_and!; [apply union_subseteq_l|done|exact Hother| |done].
           intros _. by rewrite Hu, with_host_lookup.
        -- split_and!; [apply union_subseteq_l|apply union_subseteq_r
                       |exact Hother|done|].
           intros _. split; [apply union_subseteq_r|]. rewrite Hu, with_path_lookup.
           rewrite decide_True by done. split; [done|].
           intros _. split; [done|]. apply elem_of_union. left.
           by apply elem_of_singleton.
      * destruct Hc as (-> & Hpat & Hu); rewrite Hpat.
        split_and!; [apply union_subseteq_l|done|exact Hother|done|].
        intros _. split; [apply union_subseteq_r|]. rewrite Hu, with_path_lookup.
        rewrite decide_True by done. by split.
  - injection Hc as -> ->. unfold paths_of. rewrite Hgu, Hgs, Hgp. by split_and!.
Qed.

Lemma params_ok_step (p : Processor) (u : URL) :
  params_ok p → params_ok (processURL p u).2.
Proof.
  intros Hok host path stored before params after Hst ->.
  destruct (processURL_step p u) as (Hps & _ & Hother & Hskip & Hkeep).
  assert (∀ old rest, paths_of p host !! path = Some old →
            old = before ++ params :: rest →
            dom params ⊆ paramsSeen (processURL p u).2
            ∧ compareParams before params = true) as Hsame.
  { intros old rest Hold Heq.
    destruct (Hok _ _ _ before params rest Hold Heq) as [Hsub Hcmp].
    split; [by etrans|done]. }
  destruct (decide ((host, path) = (BuildHost u, Path u))) as [[= -> ->]|Hne];
    [|rewrite (Hother _ _ Hne) in Hst; by eapply Hsame].
  destruct ((processURL p u).1) eqn:Hk;
    [|rewrite (Hskip eq_refl) in Hst; by eapply Hsame].
  destruct (Hkeep eq_refl) as [Hdom Hnew]. clear Hkeep Hskip.
  destruct (paths_of p (BuildHost u) !! Path u) as [old|] eqn:Hold.
  - destruct Hnew as (Hnew & _ & Hwhy). rewrite Hnew in Hst.
    injection Hst as Hst.
    destruct after as [|q after _] using rev_ind.
    + apply app_inj_tail in Hst as [-> <-].
      split; [done|]. destruct Hwhy as [Hnovel|[_ Hcmp]]; [|done].
      apply compareParams_spec.
      destruct (decide (set_Exists (λ key, key ∉ paramsSeen p)
                          (dom (paramsToMap (RawQuery u)))))
        as [(key & Hkey & Hnot)|Hall].
      * exists key. split; [done|]. intros q Hq Hin.
        apply list_elem_of_split in Hq as (l1 & l2 & ->).
        destruct (Hok _ _ _ l1 q l2 Hold eq_refl) as [Hsub _].
        apply Hnot, Hsub, Hin.
      * exfalso. apply Hnovel. intros key Hkey.
        destruct (decide (key ∈ paramsSeen p)); [done|].
        exfalso. apply Hall. by exists key.
    + rewrite app_comm_cons, app_assoc in Hst.
      apply app_inj_tail in Hst as [-> _]. by eapply Hsame.
  - destruct Hnew as [Hnew _]. rewrite Hnew in Hst. injection Hst as Hst.
    case_bool_decide as Hsize; [|by destruct before].
    destruct before as [|q before]; [|by destruct before].
    injection Hst as <- <-. split; [done|].
    apply compareParams_spec.
    destruct (map_choose (paramsToMap (RawQuery u))) as (key & value & Hkv).
    { apply map_size_non_empty_iff. lia. }
    exists key. split; [apply elem_of_dom; eauto|]. by intros q Hq%elem_of_nil.
Qed.

Lemma patterns_ok_step (p : Processor) (u : URL) :
  patterns_ok p → patterns_ok (processURL p u).2.
Proof.
  intros [Hseen Hinj].
  destruct (processURL_step p u) as (_ & Hpt & Hother & Hskip & Hkeep).
  assert (∀ host path, is_Some (paths_of (processURL p u).2 host !! path) →
            (host, path) ≠ (BuildHost u, Path u) ∨ (processURL p u).1 = false
            ∨ is_Some (paths_of p (BuildHost u) !! Path u) →
            is_Some (paths_of p host !! path)) as Hold.
  { intros host path Hst Hwhy.
    destruct (decide ((host, path) = (BuildHost u, Path u))) as [[= -> ->]|Hne];
      [|by rewrite <- (Hother _ _ Hne)].
    destruct Hwhy as [?|[Hk|?]]; [done| |done]. by rewrite <- (Hskip Hk). }
  destruct ((processURL p u).1) eqn:Hk;
    [|split; [intros host path Hst Hm; apply Hpt, (Hseen host); [apply Hold|]; auto
             |intros host path host' path' Hst Hst';
              apply Hinj; apply Hold; auto]].
  destruct (Hkeep eq_refl) as [_ Hnew]. clear Hkeep Hskip.
  destruct (paths_of p (BuildHost u) !! Path u) as [old|] eqn:Hpath.
  { split; [intros host path Hst Hm; apply Hpt, (Hseen host); [apply Hold|]; auto
           |intros host path host' path' Hst Hst'; apply Hinj; apply Hold; auto]. }
  destruct Hnew as [_ Hnew]. split.
  - intros host path Hst Hm.
    destruct (decide ((host, path) = (BuildHost u, Path u))) as [[= -> ->]|Hne].
    + by apply Hnew.
    + apply Hpt, (Hseen host); [apply Hold; auto|done].
  - intros host path host' path' Hst Hst' Hm Hm' Heq.
    destruct (decide ((host, path) = (BuildHost u, Path u))) as [[= -> ->]|Hne];
      destruct (decide ((host', path') = (BuildHost u, Path u))) as [[= -> ->]|Hne'];
      [done| | |apply Hinj; [apply Hold..| | |]; auto].
    + exfalso. destruct (Hnew Hm) as [Hfresh _]. apply Hfresh. rewrite Heq.
      apply (Hseen host'); [apply Hold; auto|done].
    + exfalso. destruct (Hnew Hm') as [Hfresh _]. apply Hfresh. rewrite <- Heq.
      apply (Hseen host); [apply Hold; auto|done].
Qed.

Lemma params_ok_empty (p : Processor) : urlMap p = ∅ → params_ok p.
Proof.
  intros Hm host path stored before params after Hst. unfold paths_of in Hst.
  by rewrite Hm, lookup_empty in Hst.
Qed.

Lemma patterns_ok_empty (p : Processor) : urlMap p = ∅ → patterns_ok p.
Proof.
  intros Hm.
  assert (∀ host path, ¬ is_Some (paths_of p host !! path)) as Hno.
  { intros host path [v Hst]. unfold paths_of in Hst.
    by rewrite Hm, lookup_empty in Hst. }
  split; [intros host path Hst|intros host path host' path' Hst]; by apply Hno in Hst.
Qed.

Lemma Process_all_invariant (I : Processor → Prop) :
  (∀ p u, I p → I (processURL p u).2) →
  ∀ lines p, I p → I (Process_all p lines).2.
Proof.
  intros Hstep lines. induction lines as [|line lines IH]; intros p Hp; [done|].
  cbn [Process_all].
  assert (I (Process p line).2) as Hp1.
  { destruct (Process_cases p line) as [(u & _ & ->) | ->]; [by apply Hstep|done]. }
  destruct (Process p line) as [kept p1]. specialize (IH p1 Hp1).
  by destruct (Process_all p1 lines) as [answers p2].
Qed.

(** X6. The parameter sets that are stored for a path are told apart by
    their names.  In a processor that started with an empty store, after any
    lines, every stored parameter set has a name that none of the sets
    stored before it for the same host and path has, so a stored list has no
    parameter set twice and none that is empty; and every name of a stored
    set is among the seen names. *)
Theorem stored_sets_differ_by_name (p : Processor) (lines : list string)
    (host path : string) (stored before after : list (gmap string string))
    (params : gmap string string) :
  urlMap p = ∅ →
  paths_of (Process_all p lines).2 host !! path = Some stored →
  stored = before ++ params :: after →
  (∃ key, key ∈ dom params ∧ ∀ earlier, earlier ∈ before → key ∉ dom earlier)
  ∧ (params ∉ before) ∧ params ≠ ∅
  ∧ dom params ⊆ paramsSeen (Process_all p lines).2.
Proof.
  intros Hempty Hst Heq.
  destruct (Process_all_invariant params_ok params_ok_step lines p
              (params_ok_empty p Hempty) _ _ _ _ _ _ Hst Heq) as [Hsub Hcmp].
  pose proof (proj1 (compareParams_spec _ _) Hcmp) as (key & Hkey & Hnot).
  split_and!; [by exists key| | |done].
  - intros Hin. by apply (Hnot _ Hin).
  - intros ->. by rewrite dom_empty_L in Hkey.
Qed.

(** X7. The stored paths with a numeric segment have patterns of their own.
    In a processor that started with an empty store, after any lines, two
    stored paths that match the numeric pattern test and have the same
    pattern are the same path of the same host: a pattern is taken once,
    for all hosts together. *)
Theorem numeric_patterns_taken_once (p : Processor) (lines : list string)
    (host path host' path' : string) :
  urlMap p = ∅ →
  let p' := (Process_all p lines).2 in
  is_Some (paths_of p' host !! path) → is_Some (paths_of p' host' !! path') →
  MatchString reInt path = true → MatchString reInt path' = true →
  createPattern path = createPattern path' →
  host = host' ∧ path = path'.
Proof.
  intros Hempty p'.
  destruct (Process_all_invariant patterns_ok patterns_ok_step lines p
              (patterns_ok_empty p Hempty)) as [_ Hinj].
  apply Hinj.
Qed.

(** X8. For a path that is already stored, the test on the seen names adds
    nothing.  In a processor whose stored sets have only seen names (any
    processor that started with an empty store), a URL that passes the
    filter chain and whose path is stored for its host is kept exactly when
    its parameter set is not empty and has a name that no stored set of the
    path has. *)
Theorem stored_path_decision (p : Processor) (u : URL)
    (stored : list (gmap string string)) :
  params_ok p →
  (applyFilters p (Path u) (paramsToMap (RawQuery u))).1 = true →
  paths_of p (BuildHost u) !! Path u = Some stored →
  (processURL p u).1
  = bool_decide (0 < size (paramsToMap (RawQuery u)))
    && compareParams stored (paramsToMap (RawQuery u)).
Proof.
  intros Hok Hpass Hst.
  destruct (applyFilters p (Path u) (paramsToMap (RawQuery u))) as [kf pa] eqn:Hfa.
  simpl in Hpass. subst kf.
  destruct (processURL_cases p u true pa Hfa) as (_ & _ & _ & _ & _ & _ & _ & Hc).
  unfold paths_of in Hst. rewrite Hst in Hc. destruct Hc as [_ Hc].
  case_bool_decide as Hseen; simpl in Hc.
  - destruct (bool_decide _ && compareParams _ _); simpl in Hc; by destruct Hc as [-> _].
  - destruct Hc as [-> _]. symmetry. apply andb_true_iff.
    destruct (decide (set_Exists (λ key, key ∉ paramsSeen p)
                        (dom (paramsToMap (RawQuery u)))))
      as [(key & Hkey & Hnot)|Hall].
    + split.
      * apply bool_decide_eq_true. rewrite <- size_dom.
        assert (size (dom (paramsToMap (RawQuery u))) ≠ 0); [|lia].
        intros Hz%size_empty_iff. set_solver.
      * apply compareParams_spec. exists key. split; [done|]. intros q Hq Hin.
        apply list_elem_of_split in Hq as (l1 & l2 & ->).
        destruct (Hok _ _ _ l1 q l2 Hst eq_refl) as [Hsub _]. set_solver.
    + exfalso. apply Hseen. intros key Hkey.
      destruct (decide (key ∈ paramsSeen p)); [done|].
      exfalso. apply Hall. by exists key.
Qed.

(** ** Counting the store *)

Lemma bind_insert_length {A B} (f : string * A → list B) (m : gmap string A)
    (k : string) (v : A) :
  length (map_to_list (<[k:=v]> m) ≫= f)
  + length (from_option (λ old, f (k, old)) [] (m !! k))
  = length (map_to_list m ≫= f) + length (f (k, v)).
Proof.
  rewrite <- (insert_delete_eq m k v).
  rewrite (map_to_list_insert (delete k m) k v) by apply lookup_delete_eq.
  rewrite bind_cons, length_app.
  destruct (m !! k) as [old|] eqn:Hk; simpl.
  - rewrite <- (map_to_list_delete m k old Hk). rewrite bind_cons, length_app. lia.
  - rewrite (delete_id m k Hk). lia.
Qed.

Lemma store_entries_with_host (host : string)
    (m : gmap string (gmap string (list (gmap string string)))) :
  length (store_entries (with_host host m)) = length (store_entries m).
Proof.
  unfold with_host. destruct (m !! host) eqn:Hm; [done|]. unfold store_entries.
  pose proof (bind_insert_length
                (λ e : string * gmap string (list (gmap string string)),
                   e' ← map_to_list e.2; path_entries e.1 e'.1 e'.2)
                m host ∅) as Hlen.
  rewrite Hm in Hlen. simpl in Hlen. rewrite map_to_list_empty in Hlen.
  simpl in Hlen. lia.
Qed.

Lemma store_entries_with_path (host path : string) (v : list (gmap string string))
    (m : gmap string (gmap string (list (gmap string string)))) :
  length (store_entries (with_path host path v m))
  + length (from_option (path_entries host path) [] (default ∅ (m !! host) !! path))
  = length (store_entries m) + length (path_entries host path v).
Proof.
  unfold store_entries, with_path.
  pose proof (bind_insert_length
                (λ e : string * gmap string (list (gmap string string)),
                   e' ← map_to_list e.2; path_entries e.1 e'.1 e'.2)
                m host (<[path:=v]> (default ∅ (m !! host)))) as Houter.
  pose proof (bind_insert_length
                (λ e' : string * list (gmap string string),
                   path_entries host e'.1 e'.2)
                (default ∅ (m !! host)) path v) as Hinner.
  destruct (m !! host) as [paths|] eqn:Hm; simpl in *.
  - destruct (paths !! path); simpl in *; lia.
  - rewrite lookup_empty in *. rewrite map_to_list_empty in Hinner. simpl in *. lia.
Qed.

Lemma path_entries_length {A} (host path : string) (l : list A) :
  length (path_entries host path l) = if bool_decide (0 < length l) then length l else 1.
Proof. unfold path_entries. case_bool_decide; [by rewrite length_fmap|done]. Qed.

Lemma Count_length (p : Processor) (n : nat) :
  Count p n ↔ n = length (store_entries (urlMap p)).
Proof.
  split.
  - intros (v & Hv & ->). rewrite Count_on_entries.
    by rewrite <- (store_view_entries _ _ Hv), length_fmap.
  - intros ->. exists (canonical_view (urlMap p)).
    split; [apply canonical_view_ok|]. rewrite Count_on_entries.
    by rewrite <- (store_view_entries _ _ (canonical_view_ok _)), length_fmap.
Qed.

(** The number of results after one URL. *)
Lemma processURL_count (p : Processor) (u : URL) :
  length (store_entries (urlMap (processURL p u).2))
  = length (store_entries (urlMap p))
    + (if (processURL p u).1
          && negb (bool_decide (paths_of p (BuildHost u) !! Path u = Some []))
       then 1 else 0).
Proof.
  destruct (applyFilters p (Path u) (paramsToMap (RawQuery u))) as [kf pa] eqn:Hfa.
  pose proof (processURL_cases p u kf pa Hfa) as Hc.
  apply applyFilters_grows, grows_fields in Hfa as (_ & Hgu & _).
  destruct (processURL p u) as [keep p'] eqn:Hr. cbn [fst snd] in Hc |- *.
  destruct kf; [|injection Hc as -> ->; rewrite Hgu; simpl; lia].
  destruct Hc as (_ & _ & _ & _ & _ & _ & _ & Hc). unfold paths_of.
  pose proof (store_entries_with_path (BuildHost u) (Path u)) as Hwith.
  destruct (default ∅ (urlMap p !! BuildHost u) !! Path u) as [stored|] eqn:Hst.
  - destruct Hc as [_ Hc].
    destruct (bool_decide (dom (paramsToMap (RawQuery u)) ⊆ paramsSeen p) && _);
      destruct Hc as [-> ->]; [simpl; lia|].
    specialize (Hwith (stored ++ [paramsToMap (RawQuery u)]) (urlMap p)).
    rewrite Hst in Hwith. simpl in Hwith.
    rewrite !path_entries_length, length_app in Hwith. cbn [andb].
    destruct stored as [|q stored]; simpl in *; repeat case_bool_decide;
      simpl in *; try lia; done.
  - destruct (MatchString reInt (Path u) && _); destruct Hc as (-> & _ & ->).
    + rewrite store_entries_with_host. simpl. lia.
    + specialize (Hwith (if bool_decide (0 < size (paramsToMap (RawQuery u)))
                         then [paramsToMap (RawQuery u)] else []) (urlMap p)).
      rewrite Hst in Hwith. simpl in Hwith. rewrite path_entries_length in Hwith.
      cbn [andb].
      destruct (bool_decide (0 < size (paramsToMap (RawQuery u)))); simpl in *;
        repeat case_bool_decide; simpl in *; try lia; done.
Qed.

Lemma Process_count (p : Processor) (line : string) :
  length (store_entries (urlMap p))
  ≤ length (store_entries (urlMap (Process p line).2))
  ≤ length (store_entries (urlMap p)) + (if (Process p line).1 then 1 else 0).
Proof.
  destruct (Process_cases p line) as [(u & _ & ->) | ->]; [|simpl; lia].
  rewrite processURL_count. destruct ((processURL p u).1); simpl; [|lia].
  destruct (negb _); lia.
Qed.

(** X9. What one URL does to the number of results.  A URL that is not kept
    leaves [Count] as it is, also when it gave its host an entry in the
    store.  A URL that is kept adds one, except when its path was stored
    without parameters: the first parameter set of such a path takes the
    place of the bare URL in the results, and [Count] stays the same. *)
Theorem count_after_url (p : Processor) (u : URL) (n n' : nat) :
  Count p n → Count (processURL p u).2 n' →
  n' = n + (if (processURL p u).1
               && negb (bool_decide (paths_of p (BuildHost u) !! Path u = Some []))
            then 1 else 0).
Proof.
  intros ->%Count_length ->%Count_length. apply processURL_count.
Qed.

(** X10. The number that [ProcessReader] returns is an upper bound of what
    the lines added to [Count], not the number itself: [Count] never goes
    down, and it goes up by at most the number of lines that were kept,
    itself at most the number of lines. *)
Theorem reader_count_bounds (p : Processor) (lines : list string) (n n' : nat) :
  Count p n → Count (ProcessReader p lines).2 n' →
  n ≤ n' ≤ n + (ProcessReader p lines).1
  ∧ (ProcessReader p lines).1 ≤ length lines.
Proof.
  intros ->%Count_length ->%Count_length.
  revert p. induction lines as [|line lines IH]; intros p; [simpl; lia|].
  cbn [ProcessReader]. pose proof (Process_count p line) as Hstep.
  destruct (Process p line) as [kept p1]. specialize (IH p1).
  destruct (ProcessReader p1 lines) as [count p2]. cbn [fst snd length] in *.
  destruct kept; lia.
Qed.

(** ** Reading in parts, and [Reset] *)

(** X11. Reading an input in two parts gives what reading it at once gives:
    the processor after the second part is the same, and the two numbers of
    kept lines add up. *)
Theorem reading_in_parts (p : Processor) (first second : list string) :
  ProcessReader p (first ++ second)
  = ((ProcessReader p first).1 + (ProcessReader (ProcessReader p first).2 second).1,
     (ProcessReader (ProcessReader p first).2 second).2).
Proof.
  revert p. induction first as [|line first IH]; intros p.
  - simpl. by destruct (ProcessReader p second).
  - cbn [app ProcessReader]. destruct (Process p line) as [kept p1].
    rewrite IH. destruct (ProcessReader p1 first) as [c1 p2]. cbn [fst snd].
    destruct (ProcessReader p2 second) as [c2 p3]. cbn [fst snd].
    f_equal. lia.
Qed.

Lemma setupFilters_state (fs whitelist blacklist : list string) (p : Processor) :
  let p' := setupFilters fs whitelist blacklist p in
  opts p' = opts p ∧ urlMap p' = urlMap p ∧ paramsSeen p' = paramsSeen p
  ∧ patternsSeen p' = patternsSeen p ∧ contentPrefixes p' = contentPrefixes p.
Proof.
  cbv zeta. unfold setupFilters.
  by destruct (if bool_decide ("allexts" ∈ fs) then _ else _) as [extFilter exts].
Qed.

Lemma Reset_id (p : Processor) :
  urlMap p = ∅ → paramsSeen p = ∅ → patternsSeen p = ∅ → contentPrefixes p = [] →
  Reset p = p.
Proof. destruct p. simpl. by intros -> -> -> ->. Qed.

(** X12. After [Reset] a processor is the processor that [NewProcessor]
    built: whatever lines it has taken, [Reset] gives back the new processor
    itself, with its options and filters, so the lines that follow are
    answered as a new processor answers them. *)
Theorem Reset_gives_new_processor (o : Options) (p : Processor)
    (before lines : list string) :
  NewProcessor o p →
  Reset (Process_all p before).2 = p
  ∧ Process_all (Reset (Process_all p before).2) lines = Process_all p lines.
Proof.
  intros Hnew.
  assert (Reset (Process_all p before).2 = p) as Hreset; [|by rewrite Hreset].
  destruct (Process_all_keeps p before) as ((Ho & He & Hf & Hs & Hk) & _).
  transitivity (Reset p); [unfold Reset; by rewrite Ho, He, Hf, Hs, Hk|].
  destruct Hnew as [fs whitelist blacklist _ _ _].
  destruct (setupFilters_state fs whitelist blacklist
              (mkProcessor o ∅ ∅ ∅ [] [] [] false false)) as (_ & ? & ? & ? & ?).
  by apply Reset_id.
Qed.

(** ** The query of a result *)

Lemma append_cons (c : ascii) (a b : string) : String c a +:+ b = String c (a +:+ b).
Proof. done. Qed.

Lemma Contains_app (a b : string) (sep : ascii) :
  Contains (a +:+ b) sep = Contains a sep || Contains b sep.
Proof.
  induction a as [|c a IH]; [done|]. rewrite append_cons. simpl.
  by rewrite IH, orb_assoc.
Qed.

Lemma Split_clean (s : string) (sep : ascii) :
  Contains s sep = false → Split s sep = [s].
Proof.
  induction s as [|c s IH]; simpl; [done|].
  intros [Hc Hs]%orb_false_iff. apply bool_decide_eq_false in Hc.
  by rewrite decide_False, IH.
Qed.

Lemma Split_app (a b : string) (sep : ascii) :
  Contains a sep = false → Split (a +:+ String sep b) sep = a :: Split b sep.
Proof.
  induction a as [|c a IH].
  - intros _. change (Split (String sep b) sep = "" :: Split b sep).
    simpl. by rewrite decide_True.
  - rewrite append_cons. simpl. intros [Hc Hs]%orb_false_iff.
    apply bool_decide_eq_false in Hc. by rewrite decide_False, IH.
Qed.

Lemma Split_Join (l : list string) (sep : ascii) :
  l ≠ [] → Forall (λ e, Contains e sep = false) l →
  Split (Join l (String sep "")) sep = l.
Proof.
  induction l as [|e l IH]; [done|]. intros _ Hall.
  apply Forall_cons in Hall as [He Hall]. destruct l as [|e' l].
  - simpl. by apply Split_clean.
  - change (Split (e +:+ String sep (Join (e' :: l) (String sep ""))) sep
            = e :: e' :: l).
    rewrite Split_app by done. by rewrite IH.
Qed.

Lemma Split_parts (s : string) (sep : ascii) (part : string) :
  part ∈ Split s sep → Contains part sep = false.
Proof.
  revert part. induction s as [|c s IH]; intros part; simpl.
  - by intros ->%list_elem_of_singleton.
  - destruct (decide (c = sep)) as [->|Hc].
    + intros [->|Hin]%elem_of_cons; [done|by apply IH].
    + destruct (Split s sep) as [|h t];
        [intros ->%list_elem_of_singleton; simpl; by rewrite bool_decide_eq_false_2|].
      intros [->|Hin]%elem_of_cons.
      * simpl. rewrite bool_decide_eq_false_2 by done. apply IH. by left.
      * apply IH. by right.
Qed.

Lemma cut_equals_app (name value : string) :
  Contains name "=" = false →
  cut_equals (name +:+ String "=" value) = (name, Some value).
Proof.
  induction name as [|c name IH].
  - intros _. by change (cut_equals (String "=" value) = ("", Some value)).
  - rewrite append_cons. simpl. intros [Hc Hs]%orb_false_iff.
    apply bool_decide_eq_false in Hc. by rewrite decide_False, IH.
Qed.

(** [paramsToMap] is its loop, also on the empty query. *)
Lemma paramsToMap_fold (query : string) :
  paramsToMap query = foldl decode_step ∅ (Split query "&").
Proof.
  unfold paramsToMap. destruct (decide (query = "")) as [->|_]; [done|].
  generalize (∅ : gmap string string).
  induction (Split query "&") as [|seg l IH]; intros m; simpl; [done|].
  rewrite <- IH. f_equal. apply paramsToMap_step.
Qed.

(** The names and values that [paramsToMap] gives. *)
Lemma paramsToMap_entry (query name value : string) :
  paramsToMap query !! name = Some value →
  name ≠ "" ∧ Contains name "=" = false ∧ Contains name "&" = false
  ∧ Contains value "&" = false.
Proof.
  rewrite paramsToMap_fold, foldl_decode_lookup, lookup_empty.
  destruct (last_value name _) as [v|] eqn:Hl; [|done]. intros [= ->].
  unfold last_value in Hl. apply fmap_Some in Hl as ([n v] & Hlast & ->).
  apply last_Some_elem_of, list_elem_of_filter in Hlast as [Hn Hin].
  simpl in Hn. subst n.
  apply list_elem_of_omap in Hin as (seg & Hseg & Hd).
  apply Split_parts in Hseg. unfold decode_segment in Hd.
  destruct (cut_equals seg) as [n val] eqn:Hcut.
  destruct (decide (n = "")) as [|Hne]; [done|]. injection Hd as -> <-.
  apply cut_equals_spec in Hcut as [Heq ->].
  destruct val as [val|]; simpl.
  - rewrite !Contains_app in Hseg.
    apply orb_false_iff in Hseg as [Hk Hv]. apply orb_false_iff in Hv as [_ Hv].
    done.
  - done.
Qed.

Lemma last_value_range (m : gmap string string) (pv : list (string * string))
    (name : string) :
  pv ≡ₚ map_to_list m → last_value name pv = m !! name.
Proof.
  intros Hpv. unfold last_value.
  destruct (last (filter (λ nv, nv.1 = name) pv)) as [[n v]|] eqn:Hlast; simpl.
  - apply last_Some_elem_of, list_elem_of_filter in Hlast as [Hn Hin].
    simpl in Hn. subst n. rewrite Hpv in Hin.
    by apply elem_of_map_to_list in Hin.
  - apply last_None in Hlast. destruct (m !! name) as [v|] eqn:Hm; [|done].
    apply elem_of_map_to_list in Hm. rewrite <- Hpv in Hm.
    assert ((name, v) ∈ filter (λ nv, nv.1 = name) pv) as Hin
      by by apply list_elem_of_filter.
    rewrite Hlast in Hin. by apply elem_of_nil in Hin.
Qed.

(** X13. The query that the results show for a stored parameter set decodes
    to that parameter set again.  Whatever query a parameter set was decoded
    from and in whatever order its entries are visited, [mapToQuery] gives
    the empty text for the empty set and otherwise [?] and a query that
    [paramsToMap] decodes to the same set. *)
Theorem query_round_trip (query : string) (pv : list (string * string)) :
  range_of (paramsToMap query) pv →
  let shown := Join ((λ kv, kv.1 +:+ "=" +:+ kv.2) <$> pv) "&" in
  paramsToMap shown = paramsToMap query
  ∧ mapToQuery pv = (if decide (paramsToMap query = ∅) then "" else "?" +:+ shown).
Proof.
  intros Hpv shown. unfold range_of in Hpv. split.
  - destruct (decide (pv = [])) as [Hnil|Hne].
    { subst pv. apply Permutation_nil in Hpv.
      apply map_to_list_empty_iff in Hpv. by rewrite Hpv. }
    assert (∀ kv, kv ∈ pv → kv.1 ≠ "" ∧ Contains kv.1 "=" = false
                             ∧ Contains kv.1 "&" = false
                             ∧ Contains kv.2 "&" = false) as Hwf.
    { intros [k v] Hin. rewrite Hpv in Hin. apply elem_of_map_to_list in Hin.
      by apply paramsToMap_entry in Hin. }
    apply map_eq. intros name.
    rewrite (paramsToMap_fold shown). unfold shown.
    rewrite Split_Join.
    + rewrite foldl_decode_lookup, lookup_empty.
      assert (omap decode_segment ((λ kv, kv.1 +:+ "=" +:+ kv.2) <$> pv) = pv) as ->.
      { clear Hpv Hne. induction pv as [|[k v] pv IH]; [done|].
        rewrite fmap_cons. cbn [omap list_omap]. rewrite IH
          by (intros kv Hin; apply Hwf; by right).
        destruct (Hwf (k, v)) as (Hk & Heq & _); [by left|]. simpl in *.
        unfold decode_segment.
        change (k +:+ "=" +:+ v) with (k +:+ String "=" v).
        rewrite cut_equals_app by done. by rewrite decide_False. }
      rewrite (last_value_range _ _ name Hpv). by destruct (_ !! name).
    + by destruct pv.
    + apply Forall_fmap, Forall_forall. intros [k v] Hin.
      destruct (Hwf _ Hin) as (_ & _ & Hk & Hv). simpl in *.
      rewrite !Contains_app, Hk, Hv. done.
  - unfold mapToQuery. case_bool_decide as Hlen; case_decide as Hempty; try done.
    + exfalso. apply Hempty, map_to_list_empty_iff, Permutation_nil.
      by destruct pv.
    + exfalso. apply Hlen. rewrite Hempty, map_to_list_empty in Hpv.
      symmetry in Hpv. apply Permutation_nil in Hpv. by rewrite Hpv.
Qed.

(** ** Paths that end in a digit *)

Lemma createPattern_unnumbered (path : string) :
  (∀ part, part ∈ Split path "/" → isDigit part = false) →
  createPattern path = QuoteMeta (hd "" (Split path "/")).
Proof.
  intros Hall. unfold createPattern.
  change (imap pair (Split path "/"))
    with (imap (λ i part, (0 + i, part)) (Split path "/")).
  rewrite createPattern_loop, last_numeric_from_none.
  - destruct (Split path "/") as [|h t]; [done|]. simpl. unfold wildcard.
    by rewrite Hall by left.
  - intros k part Hk. apply Hall. by eapply list_elem_of_lookup_2.
Qed.

(** X14. Paths that end in a digit and have no segment of digits only
    share one pattern.  Such a path passes the numeric test, and its pattern
    is that of its first segment alone, the empty text for a path that
    starts with a slash.  So once one such path was kept as a new path, every
    other new path of this kind is dropped, whatever its segments. *)
Theorem digit_ending_paths_collide (p : Processor) (u1 u2 : URL) :
  (∀ part, part ∈ Split (Path u1) "/" → isDigit part = false) →
  (∀ part, part ∈ Split (Path u2) "/" → isDigit part = false) →
  HasPrefix (Path u1) "/" = true → HasPrefix (Path u2) "/" = true →
  MatchString reInt (Path u1) = true → MatchString reInt (Path u2) = true →
  paths_of p (BuildHost u1) !! Path u1 = None → (processURL p u1).1 = true →
  paths_of (processURL p u1).2 (BuildHost u2) !! Path u2 = None →
  createPattern (Path u1) = "" ∧ createPattern (Path u2) = ""
  ∧ (processURL (processURL p u1).2 u2).1 = false.
Proof.
  intros Hd1 Hd2 Hs1 Hs2 Hm1 Hm2 Hnew1 Hkept Hnew2.
  assert (∀ path, (∀ part, part ∈ Split path "/" → isDigit part = false) →
            HasPrefix path "/" = true → createPattern path = "") as Hempty.
  { intros path Hd Hs. rewrite createPattern_unnumbered by done.
    destruct path as [|c path]; [done|]. simpl in Hs.
    apply andb_true_iff in Hs as [Hc _]. apply bool_decide_eq_true in Hc. subst c.
    done. }
  split_and!; [by apply Hempty..|].
  destruct (processURL_step p u1) as (_ & _ & _ & _ & Hstep).
  destruct (Hstep Hkept) as [_ Hpat]. rewrite Hnew1 in Hpat.
  destruct Hpat as [_ Hpat]. destruct (Hpat Hm1) as [_ Hseen].
  rewrite (Hempty _ Hd1 Hs1) in Hseen.
  set (p1 := (processURL p u1).2) in *.
  destruct (applyFilters p1 (Path u2) (paramsToMap (RawQuery u2))) as [kf pa] eqn:Hfa.
  pose proof (processURL_cases p1 u2 kf pa Hfa) as Hc.
  destruct kf; [|by rewrite Hc].
  destruct Hc as (_ & _ & _ & _ & _ & _ & _ & Hc).
  unfold paths_of in Hnew2. rewrite Hnew2, Hm2, (Hempty _ Hd2 Hs2) in Hc.
  rewrite bool_decide_eq_true_2 in Hc by done. by destruct Hc as [-> _].
Qed.

(** ** The command-line processor and the library processor *)

Lemma userFilters_names (fs names active : list string) :
  userFilters NewRegistry fs names = inr active →
  active = names ++ (normalizeFilterName <$> filter (λ f, recognized f = true) fs).
Proof.
  revert names. induction fs as [|f fs IH]; intros names; simpl.
  - intros [= <-]. by rewrite app_nil_r.
  - rewrite filter_cons, NewRegistry_lookup. fold (special_name f).
    destruct (decide (recognized f = true)) as [Hr|Hr]; unfold recognized in Hr;
      destruct (special_name f); simpl in *; try done;
      destruct (isValidFilter (normalizeFilterName f)); simpl in *; try done;
      try apply IH.
    intros ->%IH. by rewrite <- app_assoc.
Qed.

Lemma NewRegistry_name (name : string) :
  isValidFilter name = true →
  ∃ f, NewRegistry !! name = Some f ∧ Filter_Name f = name.
Proof.
  unfold isValidFilter. intros Hin%bool_decide_eq_true.
  repeat (apply elem_of_cons in Hin as [->|Hin]; [by eexists|]).
  by apply elem_of_nil in Hin.
Qed.

Lemma registry_collect (names : list string) (acc : list Filter) :
  Forall (λ name, isValidFilter name = true) names →
  Filter_Name <$> foldl (λ (fs : list Filter) (name : string),
                           match NewRegistry !! name with
                           | Some f => fs ++ [f]
                           | None => fs
                           end) acc names
  = (Filter_Name <$> acc) ++ names.
Proof.
  intros Hall. revert acc.
  induction Hall as [|name names Hname _ IH]; intros acc; simpl.
  - by rewrite app_nil_r.
  - destruct (NewRegistry_name name Hname) as (f & -> & Hf).
    rewrite IH, fmap_app. simpl. by rewrite Hf, <- app_assoc.
Qed.

(** X15. The command-line processor and the library processor are the same
    machine.  With the same cleaned filter names, extension lists that need
    no cleaning, no [allexts] and [keepslash] only together with the slash
    option, a processor that [processor.New] returns is in the same state as
    the processor that [NewProcessor] builds: the same filters in the same
    order, the same extension list and strictness.  And from the same state
    [ProcessLine] never meets a nil filter set-up and leads to the state that
    [Process] leads to, on every line. *)
Theorem cli_and_library_agree (cfg : Config) (fs whitelist blacklist : list string)
    (up : URLProcessor) :
  "allexts" ∉ fs →
  ("keepslash" ∈ fs → cfg_KeepSlash cfg = true) →
  (0 < length (cfg_Whitelist cfg) → whitelist = cfg_Whitelist cfg) →
  (0 < length (cfg_Blacklist cfg) → blacklist = cfg_Blacklist cfg) →
  New_from cfg fs = inr up →
  corresponds up
    (setupFilters fs whitelist blacklist
       (mkProcessor (mkOptions (cfg_Whitelist cfg) (cfg_Blacklist cfg)
                       (cfg_Filters cfg) (cfg_KeepSlash cfg))
          ∅ ∅ ∅ [] [] [] false false))
  ∧ ∀ up1 p1 line, corresponds up1 p1 →
      ∃ up2, ProcessLine up1 line = Some up2 ∧ corresponds up2 (Process p1 line).2.
Proof.
  intros Hall Hslash Hwl Hbl Hnew. split; [|apply ProcessLine_simulates].
  set (p := setupFilters _ _ _ _).
  assert (filters p
          = ((if bool_decide ("keepcontent" ∈ fs) then [] else ["removecontent"])
             ++ (if IsWhitelistMode cfg then ["whitelist"] else ["blacklist"]))
            ++ (normalizeFilterName <$> filter (λ f, recognized f = true) fs))
    as Hfilters.
  { unfold p, setupFilters, IsWhitelistMode. simpl.
    rewrite (bool_decide_eq_false_2 _ Hall).
    destruct (bool_decide (0 < length (cfg_Whitelist cfg)));
      [|destruct (bool_decide (0 < length (cfg_Blacklist cfg)))]; simpl;
      apply setupFilters_user_loop. }
  assert (extList p = GetExtList cfg) as Hext.
  { unfold p, setupFilters, GetExtList. simpl.
    rewrite (bool_decide_eq_false_2 _ Hall).
    destruct (decide (0 < length (cfg_Whitelist cfg))) as [Hw|Hw].
    - rewrite !(bool_decide_eq_true_2 _ Hw). simpl. by rewrite (Hwl Hw).
    - rewrite !(bool_decide_eq_false_2 _ Hw).
      destruct (decide (0 < length (cfg_Blacklist cfg))) as [Hb|Hb].
      + rewrite !(bool_decide_eq_true_2 _ Hb). simpl. by rewrite (Hbl Hb).
      + by rewrite !(bool_decide_eq_false_2 _ Hb). }
  assert (strict p = bool_decide (Exists (λ f, f = "hasext" ∨ f = "noext") fs)
          ∧ keepSlash p = bool_decide ("keepslash" ∈ fs) || cfg_KeepSlash cfg)
    as [Hstrict Hkeep].
  { unfold p, setupFilters. simpl.
    by destruct (if bool_decide ("allexts" ∈ fs) then _ else _). }
  destruct (setupFilters_state fs whitelist blacklist
              (mkProcessor (mkOptions (cfg_Whitelist cfg) (cfg_Blacklist cfg)
                              (cfg_Filters cfg) (cfg_KeepSlash cfg))
                 ∅ ∅ ∅ [] [] [] false false)) as (_ & Hm & Hs & Hp & Hc).
  fold p in Hm, Hs, Hp, Hc. simpl in Hm, Hs, Hp, Hc.
  unfold New_from, URLProcessor_setupFilters in Hnew. simpl in Hnew.
  rewrite (bool_decide_eq_false_2 _ Hall) in Hnew.
  destruct (userFilters _ _ _) as [err|active] eqn:Huser; [done|].
  injection Hnew as <-. apply userFilters_names in Huser.
  assert (active = filters p) as Hactive.
  { rewrite Huser, Hfilters. by destruct (IsWhitelistMode cfg). }
  assert (Forall (λ name, isValidFilter name = true) active) as Hvalid.
  { rewrite Hactive, Hfilters. apply Forall_app. split.
    - destruct (bool_decide ("keepcontent" ∈ fs)), (IsWhitelistMode cfg);
        by repeat constructor.
    - apply Forall_fmap, Forall_forall. intros f [Hf _]%list_elem_of_filter.
      unfold recognized in Hf. by apply andb_true_iff in Hf as [_ Hf]. }
  unfold corresponds. simpl. rewrite Hm, Hs, Hp, Hc, Hext, Hstrict, Hkeep.
  split_and!; try done.
  - by rewrite registry_collect, Hactive.
  - destruct (cfg_KeepSlash cfg); [by rewrite orb_true_r|].
    rewrite orb_false_r. symmetry. apply bool_decide_eq_false. intros Hk.
    by specialize (Hslash Hk).
Qed.

Section OutputFacts.
Context {W : Type} `{Writer W}.

Lemma Output_params_loop (host path : string) (paramsList : list ParamsView) (w : W) :
  foldl (λ (w : W) (params : ParamsView),
           print w ((host +:+ path) +:+ mapToQuery params)) w paramsList
  = foldl print w (render <$> ((λ params, (host, path, Some params)) <$> paramsList)).
Proof.
  revert w. induction paramsList as [|params l IH]; intros w; simpl; [done|]. apply IH.
Qed.

Lemma Output_paths_loop (host : string) (paths : PathsView) (w : W) :
  foldl (λ (w : W) '(path, paramsList),
      if bool_decide (0 < length paramsList) then
        foldl (λ (w : W) (params : ParamsView),
                 print w ((host +:+ path) +:+ mapToQuery params))
              w paramsList
      else print w (host +:+ path)) w paths
  = foldl print w (render <$> (e' ← paths; path_entries host e'.1 e'.2)).
Proof.
  revert w. induction paths as [|[path pl] paths IH]; intros w; simpl; [done|].
  rewrite fmap_app, foldl_app, IH. f_equal. unfold path_entries. simpl.
  case_bool_decide; [apply Output_params_loop|done].
Qed.

Lemma Output_on_lines (v : StoreView) (w : W) :
  Output_on v w = foldl print w (Results_on v).
Proof.
  rewrite Results_on_entries. unfold view_entries, Output_on.
  revert w. induction v as [|[host paths] v IH]; intros w; simpl; [done|].
  by rewrite fmap_app, foldl_app, IH, Output_paths_loop.
Qed.

Lemma print_written (lines : list string) (w w' : W) :
  write_lines lines w = Done w' → foldl print w lines = w'.
Proof.
  revert w. induction lines as [|line lines IH]; intros w; simpl; [by intros [= ->]|].
  unfold print at 2. destruct (Fprintln w line) as [w1|]; [apply IH|done].
Qed.

(** X16. [Output] of the command-line processor prints the results of the
    library processor in the same state: the lines of one enumeration by
    [Results], in its order, passing over a write that fails; and when no
    write fails, it leaves the writer as [WriteResults] leaves it on that
    enumeration. *)
Theorem Output_prints_results (up : URLProcessor) (p : Processor) (w w' : W) :
  corresponds up p → Output up w w' →
  ∃ results, Results p results ∧ w' = foldl print w results
             ∧ ∃ r, WriteResults p w r ∧ ∀ w'', r = Done w'' → w'' = w'.
Proof.
  intros (Hm & _) (v & Hv & ->). rewrite Hm in Hv.
  exists (Results_on v). split_and!; [by exists v|apply Output_on_lines|].
  exists (WriteResults_on v w). split; [by exists v|].
  intros w'' Hdone. rewrite WriteResults_on_lines in Hdone.
  apply print_written in Hdone. by rewrite Output_on_lines.
Qed.
End OutputFacts.

(** ** Edge cases of the filters and of the input *)

(** X17. A path whose last segment has no dot has the empty extension, in
    both functions: [hasext] drops it and [noext] keeps it, the black list
    keeps it whatever it lists, and the white list keeps it exactly when the
    processor is not strict. *)
Theorem extensionless_paths (p : Processor) (path : string)
    (params : gmap string string) :
  hasExtension path = false →
  getExtension path = ""
  ∧ (applyFilter p "hasext" path params).1 = false
  ∧ (applyFilter p "noext" path params).1 = true
  ∧ (applyFilter p "blacklist" path params).1 = true
  ∧ (applyFilter p "whitelist" path params).1 = negb (strict p).
Proof.
  intros Hno. pose proof (getExtension_none path Hno) as Hext.
  split_and!; [done|..].
  - done.
  - change (negb (hasExtension path) = true). by rewrite Hno.
  - change (checkBlacklist p path = true). unfold checkBlacklist. by rewrite Hext.
  - change (checkWhitelist p path = negb (strict p)). unfold checkWhitelist.
    by rewrite Hext.
Qed.

(** X18. Paths that differ only in their numbers have the same pattern.
    When the last segment of digits is at the same place in two paths, and
    before it the segments are the same or are both segments of digits, then
    [createPattern] gives the two paths one pattern, whatever follows the
    last segment of digits. *)
Theorem numbered_paths_share_pattern (path1 path2 : string) (i : nat)
    (d1 d2 : string) :
  Split path1 "/" !! i = Some d1 → isDigit d1 = true →
  (∀ k part, i < k → Split path1 "/" !! k = Some part → isDigit part = false) →
  Split path2 "/" !! i = Some d2 → isDigit d2 = true →
  (∀ k part, i < k → Split path2 "/" !! k = Some part → isDigit part = false) →
  Forall2 (λ a b, a = b ∨ (isDigit a = true ∧ isDigit b = true))
    (take i (Split path1 "/")) (take i (Split path2 "/")) →
  createPattern path1 = createPattern path2.
Proof.
  intros Hl1 Hd1 Ha1 Hl2 Hd2 Ha2 Hsame.
  rewrite (createPattern_generalizes path1 i d1), (createPattern_generalizes path2 i d2)
    by done.
  f_equal.
  rewrite (take_S_r _ _ (wildcard d1)), (take_S_r _ _ (wildcard d2))
    by (by rewrite list_lookup_fmap; (rewrite Hl1 || rewrite Hl2)).
  rewrite <- !fmap_take. unfold wildcard at 2 4. rewrite Hd1, Hd2. f_equal.
  induction Hsame as [|a b l1 l2 Hab _ IH]; [done|].
  rewrite !fmap_cons, IH. f_equal. unfold wildcard.
  by destruct Hab as [->|[-> ->]].
Qed.

(** X19. The two implementations accept the same filter names.  A name is
    registered in the registry of the command line exactly when
    [isValidFilter] of the library accepts it, it is registered under the
    name that the filter itself reports, and normalising a name twice is
    normalising it once. *)
Theorem filter_names_registered (name : string) :
  Registry_Has NewRegistry name = isValidFilter name
  ∧ (∀ f, NewRegistry !! name = Some f → Filter_Name f = name)
  ∧ normalizeFilterName (normalizeFilterName name) = normalizeFilterName name.
Proof.
  split_and!.
  - apply NewRegistry_lookup.
  - intros f Hf.
    assert (isValidFilter name = true) as Hvalid.
    { rewrite <- NewRegistry_lookup. apply bool_decide_eq_true. by eexists. }
    destruct (NewRegistry_name name Hvalid) as (f' & Hf' & Hname).
    rewrite Hf in Hf'. by injection Hf' as ->.
  - unfold normalizeFilterName. by repeat case_decide; subst.
Qed.

Lemma blank_canonical (line : string) (keep : bool) :
  forallb (λ c, byte_in 9 13 c || is_byte 32 c) (list_ascii_of_string line) = true →
  canonical keep line = "".
Proof.
  intros Hblank. unfold canonical, ToValidUTF8_empty, TrimSpace.
  assert (trim_front space_width 0 (to_valid 0 line) = "") as ->;
    [|by destruct keep].
  induction line as [|c line IH]; [done|]. simpl in Hblank.
  apply andb_true_iff in Hblank as [Hc Hblank]. simpl.
  assert (rune_width (String c line) = Some 1) as ->.
  { unfold rune_width. assert ((N_of_ascii c <? 128)%N = true) as ->; [|done].
    apply N.ltb_lt. unfold byte_in, is_byte in Hc.
    apply orb_true_iff in Hc as [[_ Hc]%andb_true_iff|Hc].
    - apply N.leb_le in Hc. lia.
    - apply N.eqb_eq in Hc. lia. }
  simpl. unfold space_width at 1. rewrite Hc. simpl. by apply IH.
Qed.

(** X20. A blank line is passed over.  A line of spaces, tabs, line feeds
    and carriage returns only, or an empty line, is not kept and leaves the
    processor as it is, whatever [url.Parse] would say about it; so does the
    command-line processor. *)
Theorem blank_line_skipped (p : Processor) (up : URLProcessor) (line : string) :
  forallb (λ c, byte_in 9 13 c || is_byte 32 c) (list_ascii_of_string line) = true →
  Process p line = (false, p) ∧ ProcessLine up line = Some up.
Proof.
  intros Hblank. split.
  - unfold Process. rewrite (blank_canonical line _ Hblank). by rewrite decide_True.
  - unfold ProcessLine.
    change (NormalizePath (SanitizeUTF8 line) (cfg_KeepSlash (up_config up)))
      with (canonical (cfg_KeepSlash (up_config up)) line).
    rewrite (blank_canonical line _ Hblank). by rewrite decide_True.
Qed.

End Engine.

(** * Witnesses and examples on concrete input *)

Lemma resubmission_not_kept_witness :
  let p1 := (Process ascii_ToLower plain_Parse NewProcessor_nil "http://h/p?a=1").2 in
  ∃ p2, Process ascii_ToLower plain_Parse p1 "http://h/p?a=1" = (false, p2)
        ∧ urlMap p2 = urlMap p1.
Proof.
  apply (resubmission_not_kept ascii_ToLower plain_Parse NewProcessor_nil).
  vm_compute. reflexivity.
Defined.

Lemma existing_path_policy_witness :
  let p := (Process ascii_ToLower plain_Parse NewProcessor_nil "http://h/p?a=1").2 in
  let u := mkURL "http" "h" "/p" "a=2" in
  (processURL ascii_ToLower p u).1 = false
  ∧ urlMap (processURL ascii_ToLower p u).2 = urlMap p
  ∧ (Process_all ascii_ToLower plain_Parse NewProcessor_nil
       ["http://h/p?a=1"; "http://h/p?a=2"; "http://h/p?a=1&b=2"]).1
    = [true; false; true].
Proof.
  intros p u.
  destruct (existing_path_policy ascii_ToLower plain_Parse) as [Hgen Hex].
  split_and!.
  - apply (Hgen p u [paramsToMap "a=1"]); [by vm_compute..|].
    right. intros key Hkey. exists (paramsToMap "a=1"). split; [left|done].
  - apply (Hgen p u [paramsToMap "a=1"]); [by vm_compute..|].
    right. intros key Hkey. exists (paramsToMap "a=1"). split; [left|done].
  - apply Hex; by vm_compute.
Defined.

Lemma numeric_pattern_policy_witness :
  let p := (Process ascii_ToLower plain_Parse NewProcessor_nil "http://h/a/1").2 in
  let u := mkURL "http" "g" "/a/2" "" in
  createPattern "/a/2" = "/a/\d+"
  ∧ (processURL ascii_ToLower p u).1 = false
  ∧ (Process_all ascii_ToLower plain_Parse NewProcessor_nil
       ["http://h/a/1"; "http://h/a/2"; "http://h/a/1/2"; "http://h/a/1/3"]).1
    = [true; false; true; false]
  ∧ (Process_all ascii_ToLower plain_Parse NewProcessor_nil
       ["http://h/a/1"; "http://g/a/2"]).1 = [true; false].
Proof.
  intros p u.
  destruct (numeric_pattern_policy ascii_ToLower plain_Parse) as [Hgen Hex].
  destruct (Hgen p u 1 "2") as (Hpat & Hseen & _); [by vm_compute..|].
  split_and!.
  - by vm_compute.
  - apply Hseen. apply (bool_decide_unpack _). by vm_compute.
  - apply Hex; by vm_compute.
  - apply Hex; by vm_compute.
Defined.

(** C1, counterexample.  After [http://h/a/1] the line
    [http://g/a/2/docs?zz=1] passes the filter chain and is rejected by the
    numeric pattern [/a/\d+]; it has by then given the host [http://g] an
    entry in the store, made [zz] a seen parameter name, although no stored
    parameter set has that name, and put [/a/2/docs] into the prefix
    cache. *)
Lemma skipped_line_counterexample :
  let p := (Process ascii_ToLower plain_Parse NewProcessor_nil "http://h/a/1").2 in
  let r := Process ascii_ToLower plain_Parse p "http://g/a/2/docs?zz=1" in
  (applyFilters ascii_ToLower p "/a/2/docs" (paramsToMap "zz=1")).1 = true
  ∧ r.1 = false
  ∧ urlMap p !! "http://g" = None ∧ urlMap r.2 !! "http://g" = Some ∅
  ∧ paramsSeen p = ∅ ∧ paramsSeen r.2 = {["zz"]}
  ∧ contentPrefixes p = [] ∧ contentPrefixes r.2 = ["/a/2/docs"]
  ∧ store_entries (urlMap r.2) = [("http://h", "/a/1", None)].
Proof. by vm_compute. Qed.

Lemma skipped_line_effects_witness :
  let p := (Process ascii_ToLower plain_Parse NewProcessor_nil "http://h/a/1").2 in
  let u := mkURL "http" "g" "/a/2/docs" "zz=1" in
  urlMap (processURL ascii_ToLower p u).2 = with_host "http://g" (urlMap p)
  ∧ patternsSeen (processURL ascii_ToLower p u).2 = patternsSeen p
  ∧ createPattern "/a/2/docs" ∈ patternsSeen p.
Proof.
  intros p u.
  destruct (skipped_line_effects ascii_ToLower plain_Parse) as [_ Hurl].
  destruct (Hurl p u) as (_ & _ & _ & Hpat & _).
  apply Hpat; by vm_compute.
Defined.

(** C2, counterexample.  On a fresh processor the path [/blog/x] has no
    segment with more than three hyphens and no cached prefix; it matches the
    content pattern at [blog], and the content filter keeps it, caching
    [/blog]: the URL [http://h/blog/x] is kept. *)
Lemma content_pattern_counterexample :
  FindStringIndex reContent "/blog/x" = Some (1, 5)
  ∧ checkContent NewProcessor_nil "/blog/x"
    = (true, set_contentPrefixes ["/blog"] NewProcessor_nil)
  ∧ (Process ascii_ToLower plain_Parse NewProcessor_nil "http://h/blog/x").1 = true.
Proof. by vm_compute. Qed.

(** C5, counterexample.  [NewProcessor] with the filter name [bogus], which
    names no filter, builds a processor: the name is left out of its filters
    and nothing is reported. *)
Lemma unrecognized_filter_counterexample :
  isValidFilter (normalizeFilterName "bogus") = false
  ∧ NewProcessor ascii_ToLower (mkOptions [] [] ["bogus"] false) (processor_with ["bogus"])
  ∧ filters (processor_with ["bogus"]) = ["removecontent"; "blacklist"].
Proof.
  split_and!; [by vm_compute| |by vm_compute].
  apply (NewProcessor_intro ascii_ToLower _ ["bogus"] [] []); [|done..].
  by vm_compute.
Qed.

(** C6, counterexample.  With the filter [noext] the processor is in strict
    mode; the path [/a] has no extension, and the blacklist filter keeps it,
    in both implementations: the URL [http://h/a] is kept. *)
Lemma blacklist_strict_counterexample :
  strict (processor_with ["noext"]) = true
  ∧ hasExtension "/a" = false
  ∧ getExtension ascii_ToLower "/a" = ""
  ∧ checkBlacklist ascii_ToLower (processor_with ["noext"]) "/a" = true
  ∧ BlacklistFilter_Apply ascii_ToLower "/a" (mkMeta true defaultBlacklist vulnParams) = true
  ∧ (Process ascii_ToLower plain_Parse (processor_with ["noext"]) "http://h/a").1 = true.
Proof. by vm_compute. Qed.

Lemma canonical_line_witness :
  let r := Process_all ascii_ToLower plain_Parse NewProcessor_keepSlash
             ["http://h/a/"; "http://h/a"] in
  r.1 = [true; true]
  ∧ paths_of r.2 "http://h" !! "/a/" = Some []
  ∧ paths_of r.2 "http://h" !! "/a" = Some [].
Proof.
  destruct (canonical_line ascii_ToLower plain_Parse) as (_ & _ & _ & _ & _ & Hex).
  apply Hex; by vm_compute.
Defined.

Lemma enumerations_agree_witness :
  let p := (Process_all ascii_ToLower plain_Parse NewProcessor_nil
              ["http://h/a/1"; "http://g/p?a=1&b=2"; "http://h/p"; "http://h/q?a=1"]).2 in
  let v := canonical_view (urlMap p) in
  Count_on v = length (Results_on v)
  ∧ Count_on v = length (store_entries (urlMap p)).
Proof.
  intros p v.
  destruct (enumerations_agree p (Count_on v) (Results_on v) ""
              (WriteResults_on v "")) as (H1 & H2 & _);
    [exists v; split; [apply canonical_view_ok|reflexivity]..|].
  split; [exact H1|exact H2].
Defined.

(** The enumerations on a store with four retained combinations. *)
Example enumerations_example :
  let p := (Process_all ascii_ToLower plain_Parse NewProcessor_nil
              ["http://h/a/1"; "http://g/p?a=1"; "http://h/p"; "http://h/q?a=1"]).2 in
  let v := canonical_view (urlMap p) in
  Count_on v = 4
  ∧ Results_on v ≡ₚ ["http://h/a/1"; "http://g/p?a=1"; "http://h/p"; "http://h/q?a=1"]
  ∧ WriteResults_on v ("" : Buffer) = Done (unlines (Results_on v))
  ∧ WriteResults_on v (("", 2) : LimitedWriter)
    = Failed (unlines (take 2 (Results_on v)), 0).
Proof.
  vm_compute. split_and!; try done.
  apply (bool_decide_unpack _). by vm_compute.
Qed.

(** * Witnesses of the further properties *)

Lemma processing_only_adds_witness :
  let p := (Process ascii_ToLower plain_Parse NewProcessor_nil "http://h/p?a=1").2 in
  let p' := (Process_all ascii_ToLower plain_Parse p ["http://h/p?b=2"; "junk"]).2 in
  (∃ more, paths_of p' "http://h" !! "/p" = Some ([paramsToMap "a=1"] ++ more)
           ∧ length more ≤ 2)
  ∧ contentPrefixes p `prefix_of` contentPrefixes p'
  ∧ paramsSeen p ⊆ paramsSeen p' ∧ patternsSeen p ⊆ patternsSeen p'
  ∧ opts p' = opts p ∧ extList p' = extList p ∧ filters p' = filters p
  ∧ strict p' = strict p ∧ keepSlash p' = keepSlash p.
Proof.
  intros p.
  apply (processing_only_adds ascii_ToLower plain_Parse p
           ["http://h/p?b=2"; "junk"] "http://h" "/p" [paramsToMap "a=1"]).
  by vm_compute.
Defined.

Lemma filter_chain_conjunction_witness :
  let p := processor_with ["hasparams"; "hasext"] in
  applyFilters_loop ascii_ToLower ["hasparams"; "hasext"] p "/a.php" ∅
  = applyFilters_loop ascii_ToLower ["hasparams"] p "/a.php" ∅
  ∧ applyFilters_loop ascii_ToLower ["hasparams"; "hasext"] p "/a.php" (paramsToMap "a=1")
    = (true, p).
Proof.
  intros p. split.
  - apply (filter_chain_conjunction ascii_ToLower ["hasparams"] ["hasext"] p "/a.php" ∅).
    by vm_compute.
  - apply (filter_chain_conjunction ascii_ToLower ["hasparams"; "hasext"] [] p "/a.php"
             (paramsToMap "a=1")).
    apply (bool_decide_unpack _). by vm_compute.
Defined.

Lemma rejected_by_one_filter_witness :
  let p := processor_with ["hasparams"] in
  let u := mkURL "http" "h" "/a" "" in
  (processURL ascii_ToLower p u).1 = false
  ∧ urlMap (processURL ascii_ToLower p u).2 = urlMap p
  ∧ paramsSeen (processURL ascii_ToLower p u).2 = paramsSeen p
  ∧ patternsSeen (processURL ascii_ToLower p u).2 = patternsSeen p.
Proof.
  intros p u.
  apply (rejected_by_one_filter ascii_ToLower plain_Parse p u "hasparams");
    [apply (bool_decide_unpack _); by vm_compute|done|by vm_compute].
Defined.

Lemma contradictory_filters_witness :
  (processURL ascii_ToLower (processor_with ["hasext"; "noext"])
     (mkURL "http" "h" "/a.php" "a=1")).1 = false.
Proof.
  apply (contradictory_filters ascii_ToLower plain_Parse). right. left.
  split; apply (bool_decide_unpack _); by vm_compute.
Defined.

Lemma cached_prefix_locks_witness :
  let p := (Process ascii_ToLower plain_Parse NewProcessor_nil "http://h/blog/x").2 in
  (processURL ascii_ToLower
     (Process_all ascii_ToLower plain_Parse p ["http://h/docs/y"]).2
     (mkURL "http" "g" "/blog/z" "q=1")).1 = false.
Proof.
  intros p.
  apply (cached_prefix_locks ascii_ToLower plain_Parse p _ "/blog");
    [apply (bool_decide_unpack _); by vm_compute..|by vm_compute].
Defined.

Lemma stored_sets_differ_by_name_witness :
  let p' := (Process_all ascii_ToLower plain_Parse NewProcessor_nil
               ["http://h/p?a=1"; "http://h/p?a=2"; "http://h/p?a=1&b=2"]).2 in
  let params := paramsToMap "a=1&b=2" in
  (∃ key, key ∈ dom params
          ∧ ∀ earlier, earlier ∈ [paramsToMap "a=1"] → key ∉ dom earlier)
  ∧ (params ∉ [paramsToMap "a=1"]) ∧ params ≠ ∅
  ∧ dom params ⊆ paramsSeen p'.
Proof.
  intros p' params.
  apply (stored_sets_differ_by_name ascii_ToLower plain_Parse NewProcessor_nil
           ["http://h/p?a=1"; "http://h/p?a=2"; "http://h/p?a=1&b=2"]
           "http://h" "/p" [paramsToMap "a=1"; params] [paramsToMap "a=1"] []);
    by vm_compute.
Defined.

Lemma numeric_patterns_taken_once_witness :
  "http://h" = "http://h" ∧ "/a/1" = "/a/1".
Proof.
  apply (numeric_patterns_taken_once ascii_ToLower plain_Parse NewProcessor_nil
           ["http://h/a/1"; "http://g/a/2"] "http://h" "/a/1" "http://h" "/a/1");
    try (apply (bool_decide_unpack _)); by vm_compute.
Defined.

Lemma stored_path_decision_witness :
  let p := (Process_all ascii_ToLower plain_Parse NewProcessor_nil ["http://h/p?a=1"]).2 in
  let u := mkURL "http" "h" "/p" "a=1&b=2" in
  (processURL ascii_ToLower p u).1
  = bool_decide (0 < size (paramsToMap "a=1&b=2"))
    && compareParams [paramsToMap "a=1"] (paramsToMap "a=1&b=2").
Proof.
  intros p u.
  apply (stored_path_decision ascii_ToLower plain_Parse p u [paramsToMap "a=1"]);
    [|by vm_compute..].
  apply (Process_all_invariant ascii_ToLower plain_Parse params_ok).
  - intros q v Hq. by apply (params_ok_step ascii_ToLower plain_Parse).
  - apply params_ok_empty. by vm_compute.
Defined.
